(** * bs::framework particle evolvers: texture animation and collisions

    A shallow embedding of [BsParticleEvolver.cpp].  The C++ [float] is the
    IEEE 754 binary32 format, embedded with the parametric specification of
    the Standard Library ([spec_float] at precision 24 and maximal exponent
    128, round to nearest even); [UINT32] values are integers in [Z] with the
    wrap-around written out; the structure-of-arrays particle buffer is a
    record of lists, and an access outside an array is the error result
    [None]. *)

From Stdlib Require Import ZArith Bool List Lia.
From Stdlib Require Import Floats.SpecFloat.
From stdpp Require Import base option list.

Local Open Scope Z_scope.

(** ** binary32 arithmetic *)

Module F32.

Definition prec : Z := 24.
Definition emax : Z := 128.

Definition float : Type := spec_float.

Definition add : float -> float -> float := SFadd prec emax.
Definition sub : float -> float -> float := SFsub prec emax.
Definition mul : float -> float -> float := SFmul prec emax.
Definition div : float -> float -> float := SFdiv prec emax.
Definition sqrt : float -> float := SFsqrt prec emax.
Definition fabs : float -> float := SFabs.

(** C++ comparison operators; every one of them is false on a NaN operand
    except [!=]. *)
Definition ltb : float -> float -> bool := SFltb.
Definition leb : float -> float -> bool := SFleb.
Definition gtb (a b : float) : bool := SFltb b a.
Definition eqb : float -> float -> bool := SFeqb.
Definition neqb (a b : float) : bool := negb (SFeqb a b).

Definition is_nan (a : float) : bool :=
  match a with S754_nan => true | _ => false end.

Definition is_zero (a : float) : bool :=
  match a with S754_zero _ => true | _ => false end.

Definition is_finite (a : float) : bool :=
  match a with S754_zero _ | S754_finite _ _ _ => true | _ => false end.

Definition valid (a : float) : bool := valid_binary prec emax a.

(** Conversion of an integer, as in [(float)n] or the implicit conversion
    of an integer operand. *)
Definition of_Z (n : Z) : float := binary_normalize prec emax n 0 false.

Definition zero : float := S754_zero false.
Definition one : float := Eval vm_compute in of_Z 1.
Definition two : float := Eval vm_compute in of_Z 2.

(** [std::numeric_limits<float>::max()] and [::epsilon()]. *)
Definition FLT_MAX : float := Eval vm_compute in SFmax_float prec emax.
Definition FLT_EPSILON : float := S754_finite false 8388608 (-46).

(** [std::floor]: the result is an integer of magnitude below [2^24]
    whenever the argument has a fractional part, so it is exact. *)
Definition floor (a : float) : float :=
  match a with
  | S754_finite s m e =>
      if 0 <=? e then a
      else
        let q := cond_Zopp s (Zpos m) / 2 ^ (- e) in
        if q =? 0 then S754_zero s else of_Z q
  | _ => a
  end.

(** [std::min] and [std::max], which return their first argument unless
    the comparison selects the second. *)
Definition min (a b : float) : float := if ltb b a then b else a.
Definition max (a b : float) : float := if ltb a b then b else a.

End F32.

Abbreviation float := F32.float.

(** ** [UINT32] *)

Definition UINT32_MOD : Z := 2 ^ 32.
Definition to_UINT32 (n : Z) : Z := n mod UINT32_MOD.

(** ** The engine's math helpers *)

Module Math.

(** Modelled from the spec: [Math::approxEquals] is declared in a header
    that is not among the sources; the spec calls it a tolerance-based
    equality, taken here as [|b - a| <= tolerance] with the machine
    epsilon as the tolerance. *)
Definition approxEquals (a b : float) : bool :=
  F32.leb (F32.fabs (F32.sub b a)) F32.FLT_EPSILON.

(** Modelled from the spec: [Math::clamp] is declared in a header that is
    not among the sources; [clamp(val, lo, hi)] is the larger of [lo] and
    the smaller of [val] and [hi]. *)
Definition clamp (val minval maxval : float) : float :=
  F32.max (F32.min val maxval) minval.

(** Modelled from the spec: [Math::repeat] is declared in a header that is
    not among the sources; the spec asks for wrap-around (modulo) into
    [0, length), computed as [val - floor(val / length) * length]. *)
Definition repeat (val length : float) : float :=
  F32.sub val (F32.mul (F32.floor (F32.div val length)) length).

End Math.

(** ** Vectors *)

Record Vector3 : Type := mkVector3 { vx : float; vy : float; vz : float }.

Module Vec.

Definition ZERO : Vector3 := mkVector3 F32.zero F32.zero F32.zero.

(** Modelled from the spec: [Vector3] is declared in a header that is not
    among the sources; its operators act on each component. *)
Definition add (a b : Vector3) : Vector3 :=
  mkVector3 (F32.add (vx a) (vx b)) (F32.add (vy a) (vy b)) (F32.add (vz a) (vz b)).

Definition sub (a b : Vector3) : Vector3 :=
  mkVector3 (F32.sub (vx a) (vx b)) (F32.sub (vy a) (vy b)) (F32.sub (vz a) (vz b)).

Definition scale (a : Vector3) (k : float) : Vector3 :=
  mkVector3 (F32.mul (vx a) k) (F32.mul (vy a) k) (F32.mul (vz a) k).

Definition lscale (k : float) (a : Vector3) : Vector3 :=
  mkVector3 (F32.mul k (vx a)) (F32.mul k (vy a)) (F32.mul k (vz a)).

Definition divide (a : Vector3) (k : float) : Vector3 :=
  mkVector3 (F32.div (vx a) k) (F32.div (vy a) k) (F32.div (vz a) k).

Definition dot (a b : Vector3) : float :=
  F32.add (F32.add (F32.mul (vx a) (vx b)) (F32.mul (vy a) (vy b)))
          (F32.mul (vz a) (vz b)).

Definition length (a : Vector3) : float := F32.sqrt (dot a a).

(** Modelled from the spec: [reflect(v, n) = v - 2 * dot(v, n) * n]. *)
Definition reflect (v n : Vector3) : Vector3 :=
  sub v (lscale (F32.mul F32.two (dot v n)) n).

End Vec.

(** ** Collision response *)

Inductive ParticleCollisionMode : Type := Plane_mode | World_mode.

Record PARTICLE_COLLISONS_DESC : Type := mkCollisionsDesc {
  mode : ParticleCollisionMode;
  restitution : float;
  dampening : float;
  lifetimeLoss : float;
  radius : float;
  layer : Z
}.

(** Information about a particle collision. *)
Record ParticleHitInfo : Type := mkHitInfo {
  hit_position : Vector3;
  hit_normal : Vector3;
  hit_idx : nat
}.

(** [calcCollisionResponse]: the new position and velocity of a particle
    that was detected to be colliding. *)
Definition calcCollisionResponse (position velocity : Vector3)
    (hitInfo : ParticleHitInfo) (desc : PARTICLE_COLLISONS_DESC)
    : Vector3 * Vector3 :=
  let diff := Vec.sub position (hit_position hitInfo) in
  (* Reflect & dampen *)
  let dampenFactor := F32.sub F32.one (dampening desc) in
  let reflectedPos := Vec.scale (Vec.reflect diff (hit_normal hitInfo)) dampenFactor in
  let reflectedVel := Vec.scale (Vec.reflect velocity (hit_normal hitInfo)) dampenFactor in
  (* Bounce *)
  let restitutionFactor := F32.sub F32.one (restitution desc) in
  let reflectedPos :=
    Vec.sub reflectedPos
      (Vec.scale (Vec.scale (hit_normal hitInfo) (Vec.dot reflectedPos (hit_normal hitInfo)))
                 restitutionFactor) in
  let reflectedVel :=
    Vec.sub reflectedVel
      (Vec.scale (Vec.scale (hit_normal hitInfo) (Vec.dot reflectedVel (hit_normal hitInfo)))
                 restitutionFactor) in
  (Vec.add (hit_position hitInfo) reflectedPos, reflectedVel).

(** ** Arrays and loops *)

(** A particle array: [l !! i] reads slot [i]; [store] writes it.  Both are
    [None] outside the array, where the C++ access is undefined. *)
Definition store {A : Type} (l : list A) (i : nat) (v : A) : option (list A) :=
  if decide (i < length l)%nat then Some (<[i := v]> l) else None.

(** Scratch storage from [bs_stack_alloc<T>(n)]: [n] slots that hold nothing
    until they are written. *)
Abbreviation buffer A := (list (option A)).

Definition bs_stack_alloc {A : Type} (n : nat) : buffer A := replicate n None.

Definition buf_read {A : Type} (b : buffer A) (i : nat) : option A :=
  b !! i ≫= id.

Definition buf_write {A : Type} (b : buffer A) (i : nat) (v : A) : option (buffer A) :=
  store b i (Some v).

(** [for (i = start; i < start + n; i++) body], over a state [S]. *)
Fixpoint for_loop {S : Type} (n i : nat) (body : nat -> S -> option S) (s : S)
    : option S :=
  match n with
  | O => Some s
  | Datatypes.S n' => s' ← body i s; for_loop n' (Datatypes.S i) body s'
  end.

(** The same loop when the body may [break]. *)
Inductive flow (S : Type) : Type :=
  | Continue (s : S)
  | Break (s : S).
Arguments Continue {S} s.
Arguments Break {S} s.

Fixpoint for_break {S : Type} (n i : nat) (body : nat -> S -> option (flow S)) (s : S)
    : option S :=
  match n with
  | O => Some s
  | Datatypes.S n' =>
      r ← body i s;
      match r with
      | Continue s' => for_break n' (Datatypes.S i) body s'
      | Break s' => Some s'
      end
  end.

(** ** The particle buffer *)

Record ParticleSetData : Type := mkParticles {
  position : list Vector3;
  velocity : list Vector3;
  lifetime : list float;
  initialLifetime : list float;
  seed : list Z;
  frame : list float
}.

Record ParticleSet : Type := mkParticleSet {
  getParticleCount : nat;
  getParticles : ParticleSetData
}.

Definition set_frame (p : ParticleSetData) (l : list float) : ParticleSetData :=
  mkParticles (position p) (velocity p) (lifetime p) (initialLifetime p) (seed p) l.

(** Every array of the buffer has a slot for each live particle. *)
Definition set_wf (set : ParticleSet) : Prop :=
  let n := getParticleCount set in
  let p := getParticles set in
  (n <= length (position p))%nat /\ (n <= length (velocity p))%nat /\
  (n <= length (lifetime p))%nat /\ (n <= length (initialLifetime p))%nat /\
  (n <= length (seed p))%nat /\ (n <= length (frame p))%nat.

(** ** Resources of the texture animation *)

Record SpriteSheetGridAnimation : Type := mkGridAnim {
  numRows : Z;
  numColumns : Z;
  count : Z
}.

Record SpriteTexture : Type := mkSpriteTexture {
  getAnimation : SpriteSheetGridAnimation
}.

(** A resource handle is either loaded, and then gives its resource, or
    not. *)
Inductive ResourceHandle (T : Type) : Type :=
  | handle_unloaded
  | handle_loaded (res : T).
Arguments handle_unloaded {T}.
Arguments handle_loaded {T} res.

Record Material : Type := mkMaterial {
  (** [getSpriteTexture("gTexture")] *)
  getSpriteTexture_gTexture : ResourceHandle SpriteTexture
}.

Record ParticleSystem : Type := mkParticleSystem {
  getMaterial : ResourceHandle Material
}.

Record PARTICLE_TEXTURE_ANIMATION_DESC : Type := mkTextureAnimationDesc {
  randomizeRow : bool;
  numCycles : Z
}.

Record ParticleTextureAnimation : Type := mkTextureAnimation {
  ta_mDesc : PARTICLE_TEXTURE_ANIMATION_DESC;
  ta_mParent : option ParticleSystem
}.

(** Arbitrary random number that adds variation to the row selection, since
    there is just a single seed value per particle. *)
Definition PARTICLE_ROW_VARIATION : Z := 0x1e8b2f4a.

(** ** Geometry of the collisions *)

Record Plane : Type := mkPlane { plane_normal : Vector3; plane_d : float }.

(** Modelled from the spec: [Plane::getDistance] is declared in a header that
    is not among the sources; the signed distance of a point to the plane. *)
Definition getDistance (pl : Plane) (point : Vector3) : float :=
  F32.sub (Vec.dot (plane_normal pl) point) (plane_d pl).

Record LineSegment3 : Type := mkLineSegment3 { seg_start : Vector3; seg_end : Vector3 }.

Record Ray : Type := mkRay { ray_origin : Vector3; ray_direction : Vector3 }.

Record PhysicsQueryHit : Type := mkQueryHit {
  qh_distance : float;
  qh_point : Vector3;
  qh_normal : Vector3
}.

Record ParticleCollisions : Type := mkCollisions {
  pc_mDesc : PARTICLE_COLLISONS_DESC;
  mCollisionPlanes : list Plane
}.

(** The constructor clamps the descriptor. *)
Definition ParticleCollisions_new (desc : PARTICLE_COLLISONS_DESC) : PARTICLE_COLLISONS_DESC :=
  mkCollisionsDesc (mode desc)
    (F32.max (restitution desc) F32.zero)
    (Math.clamp (dampening desc) F32.zero F32.one)
    (Math.clamp (lifetimeLoss desc) F32.zero F32.one)
    (F32.max (radius desc) F32.zero)
    (layer desc).

(** The tick state, over the type of the transforms. *)
Record ParticleSystemState (Matrix4 : Type) : Type := mkState {
  timeStep : float;
  worldSpace : bool;
  localToWorld : Matrix4;
  worldToLocal : Matrix4
}.
Arguments mkState {Matrix4} timeStep worldSpace localToWorld worldToLocal.
Arguments timeStep {Matrix4} p.
Arguments worldSpace {Matrix4} p.
Arguments localToWorld {Matrix4} p.
Arguments worldToLocal {Matrix4} p.

(** ** The evolvers

    The collaborators whose code is outside this unit are the variables of
    the section: the random source, the transforms of the tick state, the
    bounding box of the broad phase and the physics queries. *)

Section Evolvers.

(** [Random(seed)] and the draw [getRange(min, max)] of a generator. *)
Variable Random : Type.
Variable Random_new : Z -> Random.
Variable getRange : Random -> Z -> Z -> Z.

Variable Matrix4 : Type.
Variable multiplyAffine : Matrix4 -> Vector3 -> Vector3.
Variable multiplyDirection : Matrix4 -> Vector3 -> Vector3.
Variable multiplyAffinePlane : Matrix4 -> Plane -> Plane.

Variable AABox : Type.
Variable INF_BOX : AABox.
Variable merge : AABox -> Vector3 -> AABox.

Variable Quaternion : Type.
Variable IDENTITY : Quaternion.

(** [gPhysics()._boxOverlap] and [Collider::rayCast], which is [None] when
    the ray misses the collider. *)
Variable Collider : Type.
Variable _boxOverlap : AABox -> Quaternion -> Z -> list Collider.
Variable rayCast : Collider -> Ray -> float -> option PhysicsQueryHit.

(** *** Texture animation *)

(** The sprite texture the animation reads, when everything is loaded. *)
Definition resolveTexture (self : ParticleTextureAnimation) : option SpriteTexture :=
  match ta_mParent self with
  | Some parent =>
      match getMaterial parent with
      | handle_loaded material =>
          match getSpriteTexture_gTexture material with
          | handle_loaded spriteTex => Some spriteTex
          | handle_unloaded => None
          end
      | handle_unloaded => None
      end
  | None => None
  end.

Definition validGrid (gridAnim : SpriteSheetGridAnimation) : bool :=
  (0 <? numRows gridAnim) && (0 <? numColumns gridAnim) && (0 <? count gridAnim).

(** The grid animation when [hasValidAnimation] holds. *)
Definition validAnimation (self : ParticleTextureAnimation)
    : option SpriteSheetGridAnimation :=
  match resolveTexture self with
  | Some texture =>
      if validGrid (getAnimation texture) then Some (getAnimation texture) else None
  | None => None
  end.

(** The row drawn for a particle from its seed. *)
Definition selectRow (gridAnim : SpriteSheetGridAnimation) (seed_i : Z) : Z :=
  let rowSeed := to_UINT32 (seed_i + PARTICLE_ROW_VARIATION) in
  to_UINT32 (getRange (Random_new rowSeed) 0 (numRows gridAnim)).

(** [frameOffset] and [numFrames] of particle [i]. *)
Definition frameRange (desc : PARTICLE_TEXTURE_ANIMATION_DESC)
    (gridAnim : SpriteSheetGridAnimation) (particles : ParticleSetData) (i : nat)
    : option (Z * Z) :=
  if randomizeRow desc then
    seed_i ← seed particles !! i;
    let row := selectRow gridAnim seed_i in
    Some (to_UINT32 (row * numColumns gridAnim), numColumns gridAnim)
  else
    Some (0, count gridAnim).

(** [particleT * numFrames], before it is clamped. *)
Definition scaledFrame (desc : PARTICLE_TEXTURE_ANIMATION_DESC)
    (initialLifetime_i lifetime_i : float) (numFrames : Z) : float :=
  let particleT :=
    F32.div (F32.sub initialLifetime_i lifetime_i) initialLifetime_i in
  let particleT :=
    Math.repeat (F32.mul (F32.of_Z (numCycles desc)) particleT) F32.one in
  F32.mul particleT (F32.of_Z numFrames).

Definition frameValue (frameOffset numFrames : Z) (frame_v : float) : float :=
  F32.add (F32.of_Z frameOffset)
    (Math.clamp frame_v F32.zero (F32.of_Z (to_UINT32 (numFrames - 1)))).

Definition animateParticle (desc : PARTICLE_TEXTURE_ANIMATION_DESC)
    (gridAnim : SpriteSheetGridAnimation) (i : nat) (particles : ParticleSetData)
    : option ParticleSetData :=
  '(frameOffset, numFrames) ← frameRange desc gridAnim particles i;
  initialLifetime_i ← initialLifetime particles !! i;
  lifetime_i ← lifetime particles !! i;
  let frame_v := scaledFrame desc initialLifetime_i lifetime_i numFrames in
  frame' ← store (frame particles) i (frameValue frameOffset numFrames frame_v);
  Some (set_frame particles frame').

Definition ParticleTextureAnimation_evolve (self : ParticleTextureAnimation)
    (random : Random) (state : ParticleSystemState Matrix4) (set : ParticleSet)
    : option ParticleSet :=
  let count := getParticleCount set in
  let particles := getParticles set in
  match validAnimation self with
  | None =>
      particles' ←
        for_loop count 0
          (fun i p => frame' ← store (frame p) i F32.zero; Some (set_frame p frame'))
          particles;
      Some (mkParticleSet count particles')
  | Some gridAnim =>
      particles' ← for_loop count 0 (animateParticle (ta_mDesc self) gridAnim) particles;
      Some (mkParticleSet count particles')
  end.

(** *** Group raycast *)

(** The ray of a segment and its length; none for a segment of length
    about zero, which the loop skips before it normalizes. *)
Definition segmentRay (seg : LineSegment3) : option (Ray * float) :=
  let diff := Vec.sub (seg_end seg) (seg_start seg) in
  let length := Vec.length diff in
  if Math.approxEquals length F32.zero then None
  else Some (mkRay (seg_start seg) (Vec.divide diff length), length).

(** One collider of the narrow phase: keep the hit when it is nearer. *)
Definition nearestStep (ray : Ray) (length : float)
    (acc : float * ParticleHitInfo) (collider : Collider) : float * ParticleHitInfo :=
  match rayCast collider ray length with
  | Some queryHit =>
      if F32.ltb (qh_distance queryHit) (fst acc) then
        (qh_distance queryHit,
         mkHitInfo (qh_point queryHit) (qh_normal queryHit) (hit_idx (snd acc)))
      else acc
  | None => acc
  end.

(** The body of the narrow-phase loop for segment [i].  [hitInfo] starts
    with its index only; the position and normal it is given here are
    stored only after a collider has overwritten them. *)
Definition raycastSegment (hitColliders : list Collider) (segments : buffer LineSegment3)
    (i : nat) (st : nat * buffer ParticleHitInfo) : option (nat * buffer ParticleHitInfo) :=
  let '(numHits, hits) := st in
  seg ← buf_read segments i;
  match segmentRay seg with
  | None => Some (numHits, hits)
  | Some (ray, length) =>
      let '(nearestHit, hitInfo) :=
        fold_left (nearestStep ray length) hitColliders
          (F32.FLT_MAX, mkHitInfo Vec.ZERO Vec.ZERO i) in
      if F32.neqb nearestHit F32.FLT_MAX then
        hits' ← buf_write hits numHits hitInfo;
        Some (Datatypes.S numHits, hits')
      else Some (numHits, hits)
  end.

(** Bounds of all rays. *)
Definition groupBounds (segments : buffer LineSegment3) (numRays : nat) : option AABox :=
  for_loop numRays 0
    (fun i box => seg ← buf_read segments i;
                  Some (merge (merge box (seg_start seg)) (seg_end seg)))
    INF_BOX.

Definition groupRaycast (segments : buffer LineSegment3) (hits : buffer ParticleHitInfo)
    (numRays : nat) (layer : Z) : option (nat * buffer ParticleHitInfo) :=
  if decide (numRays = 0%nat) then Some (0%nat, hits)
  else
    bounds ← groupBounds segments numRays;
    let hitColliders := _boxOverlap bounds IDENTITY layer in
    match hitColliders with
    | [] => Some (0%nat, hits)
    | _ => for_loop numRays 0 (raycastSegment hitColliders segments) (0%nat, hits)
    end.

(** *** Collisions *)

(** The response and the loss of lifetime of the particle a hit names. *)
Definition applyHit (desc : PARTICLE_COLLISONS_DESC) (particleIdx : nat)
    (hitInfo : ParticleHitInfo) (particles : ParticleSetData) : option ParticleSetData :=
  position_i ← position particles !! particleIdx;
  velocity_i ← velocity particles !! particleIdx;
  let '(position', velocity') :=
    calcCollisionResponse position_i velocity_i hitInfo desc in
  positions ← store (position particles) particleIdx position';
  velocities ← store (velocity particles) particleIdx velocity';
  lifetime_i ← lifetime particles !! particleIdx;
  initialLifetime_i ← initialLifetime particles !! particleIdx;
  lifetimes ← store (lifetime particles) particleIdx
                (F32.sub lifetime_i (F32.mul (lifetimeLoss desc) initialLifetime_i));
  Some (mkParticles positions velocities lifetimes
          (initialLifetime particles) (seed particles) (frame particles)).

(** The two gates a plane has to pass for particle data [position_i],
    [velocity_i]. *)
Definition planeQualifies (desc : PARTICLE_COLLISONS_DESC) (position_i velocity_i : Vector3)
    (plane : Plane) : bool :=
  negb (F32.gtb (getDistance plane position_i) (radius desc))
  && negb (Math.approxEquals (Vec.dot (plane_normal plane) velocity_i) F32.zero).

(** The hit of a particle on a plane that passed the gates. *)
Definition planeHit (desc : PARTICLE_COLLISONS_DESC) (position_i velocity_i : Vector3)
    (plane : Plane) (i : nat) : ParticleHitInfo :=
  let dist := getDistance plane position_i in
  let distToTravelAlongNormal := Vec.dot (plane_normal plane) velocity_i in
  let distFromBoundary := F32.sub (radius desc) dist in
  let rayT := F32.div distFromBoundary distToTravelAlongNormal in
  mkHitInfo (Vec.add position_i (Vec.scale velocity_i rayT)) (plane_normal plane) i.

(** The body of the loop over the planes, for particle [i]. *)
Definition collidePlane (desc : PARTICLE_COLLISONS_DESC) (planes : buffer Plane)
    (position_i velocity_i : Vector3) (i j : nat) (particles : ParticleSetData)
    : option (flow ParticleSetData) :=
  plane ← buf_read planes j;
  let dist := getDistance plane position_i in
  if F32.gtb dist (radius desc) then Some (Continue particles)
  else
    let distToTravelAlongNormal := Vec.dot (plane_normal plane) velocity_i in
    (* Ignore movement parallel to the plane *)
    if Math.approxEquals distToTravelAlongNormal F32.zero then Some (Continue particles)
    else
      particles' ← applyHit desc i (planeHit desc position_i velocity_i plane i) particles;
      Some (Break particles').

Definition collideParticle (desc : PARTICLE_COLLISONS_DESC) (planes : buffer Plane)
    (numPlanes : nat) (i : nat) (particles : ParticleSetData) : option ParticleSetData :=
  position_i ← position particles !! i;
  velocity_i ← velocity particles !! i;
  for_break numPlanes 0 (collidePlane desc planes position_i velocity_i i) particles.

(** The planes the scan reads: the configured ones in world space, else
    their transforms in scratch storage. *)
Definition localPlanes (self : ParticleCollisions) (state : ParticleSystemState Matrix4)
    (numParticles : nat) : option (buffer Plane) :=
  let numPlanes := length (mCollisionPlanes self) in
  if worldSpace state then Some (Some <$> mCollisionPlanes self)
  else
    for_loop numPlanes 0
      (fun i lp => plane ← mCollisionPlanes self !! i;
                   buf_write lp i (multiplyAffinePlane (worldToLocal state) plane))
      (bs_stack_alloc numParticles).

Definition evolvePlanes (self : ParticleCollisions) (state : ParticleSystemState Matrix4)
    (numParticles : nat) (particles : ParticleSetData) : option ParticleSetData :=
  let numPlanes := length (mCollisionPlanes self) in
  planes ← localPlanes self state numParticles;
  for_loop numParticles 0 (collideParticle (pc_mDesc self) planes numPlanes) particles.

(** One segment per particle, from its previous position to its current
    one. *)
Definition buildSegments (state : ParticleSystemState Matrix4) (numRays : nat)
    (particles : ParticleSetData) : option (buffer LineSegment3) :=
  segments ←
    for_loop numRays 0
      (fun i segs =>
         position_i ← position particles !! i;
         velocity_i ← velocity particles !! i;
         let from := Vec.sub position_i (Vec.scale velocity_i (timeStep state)) in
         buf_write segs i (mkLineSegment3 from position_i))
      (bs_stack_alloc numRays);
  if worldSpace state then Some segments
  else
    for_loop numRays 0
      (fun i segs =>
         seg ← buf_read segs i;
         buf_write segs i
           (mkLineSegment3 (multiplyAffine (localToWorld state) (seg_start seg))
                           (multiplyAffine (localToWorld state) (seg_end seg))))
      segments.

Definition hitsToLocal (state : ParticleSystemState Matrix4) (numHits : nat)
    (hits : buffer ParticleHitInfo) : option (buffer ParticleHitInfo) :=
  if worldSpace state then Some hits
  else
    for_loop numHits 0
      (fun i hs =>
         h ← buf_read hs i;
         buf_write hs i
           (mkHitInfo (multiplyAffine (worldToLocal state) (hit_position h))
                      (multiplyDirection (worldToLocal state) (hit_normal h))
                      (hit_idx h)))
      hits.

Definition evolveWorld (self : ParticleCollisions) (state : ParticleSystemState Matrix4)
    (numParticles : nat) (particles : ParticleSetData) : option ParticleSetData :=
  let numRays := numParticles in
  segments ← buildSegments state numRays particles;
  '(numHits, hits) ←
    groupRaycast segments (bs_stack_alloc numRays) numRays (layer (pc_mDesc self));
  hits ← hitsToLocal state numHits hits;
  for_loop numHits 0
    (fun i ps => hitInfo ← buf_read hits i;
                 applyHit (pc_mDesc self) (hit_idx hitInfo) hitInfo ps)
    particles.

Definition ParticleCollisions_evolve (self : ParticleCollisions) (random : Random)
    (state : ParticleSystemState Matrix4) (set : ParticleSet) : option ParticleSet :=
  let numParticles := getParticleCount set in
  let particles := getParticles set in
  particles' ←
    match mode (pc_mDesc self) with
    | Plane_mode => evolvePlanes self state numParticles particles
    | World_mode => evolveWorld self state numParticles particles
    end;
  Some (mkParticleSet numParticles particles').

(** *** Vocabulary of the properties *)

(** What the valid path stores in [frame[i]]. *)
Definition animatedFrame desc gridAnim (p q : ParticleSetData) (i : nat) : Prop :=
  forall frameOffset numFrames il l,
    frameRange desc gridAnim p i = Some (frameOffset, numFrames) ->
    initialLifetime p !! i = Some il -> lifetime p !! i = Some l ->
    frame q !! i = Some (frameValue frameOffset numFrames (scaledFrame desc il l numFrames)).

(** The planes the scan is meant to read. *)
Definition effectivePlanes (self : ParticleCollisions) (state : ParticleSystemState Matrix4)
    : list Plane :=
  if worldSpace state then mCollisionPlanes self
  else multiplyAffinePlane (worldToLocal state) <$> mCollisionPlanes self.

(** The nearest hit of a ray among the colliders, as the narrow phase
    accumulates it for the segment of index [i]. *)
Definition nearestHit (hitColliders : list Collider) (ray : Ray) (length : float) (i : nat)
    : float * ParticleHitInfo :=
  fold_left (nearestStep ray length) hitColliders
    (F32.FLT_MAX, mkHitInfo Vec.ZERO Vec.ZERO i).

(** Hit [h] is what the narrow phase emits for segment [seg]. *)
Definition producedBy (hitColliders : list Collider) (seg : LineSegment3)
    (h : ParticleHitInfo) : Prop :=
  exists ray length,
    segmentRay seg = Some (ray, length)
    /\ F32.neqb (fst (nearestHit hitColliders ray length (hit_idx h))) F32.FLT_MAX = true
    /\ h = snd (nearestHit hitColliders ray length (hit_idx h)).

(** The hits [hits'] and their number, for [numRays] segments and a
    caller's array [hits]. *)
Definition raycastPost (hitColliders : list Collider) (segments : buffer LineSegment3)
    (hits : buffer ParticleHitInfo) (numRays numHits : nat)
    (hits' : buffer ParticleHitInfo) : Prop :=
  (numHits <= numRays)%nat
  /\ length hits' = length hits
  /\ (forall j, (j < numHits)%nat ->
        exists h seg, buf_read hits' j = Some h /\ (hit_idx h < numRays)%nat
                      /\ buf_read segments (hit_idx h) = Some seg
                      /\ producedBy hitColliders seg h)
  /\ (forall j1 j2 h1 h2, (j1 < j2 < numHits)%nat ->
        buf_read hits' j1 = Some h1 -> buf_read hits' j2 = Some h2 ->
        (hit_idx h1 < hit_idx h2)%nat)
  /\ (forall j, (numHits <= j)%nat -> hits' !! j = hits !! j).

End Evolvers.

(** ** Vocabulary of the properties *)

(** Shifting right by [k] bits: what is left of [M], and what the two
    rounding bits say about the part shifted out. *)
Definition shr_inv (M k : Z) (mrs : shr_record) (rem : Z) : Prop :=
  0 <= rem < 2 ^ k /\ M = shr_m mrs * 2 ^ k + rem /\ 0 <= shr_m mrs
  /\ (shr_r mrs = true <-> 2 ^ k <= 2 * rem)
  /\ (shr_s mrs = true <-> rem <> 0 /\ 2 * rem <> 2 ^ k).

(** The mantissa [m] and exponent [e] of a binary32 number in its unique
    representation: 24 bits, or fewer at the least exponent. *)
Definition canonical (m : positive) (e : Z) : Prop :=
  Z.max (Zpos (digits2_pos m) + e - 24) (-149) = e.

(** The value of a positive number, in units of [2^-149]. *)
Definition scaled (m : positive) (e : Z) : Z := Zpos m * 2 ^ (e + 149).

(** [nonneg x v]: [x] is a zero or a positive valid binary32 number, of value
    [v] in units of [2^-149]. *)
Inductive nonneg : float -> Z -> Prop :=
  | nonneg_zero (s : bool) : nonneg (S754_zero s) 0
  | nonneg_finite (m : positive) (e : Z) :
      canonical m e -> e <= 104 -> nonneg (S754_finite false m e) (scaled m e).

(** The fields other than [frame] and the lengths, along the loops. *)
Definition sameButFrame (p q : ParticleSetData) : Prop :=
  position q = position p /\ velocity q = velocity p /\ lifetime q = lifetime p /\
  initialLifetime q = initialLifetime p /\ seed q = seed p /\
  length (frame q) = length (frame p).

(** The cases in which the evolver falls back: no parent system, a material
    or a sprite texture that is not loaded, or a grid descriptor with a
    zero field. *)
Definition fallbackCase (self : ParticleTextureAnimation) : Prop :=
  ta_mParent self = None
  \/ (exists parent, ta_mParent self = Some parent /\ getMaterial parent = handle_unloaded)
  \/ (exists parent material,
        ta_mParent self = Some parent /\ getMaterial parent = handle_loaded material /\
        getSpriteTexture_gTexture material = handle_unloaded)
  \/ (exists texture,
        resolveTexture self = Some texture /\
        (numRows (getAnimation texture) = 0 \/ numColumns (getAnimation texture) = 0 \/
         count (getAnimation texture) = 0)).

(** The vector of three integer components. *)
Definition v3 (x y z : Z) : Vector3 :=
  mkVector3 (F32.of_Z x) (F32.of_Z y) (F32.of_Z z).

(** A descriptor with the given dampening and restitution. *)
Definition responseDesc (damp rest : Z) : PARTICLE_COLLISONS_DESC :=
  mkCollisionsDesc Plane_mode (F32.of_Z rest) (F32.of_Z damp) F32.zero F32.zero 0.

(** What the evolver leaves in slot [i], from what it found there. *)
Definition planeOutcome desc (planes_eff : list Plane) (i : nat)
    (before after : ParticleSetData) : Prop :=
  forall p v l il,
    position before !! i = Some p -> velocity before !! i = Some v ->
    lifetime before !! i = Some l -> initialLifetime before !! i = Some il ->
    match find (planeQualifies desc p v) planes_eff with
    | Some plane =>
        let r := calcCollisionResponse p v (planeHit desc p v plane i) desc in
        position after !! i = Some (fst r) /\ velocity after !! i = Some (snd r)
        /\ lifetime after !! i = Some (F32.sub l (F32.mul (lifetimeLoss desc) il))
    | None =>
        position after !! i = Some p /\ velocity after !! i = Some v
        /\ lifetime after !! i = Some l
    end.

(** The buffer [q] after the first [k] particles of [p0] were handled. *)
Definition planesInv desc planes_eff (p0 : ParticleSetData) (k : nat) (q : ParticleSetData)
    : Prop :=
  length (position q) = length (position p0)
  /\ length (velocity q) = length (velocity p0)
  /\ length (lifetime q) = length (lifetime p0)
  /\ initialLifetime q = initialLifetime p0
  /\ seed q = seed p0 /\ frame q = frame p0
  /\ (forall i, (k <= i)%nat ->
        position q !! i = position p0 !! i /\ velocity q !! i = velocity p0 !! i
        /\ lifetime q !! i = lifetime p0 !! i)
  /\ (forall i, (i < k)%nat -> planeOutcome desc planes_eff i p0 q).

(** No component is an infinity or a NaN. *)
Definition finiteVector (a : Vector3) : Prop :=
  F32.is_finite (vx a) = true /\ F32.is_finite (vy a) = true
  /\ F32.is_finite (vz a) = true.

(** ** Vocabulary of the further properties *)

Section PropertyVocabulary.

Variable Random : Type.
Variable Random_new : Z -> Random.
Variable getRange : Random -> Z -> Z -> Z.
Variable Matrix4 : Type.
Variable multiplyAffine : Matrix4 -> Vector3 -> Vector3.
Variable multiplyDirection : Matrix4 -> Vector3 -> Vector3.
Variable AABox : Type.
Variable INF_BOX : AABox.
Variable merge : AABox -> Vector3 -> AABox.
Variable Quaternion : Type.
Variable IDENTITY : Quaternion.
Variable Collider : Type.
Variable _boxOverlap : AABox -> Quaternion -> Z -> list Collider.
Variable rayCast : Collider -> Ray -> float -> option PhysicsQueryHit.

(** The frame the valid path computes for particle [i] of the buffer [p]. *)
Definition frameOf (desc : PARTICLE_TEXTURE_ANIMATION_DESC)
    (gridAnim : SpriteSheetGridAnimation) (p : ParticleSetData) (i : nat) : option float :=
  '(frameOffset, numFrames) ← frameRange Random Random_new getRange desc gridAnim p i;
  il ← initialLifetime p !! i;
  l ← lifetime p !! i;
  Some (frameValue frameOffset numFrames (scaledFrame desc il l numFrames)).

(** The segment of a particle at [position_i] with [velocity_i], as the
    batcher gets it: in world space. *)
Definition particleSegment (state : ParticleSystemState Matrix4)
    (position_i velocity_i : Vector3) : LineSegment3 :=
  let from := Vec.sub position_i (Vec.scale velocity_i (timeStep state)) in
  if worldSpace state then mkLineSegment3 from position_i
  else mkLineSegment3 (multiplyAffine (localToWorld state) from)
                      (multiplyAffine (localToWorld state) position_i).

(** A hit of the batcher, as the response gets it: in the space of the
    particles. *)
Definition hitToLocal (state : ParticleSystemState Matrix4) (h : ParticleHitInfo)
    : ParticleHitInfo :=
  if worldSpace state then h
  else mkHitInfo (multiplyAffine (worldToLocal state) (hit_position h))
                 (multiplyDirection (worldToLocal state) (hit_normal h))
                 (hit_idx h).

(** The hit the narrow phase has for segment [seg] of index [i], if any. *)
Definition segmentHit (hitColliders : list Collider) (i : nat) (seg : LineSegment3)
    : option ParticleHitInfo :=
  match segmentRay seg with
  | None => None
  | Some (ray, length) =>
      let r := nearestHit Collider rayCast hitColliders ray length i in
      if F32.neqb (fst r) F32.FLT_MAX then Some (snd r) else None
  end.

(** The hits of the segments [segs], the first of index [i], in order. *)
Fixpoint emittedHits (hitColliders : list Collider) (segs : list LineSegment3) (i : nat)
    : list ParticleHitInfo :=
  match segs with
  | [] => []
  | seg :: rest =>
      match segmentHit hitColliders i seg with
      | Some h => h :: emittedHits hitColliders rest (S i)
      | None => emittedHits hitColliders rest (S i)
      end
  end.

(** The segments of the first [n] particles of the buffer. *)
Definition particleSegments (state : ParticleSystemState Matrix4) (n : nat)
    (particles : ParticleSetData) : list LineSegment3 :=
  zip_with (particleSegment state) (take n (position particles))
           (take n (velocity particles)).

(** The bounds of the segments [segs]. *)
Definition boundsOf (segs : list LineSegment3) : AABox :=
  fold_left (fun box seg => merge (merge box (seg_start seg)) (seg_end seg)) segs INF_BOX.

(** The colliders the broad phase hands to the narrow phase. *)
Definition overlapped (segs : list LineSegment3) (layer : Z) : list Collider :=
  match segs with
  | [] => []
  | _ => _boxOverlap (boundsOf segs) IDENTITY layer
  end.

(** What the narrow phase holds after the colliders [cs]. *)
Definition nearestInv (cs : list Collider) (ray : Ray) (length : float) (i : nat)
    (r : float * ParticleHitInfo) : Prop :=
  F32.valid (fst r) = true
  /\ (r = (F32.FLT_MAX, mkHitInfo Vec.ZERO Vec.ZERO i)
      \/ exists c q, In c cs /\ rayCast c ray length = Some q
                     /\ r = (qh_distance q, mkHitInfo (qh_point q) (qh_normal q) i)
                     /\ F32.ltb (qh_distance q) F32.FLT_MAX = true)
  /\ (forall c q, In c cs -> rayCast c ray length = Some q ->
                  F32.ltb (qh_distance q) (fst r) = false).

(** The buffer [q] after the hits of the segments [segs], the first of
    index [off], were applied to [p0]. *)
Definition worldInv (desc : PARTICLE_COLLISONS_DESC) (state : ParticleSystemState Matrix4)
    (hitColliders : list Collider) (segs : list LineSegment3) (off : nat)
    (p0 q : ParticleSetData) : Prop :=
  length (position q) = length (position p0)
  /\ length (velocity q) = length (velocity p0)
  /\ length (lifetime q) = length (lifetime p0)
  /\ initialLifetime q = initialLifetime p0
  /\ seed q = seed p0 /\ frame q = frame p0
  /\ (forall i, (i < off)%nat \/ (off + length segs <= i)%nat ->
        position q !! i = position p0 !! i /\ velocity q !! i = velocity p0 !! i
        /\ lifetime q !! i = lifetime p0 !! i)
  /\ (forall j seg p v l il,
        segs !! j = Some seg ->
        position p0 !! (off + j)%nat = Some p -> velocity p0 !! (off + j)%nat = Some v ->
        lifetime p0 !! (off + j)%nat = Some l ->
        initialLifetime p0 !! (off + j)%nat = Some il ->
        match segmentHit hitColliders (off + j) seg with
        | Some h =>
            let r := calcCollisionResponse p v (hitToLocal state h) desc in
            position q !! (off + j)%nat = Some (fst r)
            /\ velocity q !! (off + j)%nat = Some (snd r)
            /\ lifetime q !! (off + j)%nat
               = Some (F32.sub l (F32.mul (lifetimeLoss desc) il))
        | None =>
            position q !! (off + j)%nat = Some p /\ velocity q !! (off + j)%nat = Some v
            /\ lifetime q !! (off + j)%nat = Some l
        end).

End PropertyVocabulary.

(** The fields of a descriptor are in the range of [UINT32]. *)
Definition gridInRange (gridAnim : SpriteSheetGridAnimation) : Prop :=
  0 <= numRows gridAnim < UINT32_MOD /\ 0 <= numColumns gridAnim < UINT32_MOD
  /\ 0 <= count gridAnim < UINT32_MOD.

(** The place of a binary32 number on the number line: its value in units of
    [2^-149], the infinities beyond every finite value. *)
Definition key (x : float) : Z :=
  match x with
  | S754_zero _ => 0
  | S754_finite s m e => cond_Zopp s (scaled m e)
  | S754_infinity s => cond_Zopp s (2 ^ 300)
  | S754_nan => 0
  end.

(** Every component is a zero, of either sign. *)
Definition zeroVector (a : Vector3) : Prop :=
  F32.is_zero (vx a) = true /\ F32.is_zero (vy a) = true /\ F32.is_zero (vz a) = true.

(** ** Concrete inputs *)

(** A random source that always draws the lower end of the range, unit
    transforms, and a physics world whose colliders answer every ray with a
    fixed hit. *)
Definition fixedRandom_new (seed : Z) : unit := tt.
Definition fixedRandom_getRange (r : unit) (min max : Z) : Z := min.
Definition unitTransform (m : unit) (v : Vector3) : Vector3 := v.
Definition unitTransformPlane (m : unit) (p : Plane) : Plane := p.
Definition mergePoints (box : list Vector3) (p : Vector3) : list Vector3 := p :: box.
Definition cannedRayCast (c : PhysicsQueryHit) (ray : Ray) (maxDistance : float)
    : option PhysicsQueryHit := Some c.
Definition emptyWorld (box : list Vector3) (q : unit) (layer : Z) : list PhysicsQueryHit := [].
Definition groundHit : PhysicsQueryHit := mkQueryHit F32.one (v3 0 0 0) (v3 0 1 0).
Definition groundWorld (box : list Vector3) (q : unit) (layer : Z) : list PhysicsQueryHit :=
  [groundHit].

Definition worldState : ParticleSystemState unit := mkState F32.one true tt tt.
Definition localState : ParticleSystemState unit := mkState F32.one false tt tt.

Definition sheetGrid : SpriteSheetGridAnimation := mkGridAnim 2 4 8.
Definition sheetAnimation (rows : bool) : ParticleTextureAnimation :=
  mkTextureAnimation (mkTextureAnimationDesc rows 1)
    (Some (mkParticleSystem
             (handle_loaded (mkMaterial (handle_loaded (mkSpriteTexture sheetGrid)))))).
Definition bareAnimation : ParticleTextureAnimation :=
  mkTextureAnimation (mkTextureAnimationDesc false 1) None.

Definition half : float := F32.div F32.one F32.two.

(** Two particles: one at half of its lifetime, one whose lifetime and
    initial lifetime are both zero. *)
Definition twoParticles : ParticleSet :=
  mkParticleSet 2
    (mkParticles [v3 0 (-1) 0; v3 5 5 5] [v3 0 (-2) 0; v3 0 0 0]
       [half; F32.zero] [F32.one; F32.zero] [7; 9] [F32.one; F32.one]).

Definition groundPlane : Plane := mkPlane (v3 0 1 0) F32.zero.
Definition farPlane : Plane := mkPlane (v3 0 1 0) (F32.of_Z (-100)).

Definition planeCollisions (planes : list Plane) : ParticleCollisions :=
  mkCollisions (mkCollisionsDesc Plane_mode F32.one F32.zero half F32.zero 0) planes.
Definition worldCollisions : ParticleCollisions :=
  mkCollisions (mkCollisionsDesc World_mode F32.one F32.zero half F32.zero 0) [].

Definition twoSegments : buffer LineSegment3 :=
  [Some (mkLineSegment3 (v3 0 1 0) (v3 0 (-1) 0)); Some (mkLineSegment3 (v3 5 5 5) (v3 5 5 5))].

(** One particle that has not aged yet. *)
Definition freshParticles : ParticleSet :=
  mkParticleSet 1
    (mkParticles [v3 0 0 0] [v3 0 0 0] [F32.one] [F32.one] [7] [F32.zero]).

(** The segments of [twoSegments]. *)
Definition twoSegmentList : list LineSegment3 :=
  [mkLineSegment3 (v3 0 1 0) (v3 0 (-1) 0); mkLineSegment3 (v3 5 5 5) (v3 5 5 5)].

(** A generator that always draws the upper end of the range, a sheet of
    5592410 rows of 3 columns, and a particle at seven eighths of its
    life. *)
Definition lastRandom_getRange (r : unit) (min max : Z) : Z := max - 1.

Definition wideGrid : SpriteSheetGridAnimation := mkGridAnim 5592410 3 16777230.
Definition wideAnimation : ParticleTextureAnimation :=
  mkTextureAnimation (mkTextureAnimationDesc true 1)
    (Some (mkParticleSystem
             (handle_loaded (mkMaterial (handle_loaded (mkSpriteTexture wideGrid)))))).

Definition eighth : float := F32.div F32.one (F32.of_Z 8).

Definition agedParticle : ParticleSet :=
  mkParticleSet 1
    (mkParticles [v3 0 0 0] [v3 0 0 0] [eighth] [F32.one] [7] [F32.zero]).

(** * Properties *)

(** ** Loops and arrays *)

Lemma for_loop_inv {S : Type} (P : nat -> S -> Prop) (body : nat -> S -> option S) (n : nat) :
  forall (i : nat) (s : S),
    P i s ->
    (forall k t, (i <= k < i + n)%nat -> P k t ->
                 exists t', body k t = Some t' /\ P (Datatypes.S k) t') ->
    exists s', for_loop n i body s = Some s' /\ P (i + n)%nat s'.
Proof.
  induction n as [|n IH]; intros i s HP Hbody; simpl.
  - exists s. split; [reflexivity|]. by replace (i + 0)%nat with i by lia.
  - destruct (Hbody i s) as (t & Ht & HPt); [lia|assumption|].
    rewrite Ht. simpl.
    destruct (IH (Datatypes.S i) t HPt) as (s' & Hs' & HPs').
    + intros k u Hk. apply Hbody. lia.
    + exists s'. split; [assumption|].
      by replace (i + Datatypes.S n)%nat with (Datatypes.S i + n)%nat by lia.
Qed.

Lemma store_Some {A : Type} (l : list A) (i : nat) (v : A) :
  (i < length l)%nat -> store l i v = Some (<[i := v]> l).
Proof. intros H. unfold store. by rewrite decide_True. Qed.

Lemma store_inv {A : Type} (l l' : list A) (i : nat) (v : A) :
  store l i v = Some l' -> (i < length l)%nat /\ l' = <[i := v]> l.
Proof. unfold store. case_decide; intros ?; by simplify_eq. Qed.

Lemma store_None {A : Type} (l : list A) (i : nat) (v : A) :
  (length l <= i)%nat -> store l i v = None.
Proof. intros H. unfold store. case_decide; [lia|done]. Qed.

(** ** binary32 rounding *)

Lemma digits2_size (p : positive) : digits2_pos p = Pos.size p.
Proof. induction p; simpl; congruence. Qed.

Lemma digits2_bounds (p : positive) :
  2 ^ (Zpos (digits2_pos p) - 1) <= Zpos p < 2 ^ Zpos (digits2_pos p).
Proof.
  rewrite digits2_size. split.
  - pose proof (Pos.size_le p) as H.
    assert (H' : 2 ^ Zpos (Pos.size p) <= 2 * Zpos p).
    { change (2 * Zpos p) with (Zpos p~0). rewrite <- Pos2Z.inj_pow. exact H. }
    replace (Zpos (Pos.size p)) with (Zpos (Pos.size p) - 1 + 1) in H' by lia.
    rewrite Z.pow_add_r in H' by lia. lia.
  - pose proof (Pos.size_gt p) as H.
    rewrite <- Pos2Z.inj_pow. exact H.
Qed.

Lemma iter_xO (d : positive) (m : positive) :
  Zpos (Pos.iter xO m d) = Zpos m * 2 ^ Zpos d.
Proof.
  revert m. induction d using Pos.peano_ind; intros m.
  - simpl. lia.
  - rewrite Pos.iter_succ. rewrite Pos2Z.inj_succ, Z.pow_succ_r by lia.
    rewrite Pos2Z.inj_xO, IHd. lia.
Qed.

Lemma iter_pos_iter {A : Type} (f : A -> A) (p : positive) :
  forall x, SpecFloat.iter_pos f p x = Pos.iter f x p.
Proof.
  induction p as [p IH|p IH|]; intros x; simpl.
  - rewrite !IH. rewrite <- !Pos.iter_swap. reflexivity.
  - rewrite !IH. reflexivity.
  - reflexivity.
Qed.

Lemma shr_inv_init (M : Z) : 0 <= M -> shr_inv M 0 (Build_shr_record M false false) 0.
Proof.
  intros HM. unfold shr_inv. cbn [shr_m shr_r shr_s]. change (2 ^ 0) with 1.
  repeat split; try lia; try (intros H; discriminate).
Qed.

Ltac shr_fin :=
  first [ lia | reflexivity
        | let HH := fresh in intros HH; first [discriminate HH | reflexivity | lia | split; lia] ].

Lemma shr_inv_step (M k : Z) (mrs : shr_record) (rem : Z) :
  0 <= k -> shr_inv M k mrs rem ->
  exists rem', shr_inv M (k + 1) (shr_1 mrs) rem'.
Proof.
  intros Hk (Hrem & HM & Hm & Hr & Hs).
  assert (Hpow : 2 ^ (k + 1) = 2 * 2 ^ k) by (rewrite Z.pow_add_r by lia; lia).
  assert (Hpos : 0 < 2 ^ k) by (apply Z.pow_pos_nonneg; lia).
  unfold shr_inv. rewrite Hpow. clear Hpow Hk.
  set (X := 2 ^ k) in *. clearbody X.
  destruct mrs as [m r s]. cbn [shr_m shr_r shr_s] in *.
  assert (Hrs : (orb r s = true /\ rem <> 0) \/ (orb r s = false /\ rem = 0)).
  { destruct (Z.eq_dec rem 0) as [H0|H0].
    - right. split; [|assumption]. destruct r, s; simpl; try reflexivity; exfalso.
      + assert (X <= 2 * rem) by (apply Hr; reflexivity). lia.
      + assert (X <= 2 * rem) by (apply Hr; reflexivity). lia.
      + assert (rem <> 0 /\ 2 * rem <> X) by (apply Hs; reflexivity). lia.
    - left. split; [|assumption]. destruct r, s; simpl; try reflexivity; exfalso.
      destruct (Z_lt_le_dec (2 * rem) X) as [Hlt|Hge].
      + assert (false = true) by (apply Hs; lia). discriminate.
      + assert (false = true) by (apply Hr; lia). discriminate. }
  clear Hr Hs.
  destruct m as [|[p|p|]|p]; try lia; cbn [shr_1 shr_m shr_r shr_s].
  - exists rem. subst M.
    destruct Hrs as [[-> Hne]|[-> He]].
    + repeat split; shr_fin.
    + repeat split; shr_fin.
  - exists (rem + X). subst M. rewrite (Pos2Z.inj_xI p).
    generalize (Zpos p) (Pos2Z.is_pos p). intros q Hq.
    destruct Hrs as [[-> Hne]|[-> He]].
    + repeat split; shr_fin.
    + repeat split; shr_fin.
  - exists rem. subst M. rewrite (Pos2Z.inj_xO p).
    generalize (Zpos p) (Pos2Z.is_pos p). intros q Hq.
    destruct Hrs as [[-> Hne]|[-> He]].
    + repeat split; shr_fin.
    + repeat split; shr_fin.
  - exists (rem + X). subst M.
    destruct Hrs as [[-> Hne]|[-> He]].
    + repeat split; shr_fin.
    + repeat split; shr_fin.
Qed.

Lemma shr_inv_iter (M : Z) (n : positive) :
  0 <= M ->
  exists rem, shr_inv M (Zpos n) (SpecFloat.iter_pos shr_1 n (Build_shr_record M false false)) rem.
Proof.
  intros HM. rewrite iter_pos_iter.
  induction n using Pos.peano_ind.
  - simpl Pos.iter.
    destruct (shr_inv_step M 0 _ 0 (Z.le_refl 0) (shr_inv_init M HM)) as (rem & H).
    exists rem. exact H.
  - destruct IHn as (rem & Hrem).
    rewrite Pos.iter_succ, Pos2Z.inj_succ.
    destruct (shr_inv_step M (Zpos n) _ rem ltac:(lia) Hrem) as (rem' & H).
    exists rem'. unfold Z.succ. exact H.
Qed.

Lemma round_nearest_even_bounds (M k : Z) (mrs : shr_record) (rem : Z) :
  shr_inv M k mrs rem ->
  let m2 := round_nearest_even (shr_m mrs) (loc_of_shr_record mrs) in
  shr_m mrs <= m2 <= shr_m mrs + 1 /\ (rem = 0 -> m2 = shr_m mrs).
Proof.
  intros (Hrem & HM & Hm & Hr & Hs). destruct mrs as [m r s].
  cbn [shr_m shr_r shr_s] in *.
  destruct r, s; cbn [loc_of_shr_record round_nearest_even].
  - split; [lia|]. intros H. assert (true = true) as H' by reflexivity. apply Hs in H'. lia.
  - split; [destruct (Z.even m); lia|]. intros H.
    assert (true = true) as H' by reflexivity. apply Hr in H'.
    assert (0 < 2 ^ k) by (apply Z.pow_pos_nonneg; lia). lia.
  - split; [lia|]. intros H. assert (true = true) as H' by reflexivity. apply Hs in H'. lia.
  - split; [lia|]. reflexivity.
Qed.

(** ** Canonical binary32 numbers and their scaled value *)

Lemma fexp_eq (x : Z) : fexp F32.prec F32.emax x = Z.max (x - 24) (-149).
Proof. reflexivity. Qed.

Lemma canonical_mantissa_iff (m : positive) (e : Z) :
  canonical_mantissa F32.prec F32.emax m e = true <-> canonical m e.
Proof.
  unfold canonical_mantissa, canonical. rewrite fexp_eq. apply Z.eqb_eq.
Qed.

Lemma pow2_pos (k : Z) : 0 <= k -> 0 < 2 ^ k.
Proof. intros H. apply Z.pow_pos_nonneg; lia. Qed.

Lemma pow2_le (a b : Z) : 0 <= a <= b -> 2 ^ a <= 2 ^ b.
Proof. intros H. apply Z.pow_le_mono_r; lia. Qed.

Lemma pow2_lt (a b : Z) : 0 <= a < b -> 2 ^ a < 2 ^ b.
Proof. intros H. apply Z.pow_lt_mono_r; lia. Qed.

Lemma pow2_add (a b : Z) : 0 <= a -> 0 <= b -> 2 ^ (a + b) = 2 ^ a * 2 ^ b.
Proof. intros Ha Hb. apply Z.pow_add_r; lia. Qed.

Lemma digits2_unique (p : positive) (k : Z) :
  2 ^ (k - 1) <= Zpos p < 2 ^ k -> 1 <= k -> Zpos (digits2_pos p) = k.
Proof.
  intros [Hlo Hhi] Hk. pose proof (digits2_bounds p) as [Dlo Dhi].
  set (d := Zpos (digits2_pos p)) in *. assert (1 <= d) by (unfold d; lia).
  destruct (Z.lt_trichotomy d k) as [Hlt|[Heq|Hgt]]; [|assumption|].
  - assert (2 ^ d <= 2 ^ (k - 1)) by (apply pow2_le; lia). lia.
  - assert (2 ^ k <= 2 ^ (d - 1)) by (apply pow2_le; lia). lia.
Qed.

Lemma digits2_iter_xO (d m : positive) :
  Zpos (digits2_pos (Pos.iter xO m d)) = Zpos (digits2_pos m) + Zpos d.
Proof.
  induction d using Pos.peano_ind.
  - simpl. lia.
  - rewrite Pos.iter_succ. simpl digits2_pos. rewrite Pos2Z.inj_succ, IHd. lia.
Qed.

(** Two canonical positive numbers compare as their values do. *)
Lemma canonical_lt_exp (m1 m2 : positive) (e1 e2 : Z) :
  canonical m1 e1 -> canonical m2 e2 -> e1 < e2 -> scaled m1 e1 < scaled m2 e2.
Proof.
  unfold canonical, scaled. intros H1 H2 Hlt.
  pose proof (digits2_bounds m1) as [_ Hhi]. pose proof (digits2_bounds m2) as [Hlo _].
  set (d1 := Zpos (digits2_pos m1)) in *. set (d2 := Zpos (digits2_pos m2)) in *.
  assert (Hd1 : 1 <= d1 <= 24) by (unfold d1; lia).
  assert (Hd2 : d2 = 24) by lia.
  assert (He1 : -149 <= e1) by lia.
  rewrite Hd2 in Hlo. change (24 - 1) with 23 in Hlo.
  assert (Zpos m1 < 2 ^ 24).
  { assert (2 ^ d1 <= 2 ^ 24) by (apply pow2_le; lia). lia. }
  assert (H24 : 2 ^ 24 = 2 * 2 ^ 23) by reflexivity.
  assert (Hp : 2 ^ (e2 + 149) = 2 ^ (e1 + 149) * 2 ^ (e2 - e1)).
  { rewrite <- pow2_add by lia. f_equal. lia. }
  assert (Hq : 2 <= 2 ^ (e2 - e1)).
  { change 2 with (2 ^ 1) at 1. apply pow2_le. lia. }
  pose proof (pow2_pos (e1 + 149) ltac:(lia)) as Hpos.
  rewrite Hp. nia.
Qed.

Lemma SFcompare_canonical (m1 m2 : positive) (e1 e2 : Z) :
  canonical m1 e1 -> canonical m2 e2 ->
  SFcompare (S754_finite false m1 e1) (S754_finite false m2 e2)
  = Some (scaled m1 e1 ?= scaled m2 e2).
Proof.
  intros H1 H2. simpl. f_equal.
  destruct (Z.compare_spec e1 e2) as [Heq|Hlt|Hgt].
  - subst e2. unfold scaled.
    assert (He1 : -149 <= e1) by (unfold canonical in H1; lia).
    pose proof (pow2_pos (e1 + 149) ltac:(lia)) as Hpos.
    change (Pos.compare_cont Eq m1 m2) with (Zpos m1 ?= Zpos m2).
    rewrite !(Z.mul_comm _ (2 ^ (e1 + 149))).
    apply Zmult_compare_compat_l. lia.
  - symmetry. apply Z.compare_lt_iff. apply canonical_lt_exp; assumption.
  - symmetry. apply Z.compare_gt_iff. apply canonical_lt_exp; assumption.
Qed.

(** ** Rounding a positive number *)

Lemma binary_round_aux_canonical (m : positive) (e : Z) :
  canonical m e ->
  binary_round_aux F32.prec F32.emax false (Zpos m) e loc_Exact
  = if e <=? 104 then S754_finite false m e else S754_infinity false.
Proof.
  intros Hc. unfold binary_round_aux, shr_fexp.
  cbn [Zdigits2 shr_record_of_loc]. rewrite fexp_eq. unfold canonical in Hc.
  rewrite Hc, Z.sub_diag. cbn [shr loc_of_shr_record round_nearest_even shr_m].
  cbn [Zdigits2 shr_record_of_loc]. rewrite fexp_eq, Hc, Z.sub_diag.
  cbn [shr shr_m]. reflexivity.
Qed.

Lemma shl_align_value (m : positive) (e e' : Z) :
  e' <= e ->
  snd (shl_align m e e') = e'
  /\ Zpos (fst (shl_align m e e')) = Zpos m * 2 ^ (e - e')
  /\ Zpos (digits2_pos (fst (shl_align m e e'))) = Zpos (digits2_pos m) + (e - e').
Proof.
  intros Hle. unfold shl_align.
  destruct (e' - e) as [|p|p] eqn:Hd; try lia.
  - assert (e' = e) by lia. subst e'. rewrite Z.sub_diag. simpl. lia.
  - cbn [fst snd]. assert (He : e - e' = Zpos p) by lia. rewrite He.
    split; [reflexivity|]. split; [apply iter_xO|apply digits2_iter_xO].
Qed.

(** A number of at most 24 bits is not rounded. *)
Lemma binary_round_small (M : positive) (E : Z) :
  Zpos (digits2_pos M) <= 24 -> -149 <= E ->
  exists m e,
    binary_round F32.prec F32.emax false M E
    = (if e <=? 104 then S754_finite false m e else S754_infinity false)
    /\ canonical m e /\ scaled m e = scaled M E /\ e <= E.
Proof.
  intros Hd HE. unfold binary_round. rewrite fexp_eq.
  set (t := Z.max (Zpos (digits2_pos M) + E - 24) (-149)).
  assert (Ht : t <= E) by (unfold t; lia).
  destruct (shl_align_value M E t Ht) as (Hs & Hm & Hdig).
  destruct (shl_align M E t) as [mz ez]. cbn [fst snd] in *. subst ez.
  assert (Hc : canonical mz t).
  { unfold canonical. rewrite Hdig. unfold t. lia. }
  exists mz, t. split; [apply binary_round_aux_canonical; exact Hc|]. split; [exact Hc|].
  split; [|exact Ht].
  unfold scaled. rewrite Hm. rewrite <- Z.mul_assoc. f_equal.
  rewrite <- pow2_add by (unfold t; lia). f_equal. lia.
Qed.

(** A longer number is brought down to 24 bits and rounded to nearest. *)
Lemma binary_round_big (M : positive) (E : Z) :
  24 < Zpos (digits2_pos M) -> -149 <= E ->
  let t := E + (Zpos (digits2_pos M) - 24) in
  exists (m : positive) (e m1 : Z),
    binary_round F32.prec F32.emax false M E
    = (if e <=? 104 then S754_finite false m e else S754_infinity false)
    /\ canonical m e
    /\ 2 ^ 23 <= m1
    /\ m1 * 2 ^ (t + 149) <= scaled M E < (m1 + 1) * 2 ^ (t + 149)
    /\ m1 * 2 ^ (t + 149) <= scaled m e <= (m1 + 1) * 2 ^ (t + 149)
    /\ (scaled M E = m1 * 2 ^ (t + 149) -> scaled m e = scaled M E).
Proof.
  intros Hd HE t.
  pose proof (digits2_bounds M) as [Dlo Dhi].
  set (d := Zpos (digits2_pos M)) in *.
  destruct (d - 24) as [|np|np] eqn:Hn; try lia.
  assert (Hnp : Zpos np = d - 24) by lia.
  assert (Ht : t = E + Zpos np) by (unfold t; lia).
  (* the first shift *)
  destruct (shr_inv_iter (Zpos M) np ltac:(lia)) as (rem & Hrem & HM & Hm1 & Hr & Hs).
  pose proof (round_nearest_even_bounds (Zpos M) (Zpos np) _ rem
                (conj Hrem (conj HM (conj Hm1 (conj Hr Hs))))) as [Hm2 Hexact].
  set (mrs := SpecFloat.iter_pos shr_1 np {| shr_m := Zpos M; shr_r := false; shr_s := false |}) in *.
  set (m1 := shr_m mrs) in *.
  set (m2 := round_nearest_even m1 (loc_of_shr_record mrs)) in *.
  assert (Hrun : binary_round F32.prec F32.emax false M E
                 = let '(mrs'', e'') :=
                     shr_fexp F32.prec F32.emax m2 t loc_Exact in
                   match shr_m mrs'' with
                   | Z0 => S754_zero false
                   | Zpos m => if e'' <=? F32.emax - F32.prec
                               then S754_finite false m e'' else S754_infinity false
                   | Zneg _ => S754_nan
                   end).
  { unfold binary_round. rewrite fexp_eq. fold d.
    replace (Z.max (d + E - 24) (-149)) with t by lia.
    unfold shl_align. replace (t - E) with (Zpos np) by lia.
    unfold binary_round_aux. unfold shr_fexp at 1.
    cbn [Zdigits2 shr_record_of_loc]. rewrite fexp_eq. fold d.
    replace (Z.max (d + E - 24) (-149) - E) with (Zpos np) by lia.
    cbn [shr]. fold mrs. rewrite <- Ht. reflexivity. }
  (* the size of the shifted number *)
  assert (Hpn : 2 ^ (d - 1) = 2 ^ 23 * 2 ^ Zpos np).
  { rewrite <- pow2_add by lia. f_equal. lia. }
  assert (Hpd : 2 ^ d = 2 ^ 24 * 2 ^ Zpos np).
  { rewrite <- pow2_add by lia. f_equal. lia. }
  pose proof (pow2_pos (Zpos np) ltac:(lia)) as Hpos.
  assert (Hm1b : 2 ^ 23 <= m1 < 2 ^ 24) by (split; nia).
  assert (HU : 2 ^ (t + 149) = 2 ^ Zpos np * 2 ^ (E + 149)).
  { rewrite <- pow2_add by lia. f_equal. lia. }
  pose proof (pow2_pos (E + 149) ltac:(lia)) as HposE.
  assert (HV : m1 * 2 ^ (t + 149) <= scaled M E < (m1 + 1) * 2 ^ (t + 149)).
  { unfold scaled. rewrite HU, HM. split; nia. }
  assert (Hm2pos : 0 < m2) by lia.
  destruct m2 as [|pm2|pm2] eqn:Em2; try lia.
  rewrite Hrun. unfold shr_fexp. cbn [Zdigits2 shr_record_of_loc]. rewrite fexp_eq.
  destruct (Z_lt_le_dec (Zpos pm2) (2 ^ 24)) as [Hlt|Hge].
  - (* no carry *)
    assert (Hdig : Zpos (digits2_pos pm2) = 24).
    { apply digits2_unique; [|lia]. change (24 - 1) with 23. lia. }
    rewrite Hdig. replace (Z.max (24 + t - 24) (-149) - t) with 0 by lia.
    cbn [shr shr_m]. exists pm2, t, m1.
    split; [reflexivity|]. split; [unfold canonical; rewrite Hdig; lia|].
    split; [lia|]. split; [exact HV|].
    pose proof (pow2_pos (t + 149) ltac:(lia)) as HposU.
    split; [unfold scaled; split; nia|].
    intros Hex. unfold scaled at 1. rewrite Hex.
    assert (rem = 0).
    { unfold scaled in Hex. rewrite HU, HM in Hex. nia. }
    rewrite (Hexact ltac:(assumption)). reflexivity.
  - (* the rounding carried into a 25th bit *)
    assert (Hpm2 : Zpos pm2 = 2 ^ 24) by lia.
    assert (Epm2 : pm2 = 16777216%positive).
    { apply Pos2Z.inj. rewrite Hpm2. reflexivity. }
    subst pm2. change (Zpos (digits2_pos 16777216)) with 25.
    replace (Z.max (25 + t - 24) (-149) - t) with 1 by lia.
    cbn [shr SpecFloat.iter_pos shr_1 shr_m]. exists 8388608%positive, (t + 1), m1.
    split; [reflexivity|]. split; [unfold canonical; change (Zpos (digits2_pos 8388608)) with 24; lia|].
    split; [lia|]. split; [exact HV|].
    assert (Hsc : scaled 8388608 (t + 1) = 2 ^ 24 * 2 ^ (t + 149)).
    { unfold scaled. replace (t + 1 + 149) with (1 + (t + 149)) by lia.
      rewrite pow2_add by lia. change (2 ^ 1) with 2. change (2 ^ 24) with 16777216. lia. }
    pose proof (pow2_pos (t + 149) ltac:(lia)) as HposU.
    split; [rewrite Hsc; split; nia|].
    intros Hex. exfalso.
    assert (rem = 0).
    { unfold scaled in Hex. rewrite HU, HM in Hex. nia. }
    rewrite (Hexact ltac:(assumption)) in Hpm2. lia.
Qed.

Lemma canonical_mantissa_lt (m : positive) (e : Z) :
  canonical m e -> Zpos m < 2 ^ 24 /\ -149 <= e.
Proof.
  unfold canonical. intros Hc. pose proof (digits2_bounds m) as [_ Hhi].
  assert (2 ^ Zpos (digits2_pos m) <= 2 ^ 24) by (apply pow2_le; lia). lia.
Qed.

(** A canonical number against the grid of step [2^t]: it is on the grid
    when its exponent is at least [t], and below [2^23] steps otherwise. *)
Lemma canonical_on_grid (m : positive) (e t : Z) :
  canonical m e -> -149 <= t ->
  (exists K, scaled m e = K * 2 ^ (t + 149)) \/ scaled m e < 2 ^ 23 * 2 ^ (t + 149).
Proof.
  intros Hc Ht. destruct (canonical_mantissa_lt m e Hc) as [Hm He].
  destruct (Z_le_gt_dec t e) as [Hle|Hgt].
  - left. exists (Zpos m * 2 ^ (e - t)). unfold scaled.
    rewrite <- Z.mul_assoc, <- pow2_add by lia. do 2 f_equal. lia.
  - right. unfold scaled.
    assert (H1 : 2 ^ (e + 149) <= 2 ^ (t - 1 + 149)) by (apply pow2_le; lia).
    assert (H2 : 2 ^ (t + 149) = 2 * 2 ^ (t - 1 + 149)).
    { replace (t + 149) with (1 + (t - 1 + 149)) by lia.
      rewrite pow2_add by lia. reflexivity. }
    pose proof (pow2_pos (e + 149) ltac:(lia)).
    change (2 ^ 24) with 16777216 in Hm. change (2 ^ 23) with 8388608. nia.
Qed.

(** Rounding never crosses a canonical number. *)
Lemma binary_round_bounds (M : positive) (E : Z) :
  -149 <= E ->
  exists m e,
    binary_round F32.prec F32.emax false M E
    = (if e <=? 104 then S754_finite false m e else S754_infinity false)
    /\ canonical m e
    /\ (forall ma ea, canonical ma ea -> scaled ma ea <= scaled M E -> scaled ma ea <= scaled m e)
    /\ (forall mb eb, canonical mb eb -> scaled M E <= scaled mb eb -> scaled m e <= scaled mb eb).
Proof.
  intros HE. destruct (Z_le_gt_dec (Zpos (digits2_pos M)) 24) as [Hd|Hd].
  - destruct (binary_round_small M E Hd HE) as (m & e & Hr & Hc & Hv & _).
    exists m, e. rewrite Hv. repeat split; auto.
  - destruct (binary_round_big M E ltac:(lia) HE) as (m & e & m1 & Hr & Hc & Hm1 & HV & HR & Hex).
    set (t := E + (Zpos (digits2_pos M) - 24)) in *.
    assert (Ht : -149 <= t) by (unfold t; lia).
    pose proof (pow2_pos (t + 149) ltac:(lia)) as HposU.
    exists m, e. split; [exact Hr|]. split; [exact Hc|]. split.
    + intros ma ea Ha HA.
      destruct (canonical_on_grid ma ea t Ha Ht) as [[K HK]|Hsmall].
      * rewrite HK in *. assert (K <= m1) by nia. nia.
      * nia.
    + intros mb eb Hb HB.
      destruct (canonical_on_grid mb eb t Hb Ht) as [[K HK]|Hsmall].
      * rewrite HK in *.
        destruct (Z.eq_dec (scaled M E) (m1 * 2 ^ (t + 149))) as [Heq|Hne].
        -- rewrite (Hex Heq). exact HB.
        -- assert (m1 + 1 <= K) by nia. nia.
      * nia.
Qed.

(** ** Non-negative binary32 numbers *)

Lemma sc_pos (m : positive) (e : Z) : canonical m e -> 0 < scaled m e.
Proof.
  intros Hc. destruct (canonical_mantissa_lt m e Hc) as [_ He].
  unfold scaled. pose proof (pow2_pos (e + 149) ltac:(lia)). nia.
Qed.

Lemma nonneg_ge0 (x : float) (v : Z) : nonneg x v -> 0 <= v.
Proof. intros [s|m e Hc He]; [lia|]. pose proof (sc_pos m e Hc). lia. Qed.

Lemma valid_nonneg (m : positive) (e : Z) :
  F32.valid (S754_finite false m e) = true -> nonneg (S754_finite false m e) (scaled m e).
Proof.
  unfold F32.valid, valid_binary, bounded. intros H.
  apply andb_prop in H as [Hc He]. apply canonical_mantissa_iff in Hc.
  apply Z.leb_le in He. constructor; [exact Hc|exact He].
Qed.

Lemma ltb_nonneg (x y : float) (vx vy : Z) :
  nonneg x vx -> nonneg y vy -> F32.ltb x y = true <-> vx < vy.
Proof.
  intros [sx|mx ex Hx Hex] [sy|my ey Hy Hey]; unfold F32.ltb, SFltb.
  - simpl. split; [discriminate|lia].
  - pose proof (sc_pos my ey Hy). simpl. split; [lia|reflexivity].
  - pose proof (sc_pos mx ex Hx). simpl. split; [discriminate|lia].
  - rewrite (SFcompare_canonical mx my ex ey Hx Hy).
    destruct (Z.compare_spec (scaled mx ex) (scaled my ey)); split; intros; try discriminate;
      try reflexivity; lia.
Qed.

Lemma leb_nonneg (x y : float) (vx vy : Z) :
  nonneg x vx -> nonneg y vy -> F32.leb x y = true <-> vx <= vy.
Proof.
  intros [sx|mx ex Hx Hex] [sy|my ey Hy Hey]; unfold F32.leb, SFleb.
  - simpl. split; [lia|reflexivity].
  - pose proof (sc_pos my ey Hy). simpl. split; [lia|reflexivity].
  - pose proof (sc_pos mx ex Hx). simpl. split; [discriminate|lia].
  - rewrite (SFcompare_canonical mx my ex ey Hx Hy).
    destruct (Z.compare_spec (scaled mx ex) (scaled my ey)); split; intros; try discriminate;
      try reflexivity; lia.
Qed.

Lemma leb_nonneg_infinity (x : float) (v : Z) :
  nonneg x v -> F32.leb x (S754_infinity false) = true.
Proof. intros [s|m e Hc He]; reflexivity. Qed.

(** The conversion of an integer below [2^24] is exact. *)
Lemma of_Z_nonneg (k : Z) : 0 <= k < 2 ^ 24 -> nonneg (F32.of_Z k) (k * 2 ^ 149).
Proof.
  intros Hk. unfold F32.of_Z, binary_normalize. destruct k as [|p|p]; try lia.
  - apply nonneg_zero.
  - assert (Hd : Zpos (digits2_pos p) <= 24).
    { pose proof (digits2_bounds p) as [Hlo _].
      destruct (Z_le_gt_dec (Zpos (digits2_pos p)) 24) as [H|H]; [exact H|].
      assert (2 ^ 24 <= 2 ^ (Zpos (digits2_pos p) - 1)) by (apply pow2_le; lia). lia. }
    destruct (binary_round_small p 0 Hd ltac:(lia)) as (m & e & Hr & Hc & Hv & He).
    rewrite Hr. replace (e <=? 104) with true by (symmetry; apply Z.leb_le; lia).
    replace (Zpos p * 2 ^ 149) with (scaled m e) by (rewrite Hv; reflexivity).
    constructor; [exact Hc|lia].
Qed.

(** The sum of two non-negative numbers stays between the canonical numbers
    that enclose the exact sum. *)
Lemma add_nonneg_bounds (x c : float) (vx vc : Z) :
  nonneg x vx -> nonneg c vc ->
  (forall a va, nonneg a va -> va <= vx + vc -> F32.leb a (F32.add x c) = true)
  /\ (forall b vb, nonneg b vb -> vx + vc <= vb -> F32.leb (F32.add x c) b = true).
Proof.
  intros Hx Hc.
  assert (Hsame : forall r vr, nonneg r vr -> vr = vx + vc ->
            (forall a va, nonneg a va -> va <= vx + vc -> F32.leb a r = true)
            /\ (forall b vb, nonneg b vb -> vx + vc <= vb -> F32.leb r b = true)).
  { intros r vr Hr Hv. subst vr. split.
    - intros a va Ha Hle. apply (leb_nonneg a r va (vx + vc)); assumption.
    - intros b vb Hb Hle. apply (leb_nonneg r b (vx + vc) vb); assumption. }
  destruct Hx as [sx|mx ex Hcx Hex]; destruct Hc as [sc0|mc ec Hcc Hec].
  - apply (Hsame _ 0); [|lia]. unfold F32.add, SFadd. destruct sx, sc0; apply nonneg_zero.
  - apply (Hsame _ (scaled mc ec)); [|lia]. unfold F32.add, SFadd. constructor; assumption.
  - apply (Hsame _ (scaled mx ex)); [|lia]. unfold F32.add, SFadd. constructor; assumption.
  - unfold F32.add, SFadd. cbn [cond_Zopp].
    set (ez := Z.min ex ec).
    destruct (canonical_mantissa_lt mx ex Hcx) as [_ Hex'].
    destruct (canonical_mantissa_lt mc ec Hcc) as [_ Hec'].
    destruct (shl_align_value mx ex ez ltac:(unfold ez; lia)) as (_ & Hmx & _).
    destruct (shl_align_value mc ec ez ltac:(unfold ez; lia)) as (_ & Hmc & _).
    set (mx' := fst (shl_align mx ex ez)) in *.
    set (mc' := fst (shl_align mc ec ez)) in *.
    change (Zpos mx' + Zpos mc') with (Zpos (mx' + mc')).
    cbn [binary_normalize].
    assert (Hez : -149 <= ez) by (unfold ez; lia).
    assert (HV : scaled (mx' + mc') ez = scaled mx ex + scaled mc ec).
    { unfold scaled. rewrite Pos2Z.inj_add, Hmx, Hmc.
      rewrite Z.mul_add_distr_r, <- !Z.mul_assoc, <- !pow2_add by (unfold ez; lia).
      f_equal; do 2 f_equal; lia. }
    destruct (binary_round_bounds (mx' + mc') ez Hez) as (m & e & Hr & Hcm & Hlo & Hhi).
    rewrite Hr, HV in *. split.
    + intros a va Ha Hle. destruct (e <=? 104) eqn:He.
      * apply Z.leb_le in He. apply (leb_nonneg a _ va (scaled m e) Ha); [constructor; assumption|].
        destruct Ha as [s|ma ea Hca Hea]; [pose proof (sc_pos m e Hcm); lia|].
        apply Hlo; assumption.
      * apply (leb_nonneg_infinity a va); assumption.
    + intros b vb Hb Hle.
      destruct Hb as [s|mb eb Hcb Heb].
      { pose proof (sc_pos mx ex Hcx). pose proof (sc_pos mc ec Hcc). lia. }
      pose proof (Hhi mb eb Hcb Hle) as HR.
      assert (He : e <= 104).
      { destruct (Z_le_gt_dec e eb) as [H|H]; [lia|].
        pose proof (canonical_lt_exp mb m eb e Hcb Hcm ltac:(lia)). lia. }
      replace (e <=? 104) with true by (symmetry; apply Z.leb_le; assumption).
      apply (leb_nonneg _ _ (scaled m e) (scaled mb eb)); [constructor; assumption|constructor; assumption|exact HR].
Qed.

(** A number clamped between zero and a non-negative bound. *)
Lemma clamp_nonneg (fv hi : float) (vhi : Z) :
  F32.valid fv = true -> F32.is_nan fv = false -> nonneg hi vhi ->
  exists vc, nonneg (Math.clamp fv F32.zero hi) vc /\ vc <= vhi.
Proof.
  intros Hvalid Hnan Hhi. pose proof (nonneg_ge0 hi vhi Hhi) as Hpos.
  unfold Math.clamp, F32.max, F32.min.
  destruct (F32.ltb hi fv) eqn:Hlt.
  - (* the bound *)
    assert (Hz : F32.ltb hi F32.zero = false).
    { destruct (F32.ltb hi F32.zero) eqn:H; [|reflexivity].
      apply (ltb_nonneg hi F32.zero vhi 0 Hhi (nonneg_zero false)) in H. lia. }
    rewrite Hz. exists vhi. split; [exact Hhi|lia].
  - destruct (F32.ltb fv F32.zero) eqn:Hneg.
    + exists 0. split; [apply nonneg_zero|lia].
    + destruct fv as [s|s| |s m e]; try discriminate.
      * exists 0. split; [apply nonneg_zero|lia].
      * exfalso. destruct s; [discriminate Hneg|].
        destruct Hhi; discriminate Hlt.
      * destruct s; [discriminate Hneg|].
        pose proof (valid_nonneg m e Hvalid) as Hfv.
        exists (scaled m e). split; [exact Hfv|].
        destruct (Z_le_gt_dec (scaled m e) vhi) as [H|H]; [exact H|].
        assert (F32.ltb hi (S754_finite false m e) = true)
          by (apply (ltb_nonneg _ _ vhi (scaled m e) Hhi Hfv); lia).
        congruence.
Qed.

(** ** The shape of a rounded result *)

Lemma Zdigits2_nonneg (x : Z) : 0 <= Zdigits2 x.
Proof. destruct x; simpl; lia. Qed.

Lemma Zdigits2_gt (x : Z) : 0 <= x -> x < 2 ^ Zdigits2 x.
Proof.
  destruct x as [|p|p]; intros H; [reflexivity| |lia]. apply (digits2_bounds p).
Qed.

Lemma Zdigits2_le (x j : Z) : 0 <= j -> 0 <= x < 2 ^ j -> Zdigits2 x <= j.
Proof.
  intros Hj [H0 Hx]. destruct x as [|p|p]; [simpl; lia| |lia].
  cbn [Zdigits2]. pose proof (digits2_bounds p) as [Hlo _].
  destruct (Z_le_gt_dec (Zpos (digits2_pos p)) j) as [H|H]; [exact H|].
  assert (2 ^ j <= 2 ^ (Zpos (digits2_pos p) - 1)) by (apply pow2_le; lia). lia.
Qed.

Lemma Zdigits2_shift (x n : Z) :
  0 <= x -> 0 <= n -> Zdigits2 (x / 2 ^ n) + n <= Z.max (Zdigits2 x) n.
Proof.
  intros Hx Hn. pose proof (Zdigits2_gt x Hx) as Hd.
  pose proof (Zdigits2_nonneg x) as Hd0.
  assert (Hp : 0 < 2 ^ n) by (apply pow2_pos; lia).
  destruct (Z_le_gt_dec n (Zdigits2 x)) as [Hle|Hgt].
  - assert (Zdigits2 (x / 2 ^ n) <= Zdigits2 x - n); [|lia].
    apply Zdigits2_le; [lia|]. split; [apply Z.div_pos; lia|].
    apply Z.div_lt_upper_bound; [lia|]. rewrite <- pow2_add by lia.
    replace (n + (Zdigits2 x - n)) with (Zdigits2 x) by lia. exact Hd.
  - assert (x / 2 ^ n = 0) as ->.
    { apply Z.div_small. split; [lia|].
      assert (2 ^ Zdigits2 x <= 2 ^ n) by (apply pow2_le; lia). lia. }
    cbn [Zdigits2]. lia.
Qed.

Lemma shr_1_m (mrs : shr_record) : 0 <= shr_m mrs -> shr_m (shr_1 mrs) = shr_m mrs / 2.
Proof.
  destruct mrs as [m r s]. cbn [shr_m]. intros Hm.
  destruct m as [|[p|p|]|p]; try lia; cbn [shr_1 shr_m].
  - reflexivity.
  - rewrite (Pos2Z.inj_xI p). apply (Z.div_unique_pos _ 2 _ 1); lia.
  - rewrite (Pos2Z.inj_xO p). apply (Z.div_unique_pos _ 2 _ 0); lia.
  - reflexivity.
Qed.

Lemma shr_iter_m (n : positive) (mrs : shr_record) :
  0 <= shr_m mrs ->
  shr_m (SpecFloat.iter_pos shr_1 n mrs) = shr_m mrs / 2 ^ Zpos n.
Proof.
  intros Hm. rewrite iter_pos_iter. induction n using Pos.peano_ind.
  - simpl Pos.iter. by rewrite shr_1_m.
  - rewrite Pos.iter_succ, shr_1_m.
    + rewrite IHn, Pos2Z.inj_succ, Z.pow_succ_r by lia.
      rewrite Z.div_div by (try apply pow2_pos; lia). f_equal. lia.
    + rewrite IHn. apply Z.div_pos; [lia|apply pow2_pos; lia].
Qed.

Lemma shr_record_of_loc_m (m : Z) (l : location) : shr_m (shr_record_of_loc m l) = m.
Proof. by destruct l as [|[| |]]. Qed.

Lemma round_nearest_even_range (m : Z) (l : location) :
  m <= round_nearest_even m l <= m + 1.
Proof. destruct l as [|[| |]]; simpl; try lia. destruct (Z.even m); lia. Qed.

(** The first step of a rounding: a shift right by [n] places. *)
Lemma shr_fexp_m (mz ez : Z) (l : location) :
  0 <= mz ->
  exists n, 0 <= n
    /\ ez + n = Z.max ez (fexp F32.prec F32.emax (Zdigits2 mz + ez))
    /\ snd (shr_fexp F32.prec F32.emax mz ez l) = ez + n
    /\ shr_m (fst (shr_fexp F32.prec F32.emax mz ez l)) = mz / 2 ^ n.
Proof.
  intros Hm. unfold shr_fexp, shr.
  destruct (fexp F32.prec F32.emax (Zdigits2 mz + ez) - ez) as [|p|p] eqn:Hk.
  - exists 0. cbn [fst snd]. rewrite shr_record_of_loc_m, Z.div_1_r.
    repeat split; lia.
  - exists (Zpos p). cbn [fst snd].
    rewrite shr_iter_m by (rewrite shr_record_of_loc_m; exact Hm).
    rewrite shr_record_of_loc_m. repeat split; lia.
  - exists 0. cbn [fst snd]. rewrite shr_record_of_loc_m, Z.div_1_r.
    repeat split; lia.
Qed.

(** A rounding of a non-negative mantissa is never NaN, and it is finite
    when the leading bit of the mantissa is at most at place 104. *)
Lemma round_aux_shape (s : bool) (mz ez : Z) (l : location) :
  0 <= mz ->
  F32.is_nan (binary_round_aux F32.prec F32.emax s mz ez l) = false
  /\ (Zdigits2 mz + ez <= 104 ->
      binary_round_aux F32.prec F32.emax s mz ez l = S754_zero s
      \/ exists m e,
           binary_round_aux F32.prec F32.emax s mz ez l = S754_finite s m e
           /\ Zpos (digits2_pos m) + e <= Z.max (Zdigits2 mz + ez) (-149) + 1).
Proof.
  intros Hm. unfold binary_round_aux.
  destruct (shr_fexp_m mz ez l Hm) as (n & Hn & He' & Hsnd & Hfst).
  destruct (shr_fexp F32.prec F32.emax mz ez l) as [mrs' e'].
  cbn [fst snd] in Hsnd, Hfst. subst e'.
  set (m1 := shr_m mrs') in *.
  pose proof (round_nearest_even_range m1 (loc_of_shr_record mrs')) as Hr.
  set (m2 := round_nearest_even m1 (loc_of_shr_record mrs')) in *.
  assert (Hp : 0 < 2 ^ n) by (apply pow2_pos; lia).
  assert (Hm1 : 0 <= m1) by (rewrite Hfst; apply Z.div_pos; lia).
  assert (Hm2 : 0 <= m2) by lia.
  destruct (shr_fexp_m m2 (ez + n) loc_Exact Hm2) as (k & Hk & He'' & Hsnd2 & Hfst2).
  destruct (shr_fexp F32.prec F32.emax m2 (ez + n) loc_Exact) as [mrs'' e''].
  cbn [fst snd] in Hsnd2, Hfst2. subst e''.
  assert (Hq : 0 < 2 ^ k) by (apply pow2_pos; lia).
  assert (Hm3 : 0 <= shr_m mrs'') by (rewrite Hfst2; apply Z.div_pos; lia).
  split.
  - destruct (shr_m mrs'') as [|m|m]; [reflexivity| |lia].
    by destruct (ez + n + k <=? F32.emax - F32.prec).
  - intros Hpos.
    pose proof (Zdigits2_nonneg mz) as Hdz.
    pose proof (Zdigits2_shift mz n Hm Hn) as Hs1. rewrite <- Hfst in Hs1.
    assert (Hd2 : Zdigits2 m2 <= Zdigits2 m1 + 1).
    { pose proof (Zdigits2_nonneg m1). pose proof (Zdigits2_gt m1 Hm1) as Hg.
      apply Zdigits2_le; [lia|]. split; [lia|].
      rewrite Z.pow_add_r by lia. change (2 ^ 1) with 2. lia. }
    pose proof (Zdigits2_shift m2 k Hm2 Hk) as Hs2. rewrite <- Hfst2 in Hs2.
    rewrite fexp_eq in He', He''.
    destruct (shr_m mrs'') as [|m|m] eqn:Hm''; [by left| |lia].
    right.
    assert (Hkd : k < Zdigits2 m2).
    { destruct (Z_lt_le_dec k (Zdigits2 m2)) as [H|H]; [exact H|exfalso].
      pose proof (Zdigits2_gt m2 Hm2) as Hg.
      assert (2 ^ Zdigits2 m2 <= 2 ^ k)
        by (apply pow2_le; pose proof (Zdigits2_nonneg m2); lia).
      assert (m2 / 2 ^ k = 0) by (apply Z.div_small; lia). lia. }
    cbn [Zdigits2] in Hs2.
    assert (Hle : ez + n + k <= 104) by lia.
    change (F32.emax - F32.prec) with 104.
    replace (ez + n + k <=? 104) with true by (symmetry; apply Z.leb_le; exact Hle).
    exists m, (ez + n + k). split; [reflexivity|]. lia.
Qed.

(** The second step of a rounding, on a mantissa of at most 24 bits (or
    [2^24] after a carry) at an exponent of the format. *)
Lemma round_second_step (s : bool) (m2 e' : Z) :
  0 <= m2 <= 2 ^ 24 -> -149 <= e' -> (e' = -149 \/ 2 ^ 23 <= m2) ->
  forall mrs'' e'',
    shr_fexp F32.prec F32.emax m2 e' loc_Exact = (mrs'', e'') ->
    F32.valid (match shr_m mrs'' with
               | Z0 => S754_zero s
               | Zpos m => if e'' <=? F32.emax - F32.prec
                           then S754_finite s m e'' else S754_infinity s
               | Zneg _ => S754_nan
               end) = true
    /\ 0 <= shr_m mrs''.
Proof.
  intros [Hlo Hhi] He' Hnorm mrs'' e'' Hshr.
  destruct (shr_fexp_m m2 e' loc_Exact Hlo) as (k & Hk & Hek & Hsnd & Hfst).
  rewrite Hshr in Hsnd, Hfst. cbn [fst snd] in Hsnd, Hfst. subst e''.
  rewrite fexp_eq in Hek.
  assert (Hq : 0 < 2 ^ k) by (apply pow2_pos; lia).
  split; [|rewrite Hfst; apply Z.div_pos; lia].
  destruct (Z.eq_dec m2 (2 ^ 24)) as [Heq|Hne].
  - (* a carry *)
    subst m2. change (Zdigits2 (2 ^ 24)) with 25 in Hek.
    assert (k = 1) by lia. subst k. rewrite Hfst.
    change (2 ^ 24 / 2 ^ 1) with (Zpos 8388608).
    destruct (e' + 1 <=? F32.emax - F32.prec) eqn:Hb; [|reflexivity].
    unfold F32.valid, valid_binary, bounded. rewrite Hb, andb_true_r.
    apply canonical_mantissa_iff. unfold canonical.
    change (Zpos (digits2_pos 8388608)) with 24. lia.
  - assert (Hd : Zdigits2 m2 <= 24) by (apply Zdigits2_le; lia).
    assert (k = 0) by lia. subst k. rewrite Hfst, Z.div_1_r.
    destruct m2 as [|m|m]; [reflexivity| |lia].
    destruct (e' + 0 <=? F32.emax - F32.prec) eqn:Hb; [|reflexivity].
    unfold F32.valid, valid_binary, bounded. rewrite Hb, andb_true_r.
    apply canonical_mantissa_iff. unfold canonical. cbn [Zdigits2] in Hd.
    destruct Hnorm as [->|Hn]; [lia|].
    assert (Zpos (digits2_pos m) = 24); [|lia].
    apply digits2_unique; [|lia]. change (2 ^ (24 - 1)) with (2 ^ 23). lia.
Qed.

(** The rounding of an exact mantissa of at least 24 bits is a valid
    binary32 number. *)
Lemma round_aux_valid (s : bool) (M : positive) (E : Z) :
  24 <= Zpos (digits2_pos M) ->
  F32.valid (binary_round_aux F32.prec F32.emax s (Zpos M) E loc_Exact) = true
  /\ F32.is_nan (binary_round_aux F32.prec F32.emax s (Zpos M) E loc_Exact) = false.
Proof.
  intros Hd.
  split; [|apply (round_aux_shape s (Zpos M) E loc_Exact); lia].
  unfold binary_round_aux.
  destruct (shr_fexp_m (Zpos M) E loc_Exact ltac:(lia)) as (n & Hn & He' & Hsnd & Hfst).
  destruct (shr_fexp F32.prec F32.emax (Zpos M) E loc_Exact) as [mrs' e'].
  cbn [fst snd] in Hsnd, Hfst. subst e'. cbn [Zdigits2] in He'. rewrite fexp_eq in He'.
  set (m1 := shr_m mrs') in *.
  pose proof (round_nearest_even_range m1 (loc_of_shr_record mrs')) as Hr.
  set (m2 := round_nearest_even m1 (loc_of_shr_record mrs')) in *.
  pose proof (digits2_bounds M) as [HMlo HMhi].
  set (d := Zpos (digits2_pos M)) in *.
  assert (Hp : 0 < 2 ^ n) by (apply pow2_pos; lia).
  assert (Hm1 : 0 <= m1) by (rewrite Hfst; apply Z.div_pos; lia).
  assert (Hshape : m1 < 2 ^ 24 /\ (E + n = -149 \/ 2 ^ 23 <= m1)).
  { destruct (Z_le_gt_dec (-149) (d + E - 24)) as [Hnrm|Hsub].
    - assert (n = d - 24) by lia. split.
      + rewrite Hfst. apply Z.div_lt_upper_bound; [lia|].
        rewrite <- pow2_add by lia. replace (n + 24) with d by lia. exact HMhi.
      + right. rewrite Hfst. apply Z.div_le_lower_bound; [lia|].
        rewrite <- pow2_add by lia. replace (n + 23) with (d - 1) by lia. exact HMlo.
    - assert (E + n = -149) by lia. split; [|by left].
      rewrite Hfst. apply Z.div_lt_upper_bound; [lia|].
      rewrite <- pow2_add by lia.
      assert (2 ^ d <= 2 ^ (n + 24)) by (apply pow2_le; lia). lia. }
  destruct Hshape as [Hlt Hnorm].
  destruct (shr_fexp F32.prec F32.emax m2 (E + n) loc_Exact) as [mrs'' e''] eqn:H2.
  apply (round_second_step s m2 (E + n)); [lia|lia| |exact H2].
  destruct Hnorm as [H|H]; [by left|right; lia].
Qed.

(** ** The guarded inputs of the frame computation *)

Lemma position_le (m1 m2 : positive) (e1 e2 : Z) :
  canonical m1 e1 -> canonical m2 e2 -> scaled m1 e1 <= scaled m2 e2 ->
  Zpos (digits2_pos m1) + e1 <= Zpos (digits2_pos m2) + e2.
Proof.
  intros H1 H2 Hle.
  destruct (canonical_mantissa_lt m1 e1 H1) as [_ He1].
  destruct (canonical_mantissa_lt m2 e2 H2) as [_ He2].
  pose proof (digits2_bounds m1) as [Hlo1 _].
  pose proof (digits2_bounds m2) as [_ Hhi2].
  set (d1 := Zpos (digits2_pos m1)) in *. set (d2 := Zpos (digits2_pos m2)) in *.
  assert (Hd1 : 1 <= d1) by (unfold d1; lia).
  assert (Hd2 : 1 <= d2) by (unfold d2; lia).
  destruct (Z_le_gt_dec (d1 + e1) (d2 + e2)) as [H|H]; [exact H|exfalso].
  unfold scaled in Hle.
  assert (A : 2 ^ (d1 - 1) * 2 ^ (e1 + 149) <= Zpos m1 * 2 ^ (e1 + 149))
    by (apply Z.mul_le_mono_nonneg_r; [apply Z.lt_le_incl, pow2_pos; lia|exact Hlo1]).
  assert (B : Zpos m2 * 2 ^ (e2 + 149) < 2 ^ d2 * 2 ^ (e2 + 149))
    by (apply Z.mul_lt_mono_pos_r; [apply pow2_pos; lia|exact Hhi2]).
  rewrite <- pow2_add in A, B by lia.
  assert (2 ^ (d2 + (e2 + 149)) <= 2 ^ (d1 - 1 + (e1 + 149))) by (apply pow2_le; lia).
  lia.
Qed.

Lemma of_Z_pos_finite (k : Z) :
  0 < k < UINT32_MOD ->
  exists m e, F32.of_Z k = S754_finite false m e /\ canonical m e /\ e <= 104.
Proof.
  intros Hk. unfold UINT32_MOD in Hk. unfold F32.of_Z, binary_normalize.
  destruct k as [|p|p]; try lia.
  destruct (binary_round_bounds p 0 ltac:(lia)) as (m & e & Hr & Hc & _ & Hhi).
  assert (Hb : canonical 8388608 9) by reflexivity.
  pose proof (Hhi 8388608%positive 9 Hb) as Hle.
  assert (Hs : scaled p 0 <= scaled 8388608 9).
  { unfold scaled. change (2 ^ (0 + 149)) with (2 ^ 149).
    change (Z.pos 8388608 * 2 ^ (9 + 149)) with (2 ^ 32 * 2 ^ 149).
    assert (0 < 2 ^ 149) by (apply pow2_pos; lia). nia. }
  specialize (Hle Hs).
  assert (He : e <= 104).
  { destruct (Z_le_gt_dec e 9) as [H|H]; [lia|].
    pose proof (canonical_lt_exp 8388608 m 9 e Hb Hc ltac:(lia)). lia. }
  rewrite Hr. replace (e <=? 104) with true by (symmetry; apply Z.leb_le; exact He).
  by exists m, e.
Qed.

Lemma of_Z_UINT32 (k : Z) : 0 <= k < UINT32_MOD -> exists v, nonneg (F32.of_Z k) v.
Proof.
  intros Hk. destruct (Z.eq_dec k 0) as [->|Hne].
  - exists 0. apply nonneg_zero.
  - destruct (of_Z_pos_finite k ltac:(lia)) as (m & e & -> & Hc & He).
    exists (scaled m e). by constructor.
Qed.

(** The conversion of a positive [UINT32]: a normal number below [2^33]. *)
Lemma of_Z_normal (k : Z) :
  0 < k < UINT32_MOD ->
  exists m e, F32.of_Z k = S754_finite false m e /\ canonical m e /\ e <= 104
              /\ Zpos (digits2_pos m) = 24 /\ Zpos (digits2_pos m) + e <= 33.
Proof.
  intros Hk. unfold UINT32_MOD in Hk. unfold F32.of_Z, binary_normalize.
  destruct k as [|p|p]; try lia.
  destruct (binary_round_bounds p 0 ltac:(lia)) as (m & e & Hr & Hc & Hlo & Hhi).
  assert (Hb : canonical 8388608 9) by reflexivity.
  assert (Ha : canonical 8388608 (-23)) by reflexivity.
  assert (H149 : 0 < 2 ^ 149) by (apply pow2_pos; lia).
  assert (Hs : scaled p 0 <= scaled 8388608 9).
  { unfold scaled. change (2 ^ (0 + 149)) with (2 ^ 149).
    change (Z.pos 8388608 * 2 ^ (9 + 149)) with (2 ^ 32 * 2 ^ 149). nia. }
  assert (Hs' : scaled 8388608 (-23) <= scaled p 0).
  { unfold scaled. change (2 ^ (0 + 149)) with (2 ^ 149).
    change (Z.pos 8388608 * 2 ^ (-23 + 149)) with (1 * 2 ^ 149). nia. }
  pose proof (Hhi _ _ Hb Hs) as Hle. pose proof (Hlo _ _ Ha Hs') as Hge.
  assert (He : e <= 9).
  { destruct (Z_le_gt_dec e 9) as [H|H]; [lia|].
    pose proof (canonical_lt_exp 8388608 m 9 e Hb Hc ltac:(lia)). lia. }
  assert (He' : -23 <= e).
  { destruct (Z_le_gt_dec (-23) e) as [H|H]; [lia|].
    pose proof (canonical_lt_exp m 8388608 e (-23) Hc Ha ltac:(lia)). lia. }
  rewrite Hr. replace (e <=? 104) with true by (symmetry; apply Z.leb_le; lia).
  exists m, e. unfold canonical in Hc.
  split; [reflexivity|]. split; [exact Hc|]. split; [lia|]. split; lia.
Qed.

(** An integer up to [2^24] converts exactly. *)
Lemma of_Z_exact (k : Z) : 0 <= k <= 2 ^ 24 -> nonneg (F32.of_Z k) (k * 2 ^ 149).
Proof.
  intros Hk. destruct (Z.eq_dec k (2 ^ 24)) as [->|Hne].
  - change (F32.of_Z (2 ^ 24)) with (S754_finite false 8388608 1).
    change (2 ^ 24 * 2 ^ 149) with (scaled 8388608 1).
    apply nonneg_finite; [reflexivity|lia].
  - apply of_Z_nonneg. lia.
Qed.

(** The difference of two non-negative numbers, the larger first. *)
Lemma sub_nonneg_bounds (x y : float) (vx vy : Z) :
  nonneg x vx -> nonneg y vy -> vy <= vx ->
  exists vd, nonneg (F32.sub x y) vd /\ vd <= vx.
Proof.
  intros Hx Hy Hle.
  destruct Hx as [sx|mx ex Hcx Hex]; destruct Hy as [sy|my ey Hcy Hey].
  - exists 0. split; [|lia]. unfold F32.sub, SFsub. destruct sx, sy; apply nonneg_zero.
  - pose proof (sc_pos my ey Hcy). lia.
  - exists (scaled mx ex). split; [|lia]. unfold F32.sub, SFsub. by constructor.
  - unfold F32.sub, SFsub. cbn [cond_Zopp].
    set (ez := Z.min ex ey).
    destruct (canonical_mantissa_lt mx ex Hcx) as [_ Hex'].
    destruct (canonical_mantissa_lt my ey Hcy) as [_ Hey'].
    destruct (shl_align_value mx ex ez ltac:(unfold ez; lia)) as (_ & Hmx & _).
    destruct (shl_align_value my ey ez ltac:(unfold ez; lia)) as (_ & Hmy & _).
    set (mx' := fst (shl_align mx ex ez)) in *.
    set (my' := fst (shl_align my ey ez)) in *.
    assert (Hez : -149 <= ez) by (unfold ez; lia).
    assert (HV : (Zpos mx' - Zpos my') * 2 ^ (ez + 149) = scaled mx ex - scaled my ey).
    { unfold scaled. rewrite Z.mul_sub_distr_r, Hmx, Hmy.
      rewrite <- !Z.mul_assoc, <- !pow2_add by (unfold ez; lia).
      f_equal; do 2 f_equal; lia. }
    assert (Hpw : 0 < 2 ^ (ez + 149)) by (apply pow2_pos; lia).
    destruct (Zpos mx' - Zpos my') as [|p|p] eqn:HD.
    + exists 0. split; [apply nonneg_zero|]. pose proof (sc_pos mx ex Hcx). lia.
    + cbn [binary_normalize].
      destruct (binary_round_bounds p ez Hez) as (m & e & Hr & Hcm & _ & Hhi).
      assert (Hp : scaled p ez <= scaled mx ex).
      { unfold scaled at 1. rewrite HV. pose proof (sc_pos my ey Hcy). lia. }
      pose proof (Hhi mx ex Hcx Hp) as HR.
      assert (He : e <= 104).
      { destruct (Z_le_gt_dec e ex) as [H|H]; [lia|].
        pose proof (canonical_lt_exp mx m ex e Hcx Hcm ltac:(lia)). lia. }
      rewrite Hr. replace (e <=? 104) with true by (symmetry; apply Z.leb_le; exact He).
      exists (scaled m e). split; [by constructor|exact HR].
    + exfalso. assert (Z.neg p * 2 ^ (ez + 149) < 0) by nia. lia.
Qed.

Lemma div_core_shape (m1 m2 : positive) (e1 e2 : Z) :
  exists q e' l,
    SFdiv_core_binary F32.prec F32.emax (Zpos m1) e1 (Zpos m2) e2 = (q, e', l)
    /\ 0 <= q
    /\ Zdigits2 q + e'
       <= Z.max (Zpos (digits2_pos m1) + e1 - (Zpos (digits2_pos m2) + e2) + 1) e'
    /\ e' <= fexp F32.prec F32.emax
               (Zpos (digits2_pos m1) + e1 - (Zpos (digits2_pos m2) + e2)).
Proof.
  unfold SFdiv_core_binary. cbn [Zdigits2].
  pose proof (digits2_bounds m1) as [_ Hhi1].
  pose proof (digits2_bounds m2) as [Hlo2 _].
  set (d1 := Zpos (digits2_pos m1)) in *. set (d2 := Zpos (digits2_pos m2)) in *.
  assert (Hd1 : 1 <= d1) by (unfold d1; lia).
  assert (Hd2 : 1 <= d2) by (unfold d2; lia).
  set (e' := Z.min (fexp F32.prec F32.emax (d1 + e1 - (d2 + e2))) (e1 - e2)).
  set (s := e1 - e2 - e').
  assert (Hs : 0 <= s) by (unfold s, e'; lia).
  set (m' := match s with Z.pos _ => Z.shiftl (Zpos m1) s | 0 => Zpos m1 | Z.neg _ => 0 end).
  assert (Hm' : m' = Zpos m1 * 2 ^ s).
  { unfold m'. destruct s as [|p|p] eqn:Hsp; [change (2 ^ 0) with 1; lia| |lia].
    apply Z.shiftl_mul_pow2. lia. }
  assert (Hps : 0 < 2 ^ s) by (apply pow2_pos; lia).
  pose proof (Z_div_mod m' (Zpos m2) ltac:(lia)) as Hdm.
  destruct (Z.div_eucl m' (Zpos m2)) as [q r]. destruct Hdm as [Heq Hr].
  exists q, e', (new_location (Zpos m2) r).
  split; [reflexivity|].
  assert (Hq : 0 <= q) by nia.
  split; [exact Hq|]. split; [|unfold e'; lia].
  destruct (Z.eq_dec q 0) as [->|Hq0]; [cbn [Zdigits2]; lia|].
  assert (Hbig : m' < 2 ^ (d1 + s)).
  { rewrite Hm', pow2_add by lia. apply Z.mul_lt_mono_pos_r; [exact Hps|exact Hhi1]. }
  assert (Hlow : q * 2 ^ (d2 - 1) <= m') by nia.
  assert (Hpd : 0 < 2 ^ (d2 - 1)) by (apply pow2_pos; lia).
  assert (Hexp : 0 < d1 + s - d2 + 1).
  { destruct (Z_lt_le_dec 0 (d1 + s - d2 + 1)) as [H|H]; [exact H|exfalso].
    assert (2 ^ (d1 + s) <= 2 ^ (d2 - 1)) by (apply pow2_le; lia). nia. }
  assert (Hql : q < 2 ^ (d1 + s - d2 + 1)).
  { apply (Z.mul_lt_mono_pos_r (2 ^ (d2 - 1))); [exact Hpd|].
    rewrite <- pow2_add by lia. replace (d1 + s - d2 + 1 + (d2 - 1)) with (d1 + s) by lia.
    lia. }
  pose proof (Zdigits2_le q (d1 + s - d2 + 1) ltac:(lia) ltac:(lia)) as Hdq.
  unfold s in Hdq. lia.
Qed.

(** A quotient of positive numbers, the divisor not below the dividend in
    the place of its leading bit, is finite and below 4. *)
Lemma div_position (md mi : positive) (ed ei : Z) :
  Zpos (digits2_pos md) + ed <= Zpos (digits2_pos mi) + ei ->
  F32.div (S754_finite false md ed) (S754_finite false mi ei) = S754_zero false
  \/ exists m e,
       F32.div (S754_finite false md ed) (S754_finite false mi ei) = S754_finite false m e
       /\ Zpos (digits2_pos m) + e <= 2.
Proof.
  intros Hpos. unfold F32.div, SFdiv. cbn [xorb].
  destruct (div_core_shape md mi ed ei) as (q & e' & l & Hcore & Hq & Hd & He').
  rewrite Hcore. rewrite fexp_eq in He'.
  destruct (round_aux_shape false q e' l Hq) as [_ Hshape].
  destruct (Hshape ltac:(lia)) as [H|(m & e & H & Hp)]; [by left|right].
  exists m, e. split; [exact H|lia].
Qed.

Lemma mul_position (sx sy : bool) (mx my : positive) (ex ey : Z) :
  Zpos (digits2_pos mx) + ex + (Zpos (digits2_pos my) + ey) <= 104 ->
  F32.is_finite (F32.mul (S754_finite sx mx ex) (S754_finite sy my ey)) = true.
Proof.
  intros H. unfold F32.mul, SFmul.
  destruct (round_aux_shape (xorb sx sy) (Zpos (mx * my)) (ex + ey) loc_Exact ltac:(lia))
    as [_ Hshape].
  destruct Hshape as [->|(m & e & -> & _)]; [|reflexivity..].
  pose proof (digits2_bounds mx) as [_ Hx]. pose proof (digits2_bounds my) as [_ Hy].
  assert (Hd : Zdigits2 (Zpos (mx * my)) <= Zpos (digits2_pos mx) + Zpos (digits2_pos my)).
  { apply Zdigits2_le; [lia|]. split; [lia|].
    rewrite Pos2Z.inj_mul, Z.pow_add_r by lia. nia. }
  lia.
Qed.

Lemma binary_round_not_nan (s : bool) (m : positive) (e : Z) :
  F32.is_nan (binary_round F32.prec F32.emax s m e) = false.
Proof.
  unfold binary_round. destruct (shl_align m e _) as [mz ez].
  apply round_aux_shape. lia.
Qed.

Lemma binary_normalize_not_nan (m e : Z) (sz : bool) :
  F32.is_nan (binary_normalize F32.prec F32.emax m e sz) = false.
Proof.
  destruct m; cbn [binary_normalize]; [reflexivity|apply binary_round_not_nan..].
Qed.

Lemma div_finite_not_nan (x y : float) :
  F32.is_finite x = true -> F32.is_finite y = true -> F32.is_zero y = false ->
  F32.is_nan (F32.div x y) = false.
Proof.
  destruct x as [sx| | |sx mx ex]; try discriminate;
    destruct y as [sy| | |sy my ey]; try discriminate; intros _ _ _; [reflexivity|].
  unfold F32.div, SFdiv.
  destruct (div_core_shape mx my ex ey) as (q & e' & l & Hcore & Hq & _).
  rewrite Hcore. apply round_aux_shape. exact Hq.
Qed.

Lemma floor_not_nan (a : float) : F32.is_nan a = false -> F32.is_nan (F32.floor a) = false.
Proof.
  destruct a as [s|s| |s m e]; try done. intros _. unfold F32.floor.
  destruct (0 <=? e); [reflexivity|].
  destruct (_ =? 0); [reflexivity|]. apply binary_normalize_not_nan.
Qed.

Lemma mul_finite_not_nan (x y : float) :
  F32.is_nan x = false -> F32.is_finite y = true -> F32.is_zero y = false ->
  F32.is_nan (F32.mul x y) = false.
Proof.
  destruct x as [sx|sx| |sx mx ex]; try discriminate;
    destruct y as [sy| | |sy my ey]; try discriminate; intros _ _ _; try reflexivity.
  unfold F32.mul, SFmul. apply round_aux_shape. lia.
Qed.

Lemma sub_finite_not_nan (x y : float) :
  F32.is_finite x = true -> F32.is_nan y = false -> F32.is_nan (F32.sub x y) = false.
Proof.
  destruct x as [sx| | |sx mx ex]; try discriminate;
    destruct y as [sy|sy| |sy my ey]; try discriminate; intros _ _; try reflexivity.
  - by destruct sx, sy.
  - unfold F32.sub, SFsub. apply binary_normalize_not_nan.
Qed.

Lemma repeat_one_not_nan (v : float) :
  F32.is_finite v = true -> F32.is_nan (Math.repeat v F32.one) = false.
Proof.
  intros Hv. unfold Math.repeat.
  apply sub_finite_not_nan; [exact Hv|].
  apply mul_finite_not_nan; [|reflexivity..].
  apply floor_not_nan. by apply div_finite_not_nan.
Qed.

(** A product with a normal number is a valid binary32 number. *)
Lemma mul_normal_valid (x : float) (sf : bool) (mf : positive) (ef : Z) :
  F32.is_nan x = false -> Zpos (digits2_pos mf) = 24 ->
  F32.valid (F32.mul x (S754_finite sf mf ef)) = true
  /\ F32.is_nan (F32.mul x (S754_finite sf mf ef)) = false.
Proof.
  intros Hx Hd. destruct x as [sx|sx| |sx mx ex]; try discriminate; try (by split).
  unfold F32.mul, SFmul. apply round_aux_valid.
  pose proof (digits2_bounds mf) as [Hlo _]. rewrite Hd in Hlo.
  change (2 ^ (24 - 1)) with (2 ^ 23) in Hlo.
  pose proof (digits2_bounds (mx * mf)) as [_ Hhi].
  destruct (Z_le_gt_dec 24 (Zpos (digits2_pos (mx * mf)))) as [H|H]; [exact H|exfalso].
  assert (2 ^ Zpos (digits2_pos (mx * mf)) <= 2 ^ 23) by (apply pow2_le; lia).
  rewrite Pos2Z.inj_mul in Hhi. nia.
Qed.

(** Within the invariant of the buffer, [0 <= lifetime <= initialLifetime]
    with a finite [initialLifetime > 0], the scaled frame value is a valid
    binary32 number and not a NaN. *)
Lemma scaledFrame_guard (desc : PARTICLE_TEXTURE_ANIMATION_DESC) (il l : float)
    (numFrames : Z) :
  0 <= numCycles desc < UINT32_MOD -> 1 <= numFrames < UINT32_MOD ->
  F32.valid il = true -> F32.valid l = true -> F32.is_finite il = true ->
  F32.ltb F32.zero il = true -> F32.leb F32.zero l = true -> F32.leb l il = true ->
  F32.valid (scaledFrame desc il l numFrames) = true
  /\ F32.is_nan (scaledFrame desc il l numFrames) = false.
Proof.
  intros Hnc Hnf Hvil Hvl Hfin Hpos Hl0 Hlil.
  destruct il as [s|s| |[|] mi ei]; try discriminate.
  pose proof (valid_nonneg mi ei Hvil) as Nil.
  assert (Nl : exists vl, nonneg l vl /\ vl <= scaled mi ei).
  { destruct l as [s|[|]| |[|] ml el]; try discriminate.
    - exists 0. split; [apply nonneg_zero|]. apply (nonneg_ge0 _ _ Nil).
    - pose proof (valid_nonneg ml el Hvl) as Nl. exists (scaled ml el).
      split; [exact Nl|]. by apply (leb_nonneg _ _ _ _ Nl Nil). }
  destruct Nl as (vl & Nl & Hle).
  destruct (sub_nonneg_bounds _ _ _ _ Nil Nl Hle) as (vd & Nd & Hd).
  unfold scaledFrame.
  set (d := F32.sub (S754_finite false mi ei) l) in *.
  (* the normalized age *)
  assert (Ht : (exists st, F32.div d (S754_finite false mi ei) = S754_zero st)
               \/ exists m e, F32.div d (S754_finite false mi ei) = S754_finite false m e
                              /\ Zpos (digits2_pos m) + e <= 2).
  { inversion Nd as [sd Hsd|md ed Hcd Hed Hsd].
    - left. by eexists.
    - inversion Nil; subst.
      destruct (div_position md mi ed ei) as [H|H]; [by apply position_le| |by right].
      left. by eexists. }
  set (t := F32.div d (S754_finite false mi ei)) in *.
  (* times the cycles *)
  assert (Hv : F32.is_finite (F32.mul (F32.of_Z (numCycles desc)) t) = true).
  { destruct (Z.eq_dec (numCycles desc) 0) as [->|Hne].
    - change (F32.of_Z 0) with (S754_zero false).
      destruct Ht as [[st ->]|(m & e & -> & _)]; reflexivity.
    - destruct (of_Z_normal (numCycles desc) ltac:(lia)) as (mn & en & -> & _ & _ & _ & Hp).
      destruct Ht as [[st ->]|(m & e & -> & Hpt)]; [reflexivity|].
      apply mul_position. lia. }
  pose proof (repeat_one_not_nan _ Hv) as Hr.
  destruct (of_Z_normal numFrames ltac:(lia)) as (mf & ef & -> & _ & _ & Hdf & _).
  by apply mul_normal_valid.
Qed.

(** ** Texture animation *)

Section TextureAnimationProperties.

Variable Random : Type.
Variable Random_new : Z -> Random.
Variable getRange : Random -> Z -> Z -> Z.
Variable Matrix4 : Type.

Let evolve := ParticleTextureAnimation_evolve Random Random_new getRange Matrix4.
Local Abbreviation animatedFrame := (animatedFrame Random Random_new getRange).

Lemma sameButFrame_refl p : sameButFrame p p.
Proof. by repeat split. Qed.

Lemma sameButFrame_set_frame p q i v :
  sameButFrame p q -> sameButFrame p (set_frame q (<[i := v]> (frame q))).
Proof.
  intros (?&?&?&?&?&?). repeat split; simpl; try assumption.
  by rewrite length_insert.
Qed.

Lemma fallbackCase_validAnimation self :
  fallbackCase self -> validAnimation self = None.
Proof.
  unfold validAnimation, resolveTexture, validGrid.
  intros [H|[(parent & H1 & H2)|[(parent & material & H1 & H2 & H3)|(texture & H1 & H2)]]].
  - by rewrite H.
  - by rewrite H1, H2.
  - by rewrite H1, H2, H3.
  - unfold resolveTexture in H1. rewrite H1.
    destruct H2 as [H2|[H2|H2]]; rewrite H2; simpl;
      by rewrite ?andb_false_r.
Qed.

Lemma fallback_loop (n : nat) (p : ParticleSetData) :
  (n <= length (frame p))%nat ->
  exists q,
    for_loop n 0
      (fun i p => frame' ← store (frame p) i F32.zero; Some (set_frame p frame')) p
    = Some q
    /\ sameButFrame p q
    /\ forall i, (i < n)%nat -> frame q !! i = Some F32.zero.
Proof.
  intros Hn.
  destruct (for_loop_inv
    (fun k q => sameButFrame p q /\ forall i, (i < k)%nat -> frame q !! i = Some F32.zero)
    (fun i p => frame' ← store (frame p) i F32.zero; Some (set_frame p frame'))
    n 0%nat p) as (q & Hq & Hsame & Hz).
  - split; [apply sameButFrame_refl|]. intros i Hi. lia.
  - intros k t Hk [Hsame Hz].
    assert (Hlen : (k < length (frame t))%nat).
    { destruct Hsame as (_&_&_&_&_&->). lia. }
    rewrite (store_Some _ _ _ Hlen). simpl. eexists. split; [reflexivity|].
    split; [by apply sameButFrame_set_frame|].
    intros i Hi. unfold set_frame. cbn [frame].
    destruct (decide (i = k)) as [->|Hne].
    + by apply list_lookup_insert_eq.
    + rewrite list_lookup_insert_ne by congruence. apply Hz. lia.
  - exists q. split; [exact Hq|]. split; [exact Hsame|]. exact Hz.
Qed.

(** C5: when no material is attached, the material or the sprite texture
    is not loaded, or the grid descriptor has a zero field, the evolver
    returns normally and [frame[i]] is [0] for every particle index [i],
    whatever the buffer held. *)
Theorem C5_fallback_zero_frames (self : ParticleTextureAnimation) (random : Random)
    (state : ParticleSystemState Matrix4) (set : ParticleSet) :
  fallbackCase self ->
  (getParticleCount set <= length (frame (getParticles set)))%nat ->
  exists set',
    evolve self random state set = Some set'
    /\ getParticleCount set' = getParticleCount set
    /\ forall i, (i < getParticleCount set)%nat ->
                 frame (getParticles set') !! i = Some F32.zero.
Proof.
  intros Hfb Hlen. unfold evolve, ParticleTextureAnimation_evolve.
  rewrite (fallbackCase_validAnimation _ Hfb).
  destruct (fallback_loop _ _ Hlen) as (q & Hq & _ & Hz).
  rewrite Hq. simpl. eexists. split; [reflexivity|]. split; [reflexivity|]. exact Hz.
Qed.

Lemma for_loop_preserves {S : Type} (P : S -> Prop) (body : nat -> S -> option S) (n : nat) :
  forall (i : nat) (s s' : S),
    (forall k t t', body k t = Some t' -> P t -> P t') ->
    P s -> for_loop n i body s = Some s' -> P s'.
Proof.
  induction n as [|n IH]; intros i s s' Hbody HP Hrun; simpl in Hrun.
  - by simplify_eq.
  - destruct (body i s) as [t|] eqn:Ht; simpl in Hrun; [|done].
    eapply IH; [exact Hbody| |exact Hrun]. eapply Hbody; eassumption.
Qed.

Lemma animateParticle_sameButFrame desc gridAnim p i q q' :
  animateParticle Random Random_new getRange desc gridAnim i q = Some q' ->
  sameButFrame p q -> sameButFrame p q'.
Proof.
  unfold animateParticle. intros H Hsame.
  destruct (frameRange _ _ _ _ _ _ _) as [[frameOffset numFrames]|]; simpl in H; [|done].
  destruct (initialLifetime q !! i); simpl in H; [|done].
  destruct (lifetime q !! i); simpl in H; [|done].
  destruct (store _ _ _) as [frame'|] eqn:Hst; simpl in H; [|done].
  apply store_inv in Hst as [_ ->]. simplify_eq.
  by apply sameButFrame_set_frame.
Qed.

Lemma animateParticle_total desc gridAnim p i :
  (i < length (initialLifetime p))%nat -> (i < length (lifetime p))%nat ->
  (i < length (seed p))%nat -> (i < length (frame p))%nat ->
  is_Some (animateParticle Random Random_new getRange desc gridAnim i p).
Proof.
  intros Hil Hl Hs Hf. unfold animateParticle, frameRange.
  apply lookup_lt_is_Some in Hil as [il Hil].
  apply lookup_lt_is_Some in Hl as [l Hl].
  apply lookup_lt_is_Some in Hs as [sd Hs].
  rewrite Hs. destruct (randomizeRow desc); simpl;
    rewrite Hil; simpl; rewrite Hl; simpl;
    rewrite (store_Some _ _ _ Hf); simpl; by eexists.
Qed.

Lemma evolve_sameButFrame self random state set set' :
  evolve self random state set = Some set' ->
  getParticleCount set' = getParticleCount set
  /\ sameButFrame (getParticles set) (getParticles set').
Proof.
  unfold evolve, ParticleTextureAnimation_evolve. intros H.
  destruct (validAnimation self) as [gridAnim|].
  - destruct (for_loop _ _ _ _) as [q|] eqn:Hq; simpl in H; [|done].
    simplify_eq. split; [reflexivity|]. simpl.
    eapply for_loop_preserves; [|apply sameButFrame_refl|exact Hq].
    intros k t t' Hk. by apply (animateParticle_sameButFrame _ _ _ _ _ _ Hk).
  - destruct (for_loop _ _ _ _) as [q|] eqn:Hq; simpl in H; [|done].
    simplify_eq. split; [reflexivity|]. simpl.
    eapply for_loop_preserves; [|apply sameButFrame_refl|exact Hq].
    intros k t t' Hk Hsame. simpl in Hk.
    destruct (store _ _ _) as [frame'|] eqn:Hst; simpl in Hk; [|done].
    apply store_inv in Hst as [_ ->]. simplify_eq.
    by apply sameButFrame_set_frame.
Qed.

Lemma evolve_total self random state set :
  set_wf set -> is_Some (evolve self random state set).
Proof.
  intros (Hp & Hv & Hl & Hil & Hs & Hf).
  unfold evolve, ParticleTextureAnimation_evolve.
  destruct (validAnimation self) as [gridAnim|].
  - destruct (for_loop_inv (fun _ q => sameButFrame (getParticles set) q)
      (animateParticle Random Random_new getRange (ta_mDesc self) gridAnim)
      (getParticleCount set) 0%nat (getParticles set)) as (q & Hq & _).
    + apply sameButFrame_refl.
    + intros k t Hk Hsame.
      destruct (animateParticle_total (ta_mDesc self) gridAnim t k) as [t' Ht'].
      * destruct Hsame as (_&_&_&->&_&_). lia.
      * destruct Hsame as (_&_&->&_&_&_). lia.
      * destruct Hsame as (_&_&_&_&->&_). lia.
      * destruct Hsame as (_&_&_&_&_&->). lia.
      * exists t'. split; [exact Ht'|].
        eapply animateParticle_sameButFrame; eassumption.
    + rewrite Hq. simpl. by eexists.
  - destruct (fallback_loop _ _ Hf) as (q & Hq & _).
    rewrite Hq. simpl. by eexists.
Qed.

(** C9: the texture animation evolver runs to completion on a buffer that
    has a slot for every particle, and whenever it returns, on the valid
    path or on the fallback path, the positions, velocities, lifetimes,
    initial lifetimes and seeds of all particles, and the particle count,
    are the ones it was given: only [frame] is written. *)
Theorem C9_only_frame_written (self : ParticleTextureAnimation) (random : Random)
    (state : ParticleSystemState Matrix4) (set : ParticleSet) :
  set_wf set ->
  exists set',
    evolve self random state set = Some set'
    /\ getParticleCount set' = getParticleCount set
    /\ position (getParticles set') = position (getParticles set)
    /\ velocity (getParticles set') = velocity (getParticles set)
    /\ lifetime (getParticles set') = lifetime (getParticles set)
    /\ initialLifetime (getParticles set') = initialLifetime (getParticles set)
    /\ seed (getParticles set') = seed (getParticles set).
Proof.
  intros Hwf. destruct (evolve_total self random state set Hwf) as [set' Hset'].
  exists set'. split; [exact Hset'|].
  destruct (evolve_sameButFrame _ _ _ _ _ Hset') as (Hc & Hp & Hv & Hl & Hil & Hs & _).
  by repeat split.
Qed.

(** C8: with row randomization enabled, the row of a particle is a
    function of its seed and of the grid descriptor alone: two runs of the
    row step on any two buffers, particle slots and cycle settings draw
    the same row, offset and frame count as soon as the seeds and the grid
    descriptor agree, and the result of the evolver does not depend on the
    shared generator or on the tick state it is handed. *)
Theorem C8_row_determinism (gridAnim : SpriteSheetGridAnimation)
    (desc1 desc2 : PARTICLE_TEXTURE_ANIMATION_DESC)
    (particles1 particles2 : ParticleSetData) (i1 i2 : nat) (seed_i : Z) :
  randomizeRow desc1 = true -> randomizeRow desc2 = true ->
  seed particles1 !! i1 = Some seed_i -> seed particles2 !! i2 = Some seed_i ->
  frameRange Random Random_new getRange desc1 gridAnim particles1 i1
    = Some (to_UINT32 (selectRow Random Random_new getRange gridAnim seed_i
                       * numColumns gridAnim), numColumns gridAnim)
  /\ frameRange Random Random_new getRange desc2 gridAnim particles2 i2
     = frameRange Random Random_new getRange desc1 gridAnim particles1 i1
  /\ forall self random1 random2 state1 state2 set,
       evolve self random1 state1 set = evolve self random2 state2 set.
Proof.
  intros Hr1 Hr2 Hs1 Hs2. unfold frameRange.
  rewrite Hr1, Hr2, Hs1, Hs2. simpl. repeat split.
Qed.

(** *** The frame bound *)

Lemma frameRange_seed desc gridAnim (p q : ParticleSetData) (i : nat) :
  seed q = seed p ->
  frameRange Random Random_new getRange desc gridAnim q i
  = frameRange Random Random_new getRange desc gridAnim p i.
Proof. intros H. unfold frameRange. by rewrite H. Qed.

Lemma frameRange_range desc gridAnim (p : ParticleSetData) (i : nat) frameOffset numFrames :
  validGrid gridAnim = true ->
  frameRange Random Random_new getRange desc gridAnim p i = Some (frameOffset, numFrames) ->
  0 <= frameOffset /\ 1 <= numFrames.
Proof.
  unfold validGrid, frameRange. intros Hg H.
  apply andb_prop in Hg as [Hg Hc]. apply andb_prop in Hg as [Hr Hcol].
  apply Z.ltb_lt in Hr, Hcol, Hc.
  destruct (randomizeRow desc).
  - destruct (seed p !! i) as [sd|]; simpl in H; [|done]. simplify_eq.
    split; [|lia]. unfold to_UINT32, UINT32_MOD. apply Z.mod_pos_bound. done.
  - simplify_eq. lia.
Qed.

Lemma validAnimation_validGrid self gridAnim :
  validAnimation self = Some gridAnim -> validGrid gridAnim = true.
Proof.
  unfold validAnimation. destruct (resolveTexture self) as [texture|]; [|done].
  destruct (validGrid (getAnimation texture)) eqn:Hg; [|done].
  intros H. by simplify_eq.
Qed.

Lemma animation_loop desc gridAnim (n : nat) (p : ParticleSetData) :
  (n <= length (initialLifetime p))%nat -> (n <= length (lifetime p))%nat ->
  (n <= length (seed p))%nat -> (n <= length (frame p))%nat ->
  exists q,
    for_loop n 0 (animateParticle Random Random_new getRange desc gridAnim) p = Some q
    /\ forall i, (i < n)%nat -> animatedFrame desc gridAnim p q i.
Proof.
  intros Hil Hl Hs Hf.
  destruct (for_loop_inv
    (fun k q => sameButFrame p q /\ forall i, (i < k)%nat -> animatedFrame desc gridAnim p q i)
    (animateParticle Random Random_new getRange desc gridAnim) n 0%nat p)
    as (q & Hq & _ & Hframes).
  - split; [apply sameButFrame_refl|]. intros i Hi. lia.
  - intros k t Hk [Hsame Hdone].
    destruct (animateParticle_total desc gridAnim t k) as [t' Ht'].
    + destruct Hsame as (_&_&_&->&_&_). lia.
    + destruct Hsame as (_&_&->&_&_&_). lia.
    + destruct Hsame as (_&_&_&_&->&_). lia.
    + destruct Hsame as (_&_&_&_&_&->). lia.
    + exists t'. split; [exact Ht'|].
      split; [eapply animateParticle_sameButFrame; eassumption|].
      intros i Hi frameOffset numFrames il l Hrange Hili Hli.
      unfold animateParticle in Ht'.
      destruct Hsame as (_ & _ & El & Eil & Es & Ef).
      rewrite (frameRange_seed desc gridAnim p t k Es) in Ht'.
      destruct (frameRange _ _ _ desc gridAnim p k) as [[off nf]|] eqn:Hrk;
        simpl in Ht'; [|done].
      rewrite Eil, El in Ht'.
      destruct (initialLifetime p !! k) as [ilk|] eqn:Hilk; simpl in Ht'; [|done].
      destruct (lifetime p !! k) as [lk|] eqn:Hlk; simpl in Ht'; [|done].
      destruct (store _ _ _) as [frame'|] eqn:Hst; simpl in Ht'; [|done].
      apply store_inv in Hst as [Hlen ->]. simplify_eq. simpl.
      destruct (decide (i = k)) as [->|Hne].
      * simplify_eq. by apply list_lookup_insert_eq.
      * rewrite list_lookup_insert_ne by congruence.
        apply (Hdone i ltac:(lia) frameOffset numFrames il l Hrange Hili Hli).
  - exists q. split; [exact Hq|]. exact Hframes.
Qed.

Lemma frameValue_within (frameOffset numFrames : Z) (frame_v : float) :
  0 <= frameOffset -> 1 <= numFrames < UINT32_MOD ->
  frameOffset = 0 \/ frameOffset + numFrames - 1 <= 2 ^ 24 ->
  F32.valid frame_v = true -> F32.is_nan frame_v = false ->
  F32.leb (F32.of_Z frameOffset) (frameValue frameOffset numFrames frame_v) = true
  /\ F32.leb (frameValue frameOffset numFrames frame_v)
             (F32.of_Z (frameOffset + numFrames - 1)) = true.
Proof.
  intros Hoff Hn Hcase Hvalid Hnan. unfold frameValue.
  assert (Hu : to_UINT32 (numFrames - 1) = numFrames - 1).
  { unfold to_UINT32. apply Z.mod_small. lia. }
  rewrite Hu.
  destruct Hcase as [->|Hsmall].
  - replace (0 + numFrames - 1) with (numFrames - 1) by lia.
    destruct (of_Z_UINT32 (numFrames - 1) ltac:(lia)) as (vhi & Hhi).
    destruct (clamp_nonneg frame_v _ _ Hvalid Hnan Hhi) as (vc & Hc & Hvc).
    pose proof (nonneg_ge0 _ _ Hc) as Hvc0.
    change (F32.of_Z 0) with (S754_zero false).
    destruct (add_nonneg_bounds _ _ _ _ (nonneg_zero false) Hc) as [Hlo Hup]. split.
    + apply (Hlo _ _ (nonneg_zero false)). lia.
    + apply (Hup _ _ Hhi). lia.
  - pose proof (of_Z_exact frameOffset ltac:(lia)) as Hx.
    pose proof (of_Z_exact (numFrames - 1) ltac:(lia)) as Hhi.
    pose proof (of_Z_exact (frameOffset + numFrames - 1) ltac:(lia)) as Hb.
    destruct (clamp_nonneg frame_v _ _ Hvalid Hnan Hhi) as (vc & Hc & Hvc).
    pose proof (nonneg_ge0 _ _ Hc) as Hvc0.
    destruct (add_nonneg_bounds _ _ _ _ Hx Hc) as [Hlo Hup]. split.
    + apply (Hlo _ _ Hx). lia.
    + apply (Hup _ _ Hb). lia.
Qed.

Lemma frameRange_count desc gridAnim (p : ParticleSetData) (i : nat) frameOffset numFrames :
  validGrid gridAnim = true -> gridInRange gridAnim ->
  frameRange Random Random_new getRange desc gridAnim p i = Some (frameOffset, numFrames) ->
  0 <= frameOffset /\ 1 <= numFrames < UINT32_MOD.
Proof.
  intros Hg (_ & Hc & Hn) H.
  destruct (frameRange_range desc gridAnim p i _ _ Hg H)
    as [Hoff Hnf].
  split; [exact Hoff|]. split; [exact Hnf|].
  unfold frameRange in H. destruct (randomizeRow desc).
  - destruct (seed p !! i) as [sd|]; simpl in H; [|done]. simplify_eq. lia.
  - simplify_eq. lia.
Qed.


End TextureAnimationProperties.

(** ** Collision response *)

(** C1, as stated, fails: with dampening 0 and restitution 0 the response
    to the hit at the origin with normal (0,1,0) is not the mirrored
    position (0,1,0) and velocity (0,2,0). *)
Lemma C1_mirrored_values_refuted :
  calcCollisionResponse (v3 0 (-1) 0) (v3 0 (-2) 0)
    (mkHitInfo (v3 0 0 0) (v3 0 1 0) 0) (responseDesc 0 0)
  <> (v3 0 1 0, v3 0 2 0).
Proof. vm_compute. discriminate. Qed.

(** C1, amended: for the hit at the origin with normal (0,1,0) on the
    particle at (0,-1,0) with velocity (0,-2,0) and dampening 0, restitution
    0 removes the whole component along the normal, so that position and
    velocity both become (0,0,0); the mirrored position (0,1,0) and velocity
    (0,2,0) are the response for restitution 1. *)
Theorem C1_collision_response_exact :
  calcCollisionResponse (v3 0 (-1) 0) (v3 0 (-2) 0)
    (mkHitInfo (v3 0 0 0) (v3 0 1 0) 0) (responseDesc 0 0)
  = (v3 0 0 0, v3 0 0 0)
  /\ calcCollisionResponse (v3 0 (-1) 0) (v3 0 (-2) 0)
       (mkHitInfo (v3 0 0 0) (v3 0 1 0) 0) (responseDesc 0 1)
     = (v3 0 1 0, v3 0 2 0).
Proof. split; vm_compute; reflexivity. Qed.

(** ** Collisions *)

Lemma for_loop_app {S : Type} (body : nat -> S -> option S) (a b : nat) :
  forall (i : nat) (s : S),
    for_loop (a + b) i body s = for_loop a i body s ≫= for_loop b (i + a) body.
Proof.
  induction a as [|a IH]; intros i s; simpl.
  - by replace (i + 0)%nat with i by lia.
  - destruct (body i s) as [t|]; simpl; [|done].
    rewrite IH. by replace (Datatypes.S i + a)%nat with (i + Datatypes.S a)%nat by lia.
Qed.

Lemma buf_read_Some {A : Type} (b : buffer A) (i : nat) (v : A) :
  buf_read b i = Some v <-> b !! i = Some (Some v).
Proof.
  unfold buf_read. destruct (b !! i) as [[w|]|]; simpl; split; intros H; by simplify_eq.
Qed.

Section CollisionProperties.

Variable Random : Type.
Variable Matrix4 : Type.
Variable multiplyAffine : Matrix4 -> Vector3 -> Vector3.
Variable multiplyDirection : Matrix4 -> Vector3 -> Vector3.
Variable multiplyAffinePlane : Matrix4 -> Plane -> Plane.
Variable AABox : Type.
Variable INF_BOX : AABox.
Variable merge : AABox -> Vector3 -> AABox.
Variable Quaternion : Type.
Variable IDENTITY : Quaternion.
Variable Collider : Type.
Variable _boxOverlap : AABox -> Quaternion -> Z -> list Collider.
Variable rayCast : Collider -> Ray -> float -> option PhysicsQueryHit.

Let evolve :=
  ParticleCollisions_evolve Random Matrix4 multiplyAffine multiplyDirection
    multiplyAffinePlane AABox INF_BOX merge Quaternion IDENTITY Collider
    _boxOverlap rayCast.
Let localPlanes' := localPlanes Matrix4 multiplyAffinePlane.
Local Abbreviation effectivePlanes := (effectivePlanes Matrix4 multiplyAffinePlane).
Local Abbreviation nearestHit := (nearestHit Collider rayCast).
Local Abbreviation producedBy := (producedBy Collider rayCast).
Local Abbreviation raycastPost := (raycastPost Collider rayCast).

(** *** The scratch planes *)

Lemma localPlanes_prefix (self : ParticleCollisions) (state : ParticleSystemState Matrix4)
    (numParticles k : nat) :
  (k <= length (mCollisionPlanes self))%nat -> (k <= numParticles)%nat ->
  for_loop k 0
    (fun i lp => plane ← mCollisionPlanes self !! i;
                 buf_write lp i (multiplyAffinePlane (worldToLocal state) plane))
    (bs_stack_alloc numParticles)
  = Some ((Some <$> (multiplyAffinePlane (worldToLocal state) <$> take k (mCollisionPlanes self)))
          ++ replicate (numParticles - k) None).
Proof.
  intros Hk Hn.
  destruct (for_loop_inv
    (fun j lp => (j <= k)%nat ->
       lp = (Some <$> (multiplyAffinePlane (worldToLocal state) <$> take j (mCollisionPlanes self)))
            ++ replicate (numParticles - j) None)
    (fun i lp => plane ← mCollisionPlanes self !! i;
                 buf_write lp i (multiplyAffinePlane (worldToLocal state) plane))
    k 0%nat (bs_stack_alloc numParticles)) as (lp & Hrun & Hlp).
  - intros _. rewrite take_0. simpl. unfold bs_stack_alloc. f_equal. lia.
  - intros j lp Hj Hinv. specialize (Hinv ltac:(lia)).
    destruct (lookup_lt_is_Some_2 (mCollisionPlanes self) j ltac:(lia)) as [pl Hpl].
    rewrite Hpl. simpl. subst lp. unfold buf_write.
    set (pre := Some <$> (multiplyAffinePlane (worldToLocal state) <$> take j (mCollisionPlanes self))).
    assert (Hpre : length pre = j).
    { unfold pre. rewrite !length_fmap, length_take. lia. }
    rewrite store_Some by (rewrite length_app, length_replicate; lia).
    eexists. split; [reflexivity|]. intros _.
    rewrite insert_app_r_alt by lia. rewrite Hpre, Nat.sub_diag.
    replace (numParticles - j)%nat with (Datatypes.S (numParticles - Datatypes.S j)) by lia.
    simpl. rewrite (take_S_r _ _ _ Hpl), !fmap_app. simpl.
    by rewrite <- app_assoc.
  - transitivity (Some lp); [exact Hrun|]. f_equal. apply Hlp. lia.
Qed.

Lemma localPlanes_fits (self : ParticleCollisions) (state : ParticleSystemState Matrix4)
    (numParticles : nat) :
  worldSpace state = true \/ (length (mCollisionPlanes self) <= numParticles)%nat ->
  exists planes : buffer Plane,
    localPlanes' self state numParticles = Some planes
    /\ forall j, (j < length (mCollisionPlanes self))%nat ->
                 buf_read planes j = effectivePlanes self state !! j.
Proof.
  unfold localPlanes', localPlanes, effectivePlanes. intros H.
  destruct (worldSpace state).
  - eexists. split; [reflexivity|]. intros j Hj. unfold buf_read.
    rewrite list_lookup_fmap. by destruct (mCollisionPlanes self !! j).
  - destruct H as [H|H]; [done|].
    rewrite (localPlanes_prefix self state numParticles _ (Nat.le_refl _) H).
    eexists. split; [reflexivity|]. intros j Hj. unfold buf_read.
    rewrite firstn_all, lookup_app_l by (rewrite !length_fmap; lia).
    rewrite list_lookup_fmap.
    by destruct ((multiplyAffinePlane (worldToLocal state) <$> mCollisionPlanes self) !! j).
Qed.

Lemma localPlanes_overflow (self : ParticleCollisions) (state : ParticleSystemState Matrix4)
    (numParticles : nat) :
  worldSpace state = false -> (numParticles < length (mCollisionPlanes self))%nat ->
  localPlanes' self state numParticles = None.
Proof.
  intros Hws Hlt. unfold localPlanes', localPlanes. rewrite Hws.
  replace (length (mCollisionPlanes self))
    with (numParticles + Datatypes.S (length (mCollisionPlanes self) - Datatypes.S numParticles))%nat
    by lia.
  rewrite for_loop_app.
  rewrite (localPlanes_prefix self state numParticles numParticles) by lia.
  simpl.
  destruct (lookup_lt_is_Some_2 (mCollisionPlanes self) numParticles Hlt) as [pl Hpl].
  rewrite Hpl. simpl. unfold buf_write.
  rewrite store_None; [done|].
  rewrite length_app, !length_fmap, length_take, length_replicate. lia.
Qed.

(** C2, on the code: in plane mode with particles in local space the
    scratch storage is allocated with one slot per particle, so with fewer
    particles than planes the write of the transformed plane of index
    [numParticles] falls outside the allocation and the evolver has no
    defined result. *)
Theorem C2_scratch_sized_by_particle_count (self : ParticleCollisions) (random : Random)
    (state : ParticleSystemState Matrix4) (set : ParticleSet) :
  mode (pc_mDesc self) = Plane_mode ->
  worldSpace state = false ->
  (getParticleCount set < length (mCollisionPlanes self))%nat ->
  localPlanes' self state (getParticleCount set) = None
  /\ evolve self random state set = None.
Proof.
  intros Hmode Hws Hlt.
  pose proof (localPlanes_overflow self state _ Hws Hlt) as Hnone.
  split; [exact Hnone|].
  unfold evolve, ParticleCollisions_evolve, evolvePlanes. rewrite Hmode.
  unfold localPlanes' in Hnone. by rewrite Hnone.
Qed.

(** *** The scan of the planes *)

Lemma find_first {A : Type} (f : A -> bool) (l : list A) :
  forall (j : nat) (x : A),
    l !! j = Some x -> f x = true ->
    (forall j' y, (j' < j)%nat -> l !! j' = Some y -> f y = false) ->
    find f l = Some x.
Proof.
  induction l as [|a l IH]; intros j x Hj Hx Hbefore; [done|].
  destruct j as [|j]; simpl in *.
  - simplify_eq. by rewrite Hx.
  - rewrite (Hbefore 0%nat a) by (done || lia).
    apply (IH j); [done..|]. intros j' y Hj' Hy. apply (Hbefore (Datatypes.S j')); [lia|done].
Qed.

Lemma find_nowhere {A : Type} (f : A -> bool) (l : list A) :
  (forall j y, l !! j = Some y -> f y = false) -> find f l = None.
Proof.
  induction l as [|a l IH]; intros Hall; [done|]. simpl.
  rewrite (Hall 0%nat a) by done. apply IH. intros j y Hy. by apply (Hall (Datatypes.S j)).
Qed.

Lemma applyHit_Some desc i h particles p v l il :
  position particles !! i = Some p -> velocity particles !! i = Some v ->
  lifetime particles !! i = Some l -> initialLifetime particles !! i = Some il ->
  applyHit desc i h particles
  = Some (mkParticles
            (<[i := fst (calcCollisionResponse p v h desc)]> (position particles))
            (<[i := snd (calcCollisionResponse p v h desc)]> (velocity particles))
            (<[i := F32.sub l (F32.mul (lifetimeLoss desc) il)]> (lifetime particles))
            (initialLifetime particles) (seed particles) (frame particles)).
Proof.
  intros Hp Hv Hl Hil. unfold applyHit. rewrite Hp, Hv. simpl.
  destruct (calcCollisionResponse p v h desc) as [p' v'] eqn:Hr. simpl.
  rewrite store_Some by (by eapply lookup_lt_Some). simpl.
  rewrite store_Some by (by eapply lookup_lt_Some). simpl.
  rewrite Hl, Hil. simpl.
  by rewrite store_Some by (by eapply lookup_lt_Some).
Qed.

Lemma collidePlane_step desc (planes : buffer Plane) p v i j particles pl :
  buf_read planes j = Some pl ->
  collidePlane desc planes p v i j particles
  = if planeQualifies desc p v pl
    then particles' ← applyHit desc i (planeHit desc p v pl i) particles;
         Some (Break particles')
    else Some (Continue particles).
Proof.
  intros Hpl. unfold collidePlane, planeQualifies. rewrite Hpl. simpl.
  destruct (F32.gtb (getDistance pl p) (radius desc)); simpl; [done|].
  by destruct (Math.approxEquals (Vec.dot (plane_normal pl) v) F32.zero).
Qed.

Lemma scan_planes desc (planes : buffer Plane) (planes_eff : list Plane) p v i particles :
  (forall j, (j < length planes_eff)%nat -> buf_read planes j = planes_eff !! j) ->
  forall n j, (j + n = length planes_eff)%nat ->
    for_break n j (collidePlane desc planes p v i) particles
    = match find (planeQualifies desc p v) (drop j planes_eff) with
      | Some plane => applyHit desc i (planeHit desc p v plane i) particles
      | None => Some particles
      end.
Proof.
  intros Hread. induction n as [|n IH]; intros j Hj.
  - rewrite drop_ge by lia. done.
  - destruct (lookup_lt_is_Some_2 planes_eff j ltac:(lia)) as [pl Hpl].
    rewrite (drop_S _ _ _ Hpl). cbn [for_break find].
    rewrite (collidePlane_step desc planes p v i j particles pl)
      by (rewrite Hread by lia; exact Hpl).
    destruct (planeQualifies desc p v pl); simpl.
    + by destruct (applyHit desc i (planeHit desc p v pl i) particles).
    + apply IH. lia.
Qed.

Lemma planes_loop desc (planes : buffer Plane) (planes_eff : list Plane) n p0 :
  (forall j, (j < length planes_eff)%nat -> buf_read planes j = planes_eff !! j) ->
  (n <= length (position p0))%nat -> (n <= length (velocity p0))%nat ->
  (n <= length (lifetime p0))%nat -> (n <= length (initialLifetime p0))%nat ->
  exists q,
    for_loop n 0 (collideParticle desc planes (length planes_eff)) p0 = Some q
    /\ planesInv desc planes_eff p0 n q.
Proof.
  intros Hread Hp Hv Hl Hil.
  apply (for_loop_inv (planesInv desc planes_eff p0)).
  - repeat split; try done. intros i Hi. lia.
  - intros k q Hk (Lp & Lv & Ll & Eil & Es & Ef & Hrest & Hdone).
    destruct (lookup_lt_is_Some_2 (position p0) k ltac:(lia)) as [p Hpk].
    destruct (lookup_lt_is_Some_2 (velocity p0) k ltac:(lia)) as [v Hvk].
    destruct (lookup_lt_is_Some_2 (lifetime p0) k ltac:(lia)) as [l Hlk].
    destruct (lookup_lt_is_Some_2 (initialLifetime p0) k ltac:(lia)) as [il Hilk].
    destruct (Hrest k (Nat.le_refl k)) as (Hqp & Hqv & Hql).
    unfold collideParticle. rewrite Hqp, Hpk. simpl. rewrite Hqv, Hvk. simpl.
    rewrite (scan_planes desc planes planes_eff p v k q Hread _ 0%nat) by lia.
    rewrite drop_0.
    destruct (find (planeQualifies desc p v) planes_eff) as [plane|] eqn:Hfind.
    + rewrite (applyHit_Some desc k _ q p v l il) by congruence.
      eexists. split; [reflexivity|].
      repeat split; simpl; rewrite ?length_insert; try done.
      * rewrite list_lookup_insert_ne by lia. by apply Hrest; lia.
      * rewrite list_lookup_insert_ne by lia. by apply Hrest; lia.
      * rewrite list_lookup_insert_ne by lia. by apply Hrest; lia.
      * intros i Hi. destruct (decide (i = k)) as [->|Hne].
        -- intros p' v' l' il' Hp' Hv' Hl' Hil'. simplify_eq. rewrite Hfind. simpl.
           rewrite !list_lookup_insert_eq by lia. done.
        -- intros p' v' l' il' Hp' Hv' Hl' Hil'.
           specialize (Hdone i ltac:(lia) p' v' l' il' Hp' Hv' Hl' Hil').
           destruct (find (planeQualifies desc p' v') planes_eff); simpl in *;
             by rewrite !list_lookup_insert_ne by lia.
    + eexists. split; [reflexivity|].
      repeat split; try done.
      * by apply Hrest; lia.
      * by apply Hrest; lia.
      * by apply Hrest; lia.
      * intros i Hi. destruct (decide (i = k)) as [->|Hne].
        -- intros p' v' l' il' Hp' Hv' Hl' Hil'. simplify_eq. rewrite Hfind.
           by rewrite Hqp, Hqv, Hql.
        -- apply Hdone. lia.
Qed.

Lemma planeQualifies_gates desc (p v : Vector3) (plane : Plane) :
  planeQualifies desc p v plane = false
  <-> F32.gtb (getDistance plane p) (radius desc) = true
      \/ Math.approxEquals (Vec.dot (plane_normal plane) v) F32.zero = true.
Proof.
  unfold planeQualifies.
  destruct (F32.gtb (getDistance plane p) (radius desc));
    destruct (Math.approxEquals (Vec.dot (plane_normal plane) v) F32.zero);
    simpl; split; intros H; try done; try (by left); try (by right).
  by destruct H.
Qed.


(** *** Group raycast *)

Let groupRaycast' :=
  groupRaycast AABox INF_BOX merge Quaternion IDENTITY Collider _boxOverlap rayCast.
Let groupBounds' := groupBounds AABox INF_BOX merge.

Lemma nearestStep_idx ray length (hitColliders : list Collider) :
  forall acc,
    hit_idx (snd (fold_left (nearestStep Collider rayCast ray length) hitColliders acc))
    = hit_idx (snd acc).
Proof.
  induction hitColliders as [|c cs IH]; intros acc; simpl; [done|].
  rewrite IH. unfold nearestStep.
  destruct (rayCast c ray length) as [q|]; [|done].
  by destruct (F32.ltb (qh_distance q) (fst acc)).
Qed.

Lemma raycastPost_empty hitColliders segments hits numRays :
  raycastPost hitColliders segments hits numRays 0%nat hits.
Proof. repeat split; try done; try lia; intros; lia. Qed.

Lemma raycast_loop hitColliders (segments : buffer LineSegment3)
    (hits : buffer ParticleHitInfo) (numRays : nat) :
  (forall i, (i < numRays)%nat -> is_Some (buf_read segments i)) ->
  (numRays <= length hits)%nat ->
  exists numHits hits',
    for_loop numRays 0 (raycastSegment Collider rayCast hitColliders segments) (0%nat, hits)
    = Some (numHits, hits')
    /\ raycastPost hitColliders segments hits numRays numHits hits'.
Proof.
  intros Hsegs Hcap.
  destruct (for_loop_inv
    (fun k st => (k <= numRays)%nat ->
                 raycastPost hitColliders segments hits k (fst st) (snd st))
    (raycastSegment Collider rayCast hitColliders segments)
    numRays 0%nat (0%nat, hits)) as ([numHits hits'] & Hrun & Hpost).
  - intros _. apply raycastPost_empty.
  - intros k [numHits hs] Hk Hinv.
    destruct (Hinv ltac:(lia)) as (Hle & Hlen & Hhits & Hinc & Hrest). simpl in *.
    destruct (Hsegs k ltac:(lia)) as [seg Hseg].
    unfold raycastSegment. rewrite Hseg. simpl.
    assert (Hkeep : (Datatypes.S k <= numRays)%nat ->
                    raycastPost hitColliders segments hits (Datatypes.S k) numHits hs).
    { intros _. repeat split; [lia|done| |done|done].
      intros j Hj. destruct (Hhits j Hj) as (h & sg & ? & ? & ? & ?).
      exists h, sg. repeat split; try done. lia. }
    destruct (segmentRay seg) as [[ray length]|] eqn:Hray.
    + destruct (fold_left _ _ _) as [nearest hitInfo] eqn:Hfold.
      destruct (F32.neqb nearest F32.FLT_MAX) eqn:Hneq.
      * unfold buf_write. rewrite store_Some by lia. simpl.
        eexists. split; [reflexivity|]. intros _. simpl.
        assert (Hidx : hit_idx hitInfo = k).
        { change hitInfo with (snd (nearest, hitInfo)). rewrite <- Hfold.
          by rewrite nearestStep_idx. }
        assert (Hnew : buf_read (<[numHits := Some hitInfo]> hs) numHits = Some hitInfo).
        { apply buf_read_Some. apply list_lookup_insert_eq. lia. }
        assert (Hold : forall j, (j < numHits)%nat ->
                  buf_read (<[numHits := Some hitInfo]> hs) j = buf_read hs j).
        { intros j Hj. unfold buf_read. by rewrite list_lookup_insert_ne by lia. }
        repeat split.
        -- lia.
        -- by rewrite length_insert.
        -- intros j Hj. destruct (decide (j = numHits)) as [->|Hne].
           ++ exists hitInfo, seg. rewrite Hidx. repeat split; [done|lia|done|].
              exists ray, length. unfold nearestHit. rewrite Hidx, Hfold. by simpl.
           ++ destruct (Hhits j ltac:(lia)) as (h & sg & ? & ? & ? & ?).
              exists h, sg. rewrite Hold by lia. repeat split; try done. lia.
        -- intros j1 j2 h1 h2 Hj Hh1 Hh2.
           rewrite Hold in Hh1 by lia.
           destruct (decide (j2 = numHits)) as [->|Hne].
           ++ rewrite Hnew in Hh2. simplify_eq.
              destruct (Hhits j1 ltac:(lia)) as (h & sg & Hh & Hlt & _).
              rewrite Hh in Hh1. simplify_eq. lia.
           ++ rewrite Hold in Hh2 by lia. apply (Hinc j1 j2); [lia|done..].
        -- intros j Hj. rewrite list_lookup_insert_ne by lia. apply Hrest. lia.
      * eexists. split; [reflexivity|]. exact Hkeep.
    + eexists. split; [reflexivity|]. exact Hkeep.
  - exists numHits, hits'. split; [exact Hrun|]. apply Hpost. lia.
Qed.

Lemma groupBounds_total (segments : buffer LineSegment3) (numRays : nat) :
  (forall i, (i < numRays)%nat -> is_Some (buf_read segments i)) ->
  is_Some (groupBounds' segments numRays).
Proof.
  intros Hsegs. unfold groupBounds', groupBounds.
  destruct (for_loop_inv (fun _ (_ : AABox) => True)
    (fun i box => seg ← buf_read segments i;
                  Some (merge (merge box (seg_start seg)) (seg_end seg)))
    numRays 0%nat INF_BOX) as (box & Hbox & _); [done| |by eexists].
  intros k t Hk _. destruct (Hsegs k ltac:(lia)) as [seg Hseg].
  rewrite Hseg. simpl. by eexists.
Qed.

(** The batcher returns on every well-formed input, with hits that are
    dense, in increasing order of segment, and taken from the nearest
    collider struck by the segment they name. *)
Lemma groupRaycast_spec (segments : buffer LineSegment3) (hits : buffer ParticleHitInfo)
    (numRays : nat) (layer : Z) :
  (forall i, (i < numRays)%nat -> is_Some (buf_read segments i)) ->
  (numRays <= length hits)%nat ->
  exists numHits hits' hitColliders,
    groupRaycast' segments hits numRays layer = Some (numHits, hits')
    /\ (numRays = 0%nat
        \/ exists bounds, groupBounds' segments numRays = Some bounds
                          /\ hitColliders = _boxOverlap bounds IDENTITY layer)
    /\ raycastPost hitColliders segments hits numRays numHits hits'.
Proof.
  intros Hsegs Hcap. unfold groupRaycast', groupRaycast.
  case_decide as Hzero.
  - exists 0%nat, hits, []. split; [done|]. split; [by left|]. apply raycastPost_empty.
  - destruct (groupBounds_total segments numRays Hsegs) as [bounds Hbounds].
    unfold groupBounds' in Hbounds. rewrite Hbounds. simpl.
    destruct (_boxOverlap bounds IDENTITY layer) as [|c cs] eqn:Hcs.
    + exists 0%nat, hits, []. split; [done|].
      split; [right; by exists bounds|]. apply raycastPost_empty.
    + destruct (raycast_loop (c :: cs) segments hits numRays Hsegs Hcap)
        as (numHits & hits' & Hrun & Hpost).
      exists numHits, hits', (c :: cs). split; [exact Hrun|].
      split; [right; by exists bounds|]. exact Hpost.
Qed.

(** C10: on [numRays] readable segments and a caller's array [hits] with
    at least [numRays] slots, the batcher returns (no write leaves the
    array) a count [numHits <= numRays]; the slots below [numHits] hold
    hits whose index is below [numRays] and names the segment whose
    narrow phase produced them; the indices increase strictly with the
    slot, so no segment has two hits; the other slots of the array are as
    the caller left them. *)
Theorem C10_hits_dense_and_in_bounds (segments : buffer LineSegment3)
    (hits : buffer ParticleHitInfo) (numRays : nat) (layer : Z) :
  (forall i, (i < numRays)%nat -> is_Some (buf_read segments i)) ->
  (numRays <= length hits)%nat ->
  exists numHits hits' hitColliders,
    groupRaycast' segments hits numRays layer = Some (numHits, hits')
    /\ (numHits <= numRays)%nat
    /\ length hits' = length hits
    /\ (forall j, (j < numHits)%nat ->
          exists h seg, buf_read hits' j = Some h /\ (hit_idx h < numRays)%nat
                        /\ buf_read segments (hit_idx h) = Some seg
                        /\ producedBy hitColliders seg h)
    /\ (forall j1 j2 h1 h2, (j1 < j2 < numHits)%nat ->
          buf_read hits' j1 = Some h1 -> buf_read hits' j2 = Some h2 ->
          (hit_idx h1 < hit_idx h2)%nat)
    /\ (forall j, (numHits <= j)%nat -> hits' !! j = hits !! j).
Proof.
  intros Hsegs Hcap.
  destruct (groupRaycast_spec segments hits numRays layer Hsegs Hcap)
    as (numHits & hits' & hitColliders & Hrun & _ & Hpost).
  exists numHits, hits', hitColliders. split; [exact Hrun|]. exact Hpost.
Qed.

(** *** Degenerate segments *)

Lemma approxEquals_zero (x : float) :
  F32.is_zero x = true -> Math.approxEquals x F32.zero = true.
Proof. destruct x as [[|]| | |]; intros H; try discriminate; reflexivity. Qed.

Lemma sub_self (x : float) :
  F32.is_finite x = true -> F32.sub x x = F32.zero.
Proof.
  destruct x as [[|]| | |s m e]; intros H; try discriminate; try reflexivity.
  unfold F32.sub, SFsub. by rewrite Z.sub_diag.
Qed.

Lemma length_sub_self (a : Vector3) :
  finiteVector a -> Vec.length (Vec.sub a a) = F32.zero.
Proof.
  intros (Hx & Hy & Hz). unfold Vec.sub. by rewrite !sub_self.
Qed.

Lemma segmentRay_skips (seg : LineSegment3) :
  Math.approxEquals (Vec.length (Vec.sub (seg_end seg) (seg_start seg))) F32.zero = true ->
  segmentRay seg = None.
Proof. intros H. unfold segmentRay. by rewrite H. Qed.

Lemma segmentRay_divisor (seg : LineSegment3) (ray : Ray) (length : float) :
  segmentRay seg = Some (ray, length) ->
  length = Vec.length (Vec.sub (seg_end seg) (seg_start seg))
  /\ F32.is_zero length = false
  /\ ray = mkRay (seg_start seg) (Vec.divide (Vec.sub (seg_end seg) (seg_start seg)) length).
Proof.
  unfold segmentRay. intros H.
  destruct (Math.approxEquals _ _) eqn:Happrox; [done|]. simplify_eq.
  repeat split. destruct (F32.is_zero _) eqn:Hz; [|done].
  by rewrite (approxEquals_zero _ Hz) in Happrox.
Qed.

(** C7: the batcher returns on every well-formed input, and a segment
    whose length is about zero is skipped: no ray is built for it, so its
    direction is never normalized, and no emitted hit carries its index.
    A ray is only ever built by dividing by a length that is not zero, and
    a segment whose two ends are the same finite point has a length of
    about zero. *)
Theorem C7_degenerate_segment_skipped (segments : buffer LineSegment3)
    (hits : buffer ParticleHitInfo) (numRays : nat) (layer : Z) :
  (forall i, (i < numRays)%nat -> is_Some (buf_read segments i)) ->
  (numRays <= length hits)%nat ->
  (exists numHits hits',
     groupRaycast' segments hits numRays layer = Some (numHits, hits')
     /\ forall i seg,
          buf_read segments i = Some seg ->
          Math.approxEquals (Vec.length (Vec.sub (seg_end seg) (seg_start seg))) F32.zero
            = true ->
          segmentRay seg = None
          /\ forall j h, (j < numHits)%nat -> buf_read hits' j = Some h -> hit_idx h <> i)
  /\ (forall seg ray length,
        segmentRay seg = Some (ray, length) ->
        F32.is_zero length = false
        /\ ray_direction ray
           = Vec.divide (Vec.sub (seg_end seg) (seg_start seg)) length)
  /\ (forall seg,
        seg_start seg = seg_end seg -> finiteVector (seg_start seg) ->
        Math.approxEquals (Vec.length (Vec.sub (seg_end seg) (seg_start seg))) F32.zero
          = true).
Proof.
  intros Hsegs Hcap. split; [|split].
  - destruct (groupRaycast_spec segments hits numRays layer Hsegs Hcap)
      as (numHits & hits' & hitColliders & Hrun & _ & Hpost).
    exists numHits, hits'. split; [exact Hrun|].
    intros i seg Hseg Happrox. split; [by apply segmentRay_skips|].
    intros j h Hj Hh Hidx.
    destruct Hpost as (_ & _ & Hhits & _).
    destruct (Hhits j Hj) as (h' & seg' & Hh' & _ & Hseg' & (ray & length & Hray & _)).
    rewrite Hh in Hh'. simplify_eq.
    by rewrite (segmentRay_skips _ Happrox) in Hray.
  - intros seg ray length Hray.
    destruct (segmentRay_divisor _ _ _ Hray) as (_ & Hnz & ->). by split.
  - intros seg Heq Hfin. rewrite <- Heq, length_sub_self by done. reflexivity.
Qed.

(** *** World geometry *)

Let buildSegments' := buildSegments Matrix4 multiplyAffine.

Lemma buildSegments_total (state : ParticleSystemState Matrix4) (n : nat)
    (particles : ParticleSetData) :
  (n <= length (position particles))%nat -> (n <= length (velocity particles))%nat ->
  exists segments,
    buildSegments' state n particles = Some segments
    /\ length segments = n
    /\ forall i, (i < n)%nat -> is_Some (buf_read segments i).
Proof.
  intros Hp Hv. unfold buildSegments', buildSegments.
  destruct (for_loop_inv
    (fun k (segs : buffer LineSegment3) =>
       length segs = n /\ forall i, (i < k)%nat -> is_Some (buf_read segs i))
    (fun i segs =>
       position_i ← position particles !! i;
       velocity_i ← velocity particles !! i;
       let from := Vec.sub position_i (Vec.scale velocity_i (timeStep state)) in
       buf_write segs i (mkLineSegment3 from position_i))
    n 0%nat (bs_stack_alloc n)) as (segs & Hsegs & Hlen & Hinit).
  - split; [apply length_replicate|]. intros i Hi. lia.
  - intros k t Hk [Hlen Hinit].
    destruct (lookup_lt_is_Some_2 (position particles) k ltac:(lia)) as [p Hpk].
    destruct (lookup_lt_is_Some_2 (velocity particles) k ltac:(lia)) as [v Hvk].
    rewrite Hpk, Hvk. simpl. unfold buf_write. rewrite store_Some by lia.
    eexists. split; [reflexivity|]. split; [by rewrite length_insert|].
    intros i Hi. destruct (decide (i = k)) as [->|Hne].
    + eexists. apply buf_read_Some. apply list_lookup_insert_eq. lia.
    + unfold buf_read. rewrite list_lookup_insert_ne by lia. apply Hinit. lia.
  - cbv zeta in Hsegs. rewrite Hsegs. simpl. destruct (worldSpace state).
    + exists segs. by repeat split.
    + destruct (for_loop_inv
        (fun _ (t : buffer LineSegment3) =>
           length t = n /\ forall i, (i < n)%nat -> is_Some (buf_read t i))
        (fun i t =>
           seg ← buf_read t i;
           buf_write t i
             (mkLineSegment3 (multiplyAffine (localToWorld state) (seg_start seg))
                             (multiplyAffine (localToWorld state) (seg_end seg))))
        n 0%nat segs) as (segs' & Hsegs' & Hlen' & Hinit').
      * split; [done|]. intros i Hi. apply Hinit. lia.
      * intros k t Hk [Hlent Hinitt].
        destruct (Hinitt k ltac:(lia)) as [seg Hseg]. rewrite Hseg. simpl.
        unfold buf_write. rewrite store_Some by lia.
        eexists. split; [reflexivity|]. split; [by rewrite length_insert|].
        intros i Hi. destruct (decide (i = k)) as [->|Hne].
        -- eexists. apply buf_read_Some. apply list_lookup_insert_eq. lia.
        -- unfold buf_read. rewrite list_lookup_insert_ne by lia. by apply Hinitt.
      * exists segs'. by repeat split.
Qed.

(** C6: in world-geometry mode, on a buffer with a slot for every
    particle, when the box-overlap query on the bounds of the segments
    returns no collider, the batcher returns zero hits and the evolver
    returns the particle set it was given: lifetimes, positions and
    velocities (and every other field) are unchanged. *)
Theorem C6_no_colliders_no_change (self : ParticleCollisions) (random : Random)
    (state : ParticleSystemState Matrix4) (set : ParticleSet) :
  mode (pc_mDesc self) = World_mode ->
  set_wf set ->
  (forall segments bounds,
     buildSegments' state (getParticleCount set) (getParticles set) = Some segments ->
     groupBounds' segments (getParticleCount set) = Some bounds ->
     _boxOverlap bounds IDENTITY (layer (pc_mDesc self)) = []) ->
  (exists segments,
     buildSegments' state (getParticleCount set) (getParticles set) = Some segments
     /\ groupRaycast' segments (bs_stack_alloc (getParticleCount set))
          (getParticleCount set) (layer (pc_mDesc self))
        = Some (0%nat, bs_stack_alloc (getParticleCount set)))
  /\ evolve self random state set = Some set.
Proof.
  intros Hmode (Hp & Hv & _) Hempty.
  destruct (buildSegments_total state _ _ Hp Hv) as (segments & Hsegs & Hlen & Hinit).
  assert (Hcast : groupRaycast' segments (bs_stack_alloc (getParticleCount set))
                    (getParticleCount set) (layer (pc_mDesc self))
                  = Some (0%nat, bs_stack_alloc (getParticleCount set))).
  { unfold groupRaycast', groupRaycast. case_decide; [done|].
    destruct (groupBounds_total segments _ Hinit) as [bounds Hbounds].
    pose proof (Hempty segments bounds Hsegs Hbounds) as Hnone.
    unfold groupBounds' in Hbounds. rewrite Hbounds. simpl. by rewrite Hnone. }
  split; [by exists segments|].
  unfold evolve, ParticleCollisions_evolve, evolveWorld. rewrite Hmode.
  unfold buildSegments' in Hsegs. rewrite Hsegs. simpl.
  unfold groupRaycast' in Hcast. rewrite Hcast. simpl.
  unfold hitsToLocal. destruct (worldSpace state); simpl; by destruct set.
Qed.

End CollisionProperties.

(** * Further properties *)

(** ** Zeros in binary32 *)

Lemma nonneg_cases (x : float) (v : Z) :
  nonneg x v -> (exists s, x = S754_zero s) \/ (exists m e, x = S754_finite false m e).
Proof. intros [s|m e _ _]; [left; by exists s|right; by exists m, e]. Qed.

Lemma mul_zero_l (z x : float) (v : Z) :
  F32.is_zero z = true -> nonneg x v -> F32.is_zero (F32.mul z x) = true.
Proof.
  destruct z as [s| | |]; try discriminate. intros _ [sx|m e _ _]; reflexivity.
Qed.

Lemma mul_zero_r (x z : float) (v : Z) :
  nonneg x v -> F32.is_zero z = true -> F32.is_zero (F32.mul x z) = true.
Proof.
  destruct z as [s| | |]; try discriminate. intros [sx|m e _ _] _; reflexivity.
Qed.

Lemma repeat_zero (z : float) :
  F32.is_zero z = true -> F32.is_zero (Math.repeat z F32.one) = true.
Proof. destruct z as [[|]| | |]; try discriminate; intros _; reflexivity. Qed.

Lemma clamp_zero (z hi : float) (v : Z) :
  F32.is_zero z = true -> nonneg hi v -> Math.clamp z F32.zero hi = z.
Proof.
  destruct z as [s| | |]; try discriminate. intros _ Hhi.
  unfold Math.clamp, F32.min, F32.max.
  assert (H : F32.ltb hi (S754_zero s) = false) by (destruct Hhi; reflexivity).
  rewrite H. reflexivity.
Qed.

Lemma add_of_Z_zero (k : Z) (z : float) :
  0 <= k < UINT32_MOD -> F32.is_zero z = true -> F32.add (F32.of_Z k) z = F32.of_Z k.
Proof.
  intros Hk Hz. destruct z as [s| | |]; try discriminate.
  destruct (Z.eq_dec k 0) as [->|Hne].
  - destruct s; reflexivity.
  - destruct (of_Z_pos_finite k ltac:(lia)) as (m & e & -> & _). reflexivity.
Qed.

(** ** Texture animation, further properties *)

Section TextureAnimationFurther.

Variable Random : Type.
Variable Random_new : Z -> Random.
Variable getRange : Random -> Z -> Z -> Z.
Variable Matrix4 : Type.

Let evolve := ParticleTextureAnimation_evolve Random Random_new getRange Matrix4.
Local Abbreviation frameOf := (frameOf Random Random_new getRange).
Local Abbreviation frameRange := (frameRange Random Random_new getRange).
Local Abbreviation animateParticle := (animateParticle Random Random_new getRange).

Lemma scaledFrame_fresh desc (il : float) (numFrames : Z) :
  F32.is_finite il = true -> F32.is_zero il = false ->
  0 <= numCycles desc < UINT32_MOD -> 0 <= numFrames < UINT32_MOD ->
  F32.is_zero (scaledFrame desc il il numFrames) = true.
Proof.
  intros Hfin Hnz Hc Hn. unfold scaledFrame.
  rewrite (sub_self il Hfin).
  destruct (of_Z_UINT32 _ Hc) as [vc Hvc]. destruct (of_Z_UINT32 _ Hn) as [vn Hvn].
  apply (mul_zero_l _ _ vn); [|exact Hvn].
  apply repeat_zero. apply (mul_zero_r _ _ vc); [exact Hvc|].
  destruct il as [s|s| |s m e]; try discriminate. reflexivity.
Qed.

Lemma frameValue_zero (frameOffset numFrames : Z) (z : float) :
  F32.is_zero z = true -> 0 <= frameOffset < UINT32_MOD ->
  frameValue frameOffset numFrames z = F32.of_Z frameOffset.
Proof.
  intros Hz Hoff. unfold frameValue.
  assert (Hu : 0 <= to_UINT32 (numFrames - 1) < UINT32_MOD).
  { unfold to_UINT32. apply Z.mod_pos_bound. reflexivity. }
  destruct (of_Z_UINT32 _ Hu) as [v Hv].
  rewrite (clamp_zero z _ v Hz Hv). by apply add_of_Z_zero.
Qed.

Lemma frameRange_UINT32 desc gridAnim (p : ParticleSetData) (i : nat) frameOffset numFrames :
  gridInRange gridAnim ->
  frameRange desc gridAnim p i = Some (frameOffset, numFrames) ->
  0 <= frameOffset < UINT32_MOD /\ 0 <= numFrames < UINT32_MOD.
Proof.
  intros (Hr & Hc & Hn). unfold frameRange. intros H.
  destruct (randomizeRow desc).
  - destruct (seed p !! i) as [sd|]; simpl in H; [|done]. simplify_eq.
    split; [|exact Hc]. unfold to_UINT32. apply Z.mod_pos_bound. reflexivity.
  - simplify_eq. split; [unfold UINT32_MOD; lia|exact Hn].
Qed.

Lemma frameOf_sameButFrame desc gridAnim (p q : ParticleSetData) (i : nat) :
  sameButFrame p q -> frameOf desc gridAnim q i = frameOf desc gridAnim p i.
Proof.
  intros (_ & _ & Hl & Hil & Hs & _). unfold frameOf.
  rewrite (frameRange_seed _ _ _ desc gridAnim p q i Hs). by rewrite Hl, Hil.
Qed.

Lemma animateParticle_frameOf desc gridAnim (i : nat) (q q' : ParticleSetData) :
  animateParticle desc gridAnim i q = Some q' ->
  exists f, frameOf desc gridAnim q i = Some f /\ (i < length (frame q))%nat
            /\ q' = set_frame q (<[i := f]> (frame q)).
Proof.
  unfold animateParticle, frameOf. intros H.
  destruct (frameRange desc gridAnim q i) as [[off nf]|]; simpl in *; [|done].
  destruct (initialLifetime q !! i) as [il|]; simpl in *; [|done].
  destruct (lifetime q !! i) as [l|]; simpl in *; [|done].
  destruct (store _ _ _) as [frame'|] eqn:Hst; simpl in H; [|done].
  apply store_inv in Hst as [Hlen ->]. simplify_eq. eexists. by repeat split.
Qed.

(** The frames after the loop of the valid path: computed below the
    particle count, untouched above it. *)
Lemma animation_frames desc gridAnim (n : nat) (p : ParticleSetData) :
  (n <= length (initialLifetime p))%nat -> (n <= length (lifetime p))%nat ->
  (n <= length (seed p))%nat -> (n <= length (frame p))%nat ->
  exists q,
    for_loop n 0 (animateParticle desc gridAnim) p = Some q
    /\ sameButFrame p q
    /\ (forall i, (i < n)%nat -> frame q !! i = frameOf desc gridAnim p i)
    /\ (forall i, (n <= i)%nat -> frame q !! i = frame p !! i).
Proof.
  intros Hil Hl Hs Hf.
  destruct (for_loop_inv
    (fun k q => sameButFrame p q
                /\ (forall i, (i < k)%nat -> frame q !! i = frameOf desc gridAnim p i)
                /\ (forall i, (k <= i)%nat -> frame q !! i = frame p !! i))
    (animateParticle desc gridAnim) n 0%nat p) as (q & Hq & Hsame & Hlow & Hhigh).
  - split; [apply sameButFrame_refl|]. split; [intros i Hi; lia|done].
  - intros k t Hk (Hsame & Hlow & Hhigh).
    destruct (animateParticle_total Random Random_new getRange desc gridAnim t k) as [t' Ht'].
    + destruct Hsame as (_&_&_&->&_&_). lia.
    + destruct Hsame as (_&_&->&_&_&_). lia.
    + destruct Hsame as (_&_&_&_&->&_). lia.
    + destruct Hsame as (_&_&_&_&_&->). lia.
    + exists t'. split; [exact Ht'|].
      destruct (animateParticle_frameOf _ _ _ _ _ Ht') as (f & Hf' & Hlen & ->).
      split; [by apply sameButFrame_set_frame|].
      rewrite (frameOf_sameButFrame _ _ _ _ _ Hsame) in Hf'.
      unfold set_frame; cbn [frame]. split.
      * intros i Hi. destruct (decide (i = k)) as [->|Hne].
        -- rewrite Hf'. by apply list_lookup_insert_eq.
        -- rewrite list_lookup_insert_ne by congruence. apply Hlow. lia.
      * intros i Hi. rewrite list_lookup_insert_ne by lia. apply Hhigh. lia.
  - exists q. split; [exact Hq|]. split; [exact Hsame|]. split; [exact Hlow|exact Hhigh].
Qed.

Lemma fallback_frames (n : nat) (p : ParticleSetData) :
  (n <= length (frame p))%nat ->
  exists q,
    for_loop n 0
      (fun i p => frame' ← store (frame p) i F32.zero; Some (set_frame p frame')) p
    = Some q
    /\ sameButFrame p q
    /\ (forall i, (i < n)%nat -> frame q !! i = Some F32.zero)
    /\ (forall i, (n <= i)%nat -> frame q !! i = frame p !! i).
Proof.
  intros Hn.
  destruct (for_loop_inv
    (fun k q => sameButFrame p q
                /\ (forall i, (i < k)%nat -> frame q !! i = Some F32.zero)
                /\ (forall i, (k <= i)%nat -> frame q !! i = frame p !! i))
    (fun i p => frame' ← store (frame p) i F32.zero; Some (set_frame p frame'))
    n 0%nat p) as (q & Hq & Hsame & Hlow & Hhigh).
  - split; [apply sameButFrame_refl|]. split; [intros i Hi; lia|done].
  - intros k t Hk (Hsame & Hlow & Hhigh).
    assert (Hlen : (k < length (frame t))%nat).
    { destruct Hsame as (_&_&_&_&_&->). lia. }
    rewrite (store_Some _ _ _ Hlen). simpl. eexists. split; [reflexivity|].
    split; [by apply sameButFrame_set_frame|].
    unfold set_frame; cbn [frame]. split.
    + intros i Hi. destruct (decide (i = k)) as [->|Hne].
      * by apply list_lookup_insert_eq.
      * rewrite list_lookup_insert_ne by congruence. apply Hlow. lia.
    + intros i Hi. rewrite list_lookup_insert_ne by lia. apply Hhigh. lia.
  - exists q. split; [exact Hq|]. split; [exact Hsame|]. split; [exact Hlow|exact Hhigh].
Qed.

Lemma sameButFrame_eq (p q : ParticleSetData) :
  sameButFrame p q -> frame q = frame p -> q = p.
Proof.
  destruct p, q. unfold sameButFrame. simpl. intros (?&?&?&?&?&?) ?. by subst.
Qed.

(** X1: on the valid path, a particle that has not aged yet (its lifetime
    is its initial lifetime, a finite number other than zero) shows the
    first frame of its row: [frame[i]] is exactly [(float)frameOffset]. *)
Theorem X1_fresh_particle_first_frame (self : ParticleTextureAnimation) (random : Random)
    (state : ParticleSystemState Matrix4) (set : ParticleSet)
    (gridAnim : SpriteSheetGridAnimation) (i : nat) (il : float) :
  validAnimation self = Some gridAnim ->
  set_wf set ->
  gridInRange gridAnim ->
  0 <= numCycles (ta_mDesc self) < UINT32_MOD ->
  (i < getParticleCount set)%nat ->
  initialLifetime (getParticles set) !! i = Some il ->
  lifetime (getParticles set) !! i = Some il ->
  F32.is_finite il = true -> F32.is_zero il = false ->
  exists set' frameOffset numFrames,
    evolve self random state set = Some set'
    /\ frameRange (ta_mDesc self) gridAnim (getParticles set) i = Some (frameOffset, numFrames)
    /\ frame (getParticles set') !! i = Some (F32.of_Z frameOffset).
Proof.
  intros Hanim (_ & _ & Hl & Hil & Hs & Hf) Hgrid Hcycles Hi Hili Hli Hfin Hnz.
  destruct (animation_frames (ta_mDesc self) gridAnim _ _ Hil Hl Hs Hf)
    as (q & Hq & _ & Hlow & _).
  assert (Hrange : is_Some (frameRange (ta_mDesc self) gridAnim (getParticles set) i)).
  { unfold frameRange. destruct (lookup_lt_is_Some_2 (seed (getParticles set)) i ltac:(lia))
      as [sd Hsd]. rewrite Hsd. destruct (randomizeRow (ta_mDesc self)); by eexists. }
  destruct Hrange as [[frameOffset numFrames] Hrange].
  exists (mkParticleSet (getParticleCount set) q), frameOffset, numFrames.
  split; [|split; [exact Hrange|]].
  - unfold evolve, ParticleTextureAnimation_evolve. by rewrite Hanim, Hq.
  - simpl. rewrite (Hlow i Hi). unfold frameOf. rewrite Hrange. simpl.
    rewrite Hili, Hli. simpl. f_equal.
    destruct (frameRange_UINT32 _ _ _ _ _ _ Hgrid Hrange) as [Hoff Hn].
    apply frameValue_zero; [|exact Hoff]. by apply scaledFrame_fresh.
Qed.

(** X2: the texture animation evolver is idempotent: on a buffer with a
    slot for every particle it returns, and run again on its result, with
    any generator and tick state, it returns that result unchanged. *)
Theorem X2_animation_idempotent (self : ParticleTextureAnimation) (random random' : Random)
    (state state' : ParticleSystemState Matrix4) (set : ParticleSet) :
  set_wf set ->
  exists set',
    evolve self random state set = Some set'
    /\ evolve self random' state' set' = Some set'.
Proof.
  intros (Hp & Hv & Hl & Hil & Hs & Hf).
  unfold evolve, ParticleTextureAnimation_evolve.
  destruct (validAnimation self) as [gridAnim|].
  - destruct (animation_frames (ta_mDesc self) gridAnim _ _ Hil Hl Hs Hf)
      as (q & Hq & Hsame & Hlow & Hhigh).
    rewrite Hq. simpl. eexists. split; [reflexivity|]. simpl.
    pose proof Hsame as (_ & _ & El & Eil & Es & Ef).
    destruct (animation_frames (ta_mDesc self) gridAnim (getParticleCount set) q)
      as (q' & Hq' & Hsame' & Hlow' & Hhigh'); [rewrite ?Eil, ?El, ?Es, ?Ef; lia..|].
    rewrite Hq'. simpl. do 2 f_equal. apply sameButFrame_eq; [exact Hsame'|].
    apply list_eq. intros i. destruct (decide (i < getParticleCount set)%nat) as [Hi|Hi].
    + rewrite (Hlow' i Hi), (Hlow i Hi). by apply frameOf_sameButFrame.
    + apply Hhigh'. lia.
  - destruct (fallback_frames _ _ Hf) as (q & Hq & Hsame & Hlow & Hhigh).
    rewrite Hq. simpl. eexists. split; [reflexivity|]. simpl.
    pose proof Hsame as (_ & _ & _ & _ & _ & Ef).
    destruct (fallback_frames (getParticleCount set) q)
      as (q' & Hq' & Hsame' & Hlow' & Hhigh'); [rewrite Ef; lia|].
    rewrite Hq'. simpl. do 2 f_equal. apply sameButFrame_eq; [exact Hsame'|].
    apply list_eq. intros i. destruct (decide (i < getParticleCount set)%nat) as [Hi|Hi].
    + by rewrite (Hlow' i Hi), (Hlow i Hi).
    + apply Hhigh'. lia.
Qed.

(** X3: with row randomization, when the generator draws in the half-open
    range [min, max) and the sheet has at most [2^32] cells, the frames of a
    particle are one whole row of the sheet: [numFrames] is [numColumns],
    [frameOffset] is [row * numColumns] for a row below [numRows], and
    [frameOffset + numFrames] does not pass [numRows * numColumns]. *)
Theorem X3_row_inside_sheet (desc : PARTICLE_TEXTURE_ANIMATION_DESC)
    (gridAnim : SpriteSheetGridAnimation) (p : ParticleSetData) (i : nat)
    (frameOffset numFrames : Z) :
  (forall r lo hi, lo < hi -> lo <= getRange r lo hi < hi) ->
  randomizeRow desc = true ->
  validGrid gridAnim = true ->
  numRows gridAnim * numColumns gridAnim <= UINT32_MOD ->
  frameRange desc gridAnim p i = Some (frameOffset, numFrames) ->
  numFrames = numColumns gridAnim
  /\ exists row, 0 <= row < numRows gridAnim
                 /\ frameOffset = row * numColumns gridAnim
                 /\ frameOffset + numFrames <= numRows gridAnim * numColumns gridAnim.
Proof.
  intros Hdraw Hrand Hgrid Hcells. unfold frameRange, validGrid in *. rewrite Hrand.
  apply andb_prop in Hgrid as [Hgrid _]. apply andb_prop in Hgrid as [Hr Hc].
  apply Z.ltb_lt in Hr, Hc.
  destruct (seed p !! i) as [sd|]; simpl; [|done]. intros H. simplify_eq.
  split; [reflexivity|]. unfold selectRow.
  set (draw := getRange _ 0 (numRows gridAnim)).
  assert (Hd : 0 <= draw < numRows gridAnim) by (apply Hdraw; lia).
  assert (Hrow : to_UINT32 draw = draw).
  { unfold to_UINT32. apply Z.mod_small. nia. }
  rewrite Hrow. exists draw. split; [exact Hd|].
  assert (Hoff : to_UINT32 (draw * numColumns gridAnim) = draw * numColumns gridAnim).
  { unfold to_UINT32. apply Z.mod_small. nia. }
  rewrite Hoff. split; [reflexivity|nia].
Qed.

End TextureAnimationFurther.

(** ** The constructor of the collisions *)

Lemma max_zero_ge (x : float) :
  F32.is_nan x = false -> F32.leb F32.zero (F32.max x F32.zero) = true.
Proof. destruct x as [[|]|[|]| |[|] m e]; intros H; try discriminate; reflexivity. Qed.

Lemma max_zero_nan (x : float) :
  F32.is_nan x = true -> F32.is_nan (F32.max x F32.zero) = true.
Proof. destruct x; intros H; try discriminate; reflexivity. Qed.

Lemma nonneg_one : nonneg F32.one (scaled 8388608 (-23)).
Proof. apply nonneg_finite; [reflexivity|lia]. Qed.

Lemma clamp01_range (x : float) :
  F32.valid x = true -> F32.is_nan x = false ->
  F32.leb F32.zero (Math.clamp x F32.zero F32.one) = true
  /\ F32.leb (Math.clamp x F32.zero F32.one) F32.one = true.
Proof.
  intros Hv Hn. destruct (clamp_nonneg x _ _ Hv Hn nonneg_one) as (vc & Hc & Hle).
  pose proof (nonneg_ge0 _ _ Hc) as H0. split.
  - by apply (leb_nonneg _ _ 0 vc (nonneg_zero false) Hc).
  - by apply (leb_nonneg _ _ vc _ Hc nonneg_one).
Qed.

Lemma max_zero_idem (x : float) :
  F32.max (F32.max x F32.zero) F32.zero = F32.max x F32.zero.
Proof.
  unfold F32.max. destruct (F32.ltb x F32.zero) eqn:H; [reflexivity|]. by rewrite H.
Qed.

Lemma clamp01_idem (x : float) :
  Math.clamp (Math.clamp x F32.zero F32.one) F32.zero F32.one
  = Math.clamp x F32.zero F32.one.
Proof.
  unfold Math.clamp, F32.max, F32.min.
  destruct (F32.ltb F32.one x) eqn:H1.
  - reflexivity.
  - destruct (F32.ltb x F32.zero) eqn:H2; [reflexivity|]. by rewrite H1, H2.
Qed.

(** X4: the constructor brings the descriptor into range: a restitution
    and a radius that are numbers become at least 0, a dampening and a
    lifetime loss that are numbers end within [0, 1], and the mode and the
    layer are kept; a restitution or a radius that is NaN stays NaN. *)
Theorem X4_constructor_clamps (desc : PARTICLE_COLLISONS_DESC) :
  (F32.is_nan (restitution desc) = false ->
   F32.leb F32.zero (restitution (ParticleCollisions_new desc)) = true)
  /\ (F32.is_nan (radius desc) = false ->
      F32.leb F32.zero (radius (ParticleCollisions_new desc)) = true)
  /\ (F32.valid (dampening desc) = true -> F32.is_nan (dampening desc) = false ->
      F32.leb F32.zero (dampening (ParticleCollisions_new desc)) = true
      /\ F32.leb (dampening (ParticleCollisions_new desc)) F32.one = true)
  /\ (F32.valid (lifetimeLoss desc) = true -> F32.is_nan (lifetimeLoss desc) = false ->
      F32.leb F32.zero (lifetimeLoss (ParticleCollisions_new desc)) = true
      /\ F32.leb (lifetimeLoss (ParticleCollisions_new desc)) F32.one = true)
  /\ (F32.is_nan (restitution desc) = true ->
      F32.is_nan (restitution (ParticleCollisions_new desc)) = true)
  /\ (F32.is_nan (radius desc) = true ->
      F32.is_nan (radius (ParticleCollisions_new desc)) = true)
  /\ mode (ParticleCollisions_new desc) = mode desc
  /\ layer (ParticleCollisions_new desc) = layer desc.
Proof.
  simpl. split; [apply max_zero_ge|]. split; [apply max_zero_ge|].
  split; [apply clamp01_range|]. split; [apply clamp01_range|].
  split; [apply max_zero_nan|]. split; [apply max_zero_nan|]. by split.
Qed.

(** X5: constructing from a constructed descriptor changes nothing: the
    clamping of the constructor is idempotent, for every descriptor. *)
Theorem X5_constructor_idempotent (desc : PARTICLE_COLLISONS_DESC) :
  ParticleCollisions_new (ParticleCollisions_new desc) = ParticleCollisions_new desc.
Proof.
  unfold ParticleCollisions_new. simpl.
  by rewrite !max_zero_idem, !clamp01_idem.
Qed.

(** ** The order of binary32 numbers *)

Lemma valid_finite (s : bool) (m : positive) (e : Z) :
  F32.valid (S754_finite s m e) = true -> canonical m e /\ e <= 104.
Proof.
  unfold F32.valid, valid_binary, bounded. intros H.
  apply andb_prop in H as [Hc He]. apply canonical_mantissa_iff in Hc.
  apply Z.leb_le in He. by split.
Qed.

Lemma scaled_below_infinity (m : positive) (e : Z) :
  canonical m e -> e <= 104 -> 0 < scaled m e < 2 ^ 300.
Proof.
  intros Hc He. split; [by apply sc_pos|].
  destruct (canonical_mantissa_lt m e Hc) as [Hm Hlo]. unfold scaled.
  assert (H1 : 2 ^ (e + 149) <= 2 ^ 253) by (apply pow2_le; lia).
  assert (H2 : 0 < 2 ^ (e + 149)) by (apply pow2_pos; lia).
  assert (H3 : 2 ^ 24 * 2 ^ 253 < 2 ^ 300) by reflexivity.
  nia.
Qed.

Lemma SFcompare_negative (m1 m2 : positive) (e1 e2 : Z) :
  SFcompare (S754_finite true m1 e1) (S754_finite true m2 e2)
  = option_map CompOpp (SFcompare (S754_finite false m1 e1) (S754_finite false m2 e2)).
Proof. simpl. by destruct (e1 ?= e2). Qed.

(** Valid numbers compare as their places on the number line. *)
Lemma SFcompare_key (x y : float) :
  F32.valid x = true -> F32.valid y = true ->
  F32.is_nan x = false -> F32.is_nan y = false ->
  SFcompare x y = Some (key x ?= key y).
Proof.
  intros Hx Hy Nx Ny.
  assert (Hinf : 0 < 2 ^ 300) by reflexivity.
  destruct x as [sx|sx| |sx mx ex]; try discriminate;
    destruct y as [sy|sy| |sy my ey]; try discriminate;
    try (destruct (valid_finite _ _ _ Hx) as [Hcx Hex];
         pose proof (scaled_below_infinity mx ex Hcx Hex));
    try (destruct (valid_finite _ _ _ Hy) as [Hcy Hey];
         pose proof (scaled_below_infinity my ey Hcy Hey));
    try (destruct sx); try (destruct sy);
    try (cbn [SFcompare key cond_Zopp]; f_equal; symmetry;
         first [apply Z.compare_eq_iff; lia | apply Z.compare_lt_iff; lia
               | apply Z.compare_gt_iff; lia]).
  - rewrite SFcompare_negative, (SFcompare_canonical mx my ex ey Hcx Hcy).
    cbn [option_map key cond_Zopp]. f_equal. rewrite Z.compare_opp. symmetry. apply Z.compare_antisym.
  - apply (SFcompare_canonical mx my ex ey Hcx Hcy).
Qed.

Lemma ltb_key (x y : float) :
  F32.valid x = true -> F32.valid y = true ->
  F32.ltb x y = true <-> F32.is_nan x = false /\ F32.is_nan y = false /\ key x < key y.
Proof.
  intros Hx Hy. unfold F32.ltb, SFltb. split.
  - intros H. destruct (F32.is_nan x) eqn:Nx; [by destruct x|].
    destruct (F32.is_nan y) eqn:Ny; [by destruct x, y|].
    rewrite (SFcompare_key x y Hx Hy Nx Ny) in H.
    destruct (Z.compare_spec (key x) (key y)); try discriminate. by repeat split.
  - intros (Nx & Ny & Hlt). rewrite (SFcompare_key x y Hx Hy Nx Ny).
    by apply Z.compare_lt_iff in Hlt as ->.
Qed.

(** What is not below a bound is not below anything below the bound. *)
Lemma ltb_not_below (a b c : float) :
  F32.valid a = true -> F32.valid b = true -> F32.valid c = true ->
  F32.ltb a c = false -> F32.ltb b c = true -> F32.ltb a b = false.
Proof.
  intros Ha Hb Hc Hac Hbc.
  apply (ltb_key b c Hb Hc) in Hbc as (Nb & Nc & Hlt).
  destruct (F32.ltb a b) eqn:Hab; [|reflexivity].
  apply (ltb_key a b Ha Hb) in Hab as (Na & _ & Hlt').
  assert (F32.ltb a c = true) by (apply (ltb_key a c Ha Hc); repeat split; [done..|lia]).
  congruence.
Qed.

Lemma ltb_trans (a b c : float) :
  F32.valid a = true -> F32.valid b = true -> F32.valid c = true ->
  F32.ltb a b = true -> F32.ltb b c = true -> F32.ltb a c = true.
Proof.
  intros Ha Hb Hc Hab Hbc.
  apply (ltb_key a b Ha Hb) in Hab as (Na & _ & H1).
  apply (ltb_key b c Hb Hc) in Hbc as (_ & Nc & H2).
  apply (ltb_key a c Ha Hc). repeat split; [done..|lia].
Qed.

Lemma ltb_irrefl (a : float) : F32.ltb a a = false.
Proof.
  destruct a as [s|[|]| |[|] m e]; try reflexivity; unfold F32.ltb, SFltb; simpl;
    rewrite Z.compare_refl, Pos.compare_cont_refl; reflexivity.
Qed.

(** ** Collisions, further properties *)

Section CollisionFurther.

Variable Random : Type.
Variable Matrix4 : Type.
Variable multiplyAffine : Matrix4 -> Vector3 -> Vector3.
Variable multiplyDirection : Matrix4 -> Vector3 -> Vector3.
Variable multiplyAffinePlane : Matrix4 -> Plane -> Plane.
Variable AABox : Type.
Variable INF_BOX : AABox.
Variable merge : AABox -> Vector3 -> AABox.
Variable Quaternion : Type.
Variable IDENTITY : Quaternion.
Variable Collider : Type.
Variable _boxOverlap : AABox -> Quaternion -> Z -> list Collider.
Variable rayCast : Collider -> Ray -> float -> option PhysicsQueryHit.

Let evolve :=
  ParticleCollisions_evolve Random Matrix4 multiplyAffine multiplyDirection
    multiplyAffinePlane AABox INF_BOX merge Quaternion IDENTITY Collider
    _boxOverlap rayCast.
Local Abbreviation effectivePlanes := (effectivePlanes Matrix4 multiplyAffinePlane).
Local Abbreviation localPlanes := (localPlanes Matrix4 multiplyAffinePlane).
Local Abbreviation nearestHit := (nearestHit Collider rayCast).
Local Abbreviation nearestStep := (nearestStep Collider rayCast).
Local Abbreviation producedBy := (producedBy Collider rayCast).
Local Abbreviation raycastPost := (raycastPost Collider rayCast).
Local Abbreviation raycastSegment := (raycastSegment Collider rayCast).
Local Abbreviation segmentHit := (segmentHit Collider rayCast).
Local Abbreviation emittedHits := (emittedHits Collider rayCast).
Local Abbreviation groupRaycast :=
  (groupRaycast AABox INF_BOX merge Quaternion IDENTITY Collider _boxOverlap rayCast).
Local Abbreviation groupBounds := (groupBounds AABox INF_BOX merge).
Local Abbreviation buildSegments := (buildSegments Matrix4 multiplyAffine).
Local Abbreviation hitsToLocal := (hitsToLocal Matrix4 multiplyAffine multiplyDirection).
Local Abbreviation particleSegment := (particleSegment Matrix4 multiplyAffine).
Local Abbreviation hitToLocal := (hitToLocal Matrix4 multiplyAffine multiplyDirection).
Local Abbreviation evolveWorld :=
  (evolveWorld Matrix4 multiplyAffine multiplyDirection AABox INF_BOX merge Quaternion
     IDENTITY Collider _boxOverlap rayCast).
Local Abbreviation evolvePlanes := (evolvePlanes Matrix4 multiplyAffinePlane).
Local Abbreviation particleSegments := (particleSegments Matrix4 multiplyAffine).
Local Abbreviation boundsOf := (boundsOf AABox INF_BOX merge).
Local Abbreviation overlapped :=
  (overlapped AABox INF_BOX merge Quaternion IDENTITY Collider _boxOverlap).
Local Abbreviation nearestInv := (nearestInv Collider rayCast).
Local Abbreviation worldInv :=
  (worldInv Matrix4 multiplyAffine multiplyDirection Collider rayCast).

(** *** The batcher as a compaction *)

Lemma emittedHits_app hitColliders (l1 l2 : list LineSegment3) :
  forall i, emittedHits hitColliders (l1 ++ l2) i
            = emittedHits hitColliders l1 i
              ++ emittedHits hitColliders l2 (i + length l1).
Proof.
  induction l1 as [|seg l1 IH]; intros i; simpl.
  - by replace (i + 0)%nat with i by lia.
  - rewrite IH. replace (S i + length l1)%nat with (i + S (length l1))%nat by lia.
    by destruct (segmentHit hitColliders i seg).
Qed.

Lemma emittedHits_length hitColliders (segs : list LineSegment3) :
  forall i, (length (emittedHits hitColliders segs i) <= length segs)%nat.
Proof.
  induction segs as [|seg segs IH]; intros i; simpl; [lia|].
  specialize (IH (S i)). destruct (segmentHit hitColliders i seg); simpl; lia.
Qed.

Lemma raycastSegment_segmentHit hitColliders (segments : buffer LineSegment3)
    (i numHits : nat) (hits : buffer ParticleHitInfo) (seg : LineSegment3) :
  buf_read segments i = Some seg ->
  raycastSegment hitColliders segments i (numHits, hits)
  = match segmentHit hitColliders i seg with
    | Some h => hits' ← buf_write hits numHits h; Some (S numHits, hits')
    | None => Some (numHits, hits)
    end.
Proof.
  intros Hseg. unfold raycastSegment, segmentHit. rewrite Hseg. simpl.
  destruct (segmentRay seg) as [[ray length]|]; [|done].
  unfold nearestHit.
  destruct (fold_left _ _ _) as [nearest hitInfo]. simpl.
  by destruct (F32.neqb nearest F32.FLT_MAX).
Qed.

Lemma compaction_loop hitColliders (segments : buffer LineSegment3)
    (segs : list LineSegment3) (hits : buffer ParticleHitInfo) :
  (forall i, (i < length segs)%nat -> buf_read segments i = segs !! i) ->
  (length segs <= length hits)%nat ->
  for_loop (length segs) 0 (raycastSegment hitColliders segments) (0%nat, hits)
  = Some (length (emittedHits hitColliders segs 0),
          (Some <$> emittedHits hitColliders segs 0)
          ++ drop (length (emittedHits hitColliders segs 0)) hits).
Proof.
  intros Hread Hcap.
  destruct (for_loop_inv
    (fun k st => (k <= length segs)%nat ->
       st = (length (emittedHits hitColliders (take k segs) 0),
             (Some <$> emittedHits hitColliders (take k segs) 0)
             ++ drop (length (emittedHits hitColliders (take k segs) 0)) hits))
    (raycastSegment hitColliders segments) (length segs) 0%nat (0%nat, hits))
    as (st & Hrun & Hst).
  - intros _. by rewrite take_0.
  - intros k st Hk Hinv. rewrite (Hinv ltac:(lia)).
    destruct (lookup_lt_is_Some_2 segs k ltac:(lia)) as [seg Hseg].
    rewrite (raycastSegment_segmentHit _ _ _ _ _ seg) by (rewrite Hread by lia; exact Hseg).
    rewrite (take_S_r _ _ _ Hseg), emittedHits_app. simpl.
    rewrite length_take, Nat.min_l by lia.
    set (E := emittedHits hitColliders (take k segs) 0).
    assert (HE : (length E <= k)%nat).
    { pose proof (emittedHits_length hitColliders (take k segs) 0) as H.
      rewrite length_take in H. unfold E. lia. }
    destruct (segmentHit hitColliders k seg) as [h|]; simpl.
    + unfold buf_write. rewrite store_Some
        by (rewrite length_app, length_fmap, length_drop; lia).
      simpl. eexists. split; [reflexivity|]. intros _.
      rewrite length_app. simpl. f_equal; [lia|].
      rewrite insert_app_r_alt by (rewrite length_fmap; lia).
      rewrite length_fmap, Nat.sub_diag, fmap_app, <- app_assoc. simpl. f_equal.
      destruct (drop (length E) hits) as [|x rest] eqn:Hdrop.
      { apply (f_equal length) in Hdrop. rewrite length_drop in Hdrop. simpl in Hdrop. lia. }
      simpl. f_equal. by rewrite <- drop_drop, Hdrop.
    + eexists. split; [reflexivity|]. intros _. by rewrite app_nil_r.
  - rewrite Hrun. cbn [Nat.add] in Hst. rewrite (Hst ltac:(lia)). by rewrite firstn_all.
Qed.

Lemma segmentHit_no_colliders (i : nat) (seg : LineSegment3) :
  segmentHit [] i seg = None.
Proof.
  unfold segmentHit. by destruct (segmentRay seg) as [[ray length]|].
Qed.

Lemma emittedHits_no_colliders (segs : list LineSegment3) :
  forall i, emittedHits [] segs i = [].
Proof.
  induction segs as [|seg segs IH]; intros i; simpl; [done|].
  by rewrite segmentHit_no_colliders.
Qed.

Lemma groupBounds_loop (segments : buffer LineSegment3) :
  forall (segs : list LineSegment3) (i : nat) (box : AABox),
    (forall j, (j < length segs)%nat -> buf_read segments (i + j) = segs !! j) ->
    for_loop (length segs) i
      (fun i box => seg ← buf_read segments i;
                    Some (merge (merge box (seg_start seg)) (seg_end seg))) box
    = Some (fold_left (fun box seg => merge (merge box (seg_start seg)) (seg_end seg))
              segs box).
Proof.
  induction segs as [|seg segs IH]; intros i box Hread; [done|].
  cbn [length for_loop fold_left].
  pose proof (Hread 0%nat ltac:(simpl; lia)) as H0.
  rewrite Nat.add_0_r in H0. rewrite H0. simpl.
  apply IH. intros j Hj. specialize (Hread (S j) ltac:(simpl; lia)).
  by replace (S i + j)%nat with (i + S j)%nat by lia.
Qed.

Lemma groupRaycast_emitted (segments : buffer LineSegment3)
    (segs : list LineSegment3) (hits : buffer ParticleHitInfo) (layer : Z) :
  (forall i, (i < length segs)%nat -> buf_read segments i = segs !! i) ->
  (length segs <= length hits)%nat ->
  groupBounds segments (length segs) = Some (boundsOf segs)
  /\ groupRaycast segments hits (length segs) layer
     = Some (length (emittedHits (overlapped segs layer) segs 0),
             (Some <$> emittedHits (overlapped segs layer) segs 0)
             ++ drop (length (emittedHits (overlapped segs layer) segs 0)) hits).
Proof.
  intros Hread Hcap.
  assert (Hb : groupBounds segments (length segs) = Some (boundsOf segs)).
  { unfold groupBounds. apply groupBounds_loop. intros j Hj. by apply Hread. }
  split; [exact Hb|].
  unfold groupRaycast. case_decide as Hzero.
  - by destruct segs.
  - rewrite Hb. simpl. unfold overlapped.
    destruct segs as [|seg0 segs0] eqn:Hsegs; [done|]. rewrite <- Hsegs in *.
    destruct (_boxOverlap (boundsOf segs) IDENTITY layer) as [|c cs] eqn:Hcs.
    + by rewrite emittedHits_no_colliders.
    + by apply compaction_loop.
Qed.

(** X6: the batcher computes the compaction of the hits of its segments.
    On the segments [segs] in the first slots of [segments] and a caller's
    array with a slot per segment, it returns the number of segments that
    have a hit and stores their hits, in the order of the segments, in the
    first slots of the array, leaving the other slots as they were; the
    colliders it tries are those of one box overlap of the bounds of all
    the segments, and none when there is no segment. *)
Theorem X6_groupRaycast_compacts (segments : buffer LineSegment3)
    (segs : list LineSegment3) (hits : buffer ParticleHitInfo) (layer : Z) :
  (forall i, (i < length segs)%nat -> buf_read segments i = segs !! i) ->
  (length segs <= length hits)%nat ->
  groupRaycast segments hits (length segs) layer
  = Some (length (emittedHits (overlapped segs layer) segs 0),
          (Some <$> emittedHits (overlapped segs layer) segs 0)
          ++ drop (length (emittedHits (overlapped segs layer) segs 0)) hits).
Proof.
  intros Hread Hcap. by apply groupRaycast_emitted.
Qed.

(** *** The nearest hit *)

Lemma ltb_neqb (a b : float) : F32.ltb a b = true -> F32.neqb a b = true.
Proof.
  unfold F32.ltb, F32.neqb, SFltb, SFeqb. by destruct (SFcompare a b) as [[| |]|].
Qed.

Lemma nearestHit_inv (cs : list Collider) (ray : Ray) (length : float) (i : nat) :
  (forall c q, In c cs -> rayCast c ray length = Some q ->
               F32.valid (qh_distance q) = true) ->
  nearestInv cs ray length i (nearestHit cs ray length i).
Proof.
  unfold nearestHit.
  induction cs as [|c cs IH] using rev_ind; intros Hvalid.
  - split; [reflexivity|]. split; [by left|]. intros c q [].
  - rewrite fold_left_app. simpl.
    destruct IH as (Hv & Hfrom & Hnear).
    { intros c' q' Hin. apply Hvalid. apply in_or_app. by left. }
    set (r := fold_left (nearestStep ray length) cs
                (F32.FLT_MAX, mkHitInfo Vec.ZERO Vec.ZERO i)) in *.
    assert (Hidx : hit_idx (snd r) = i).
    { destruct Hfrom as [-> | (c' & q' & _ & _ & -> & _)]; reflexivity. }
    assert (Hold : forall c' q', In c' (cs ++ [c]) -> rayCast c' ray length = Some q' ->
                     In c' cs \/ c' = c).
    { intros c' q' Hin _. apply in_app_or in Hin as [Hin|[<-|[]]]; [by left|by right]. }
    unfold nearestStep. destruct (rayCast c ray length) as [q|] eqn:Hq.
    + assert (Hvq : F32.valid (qh_distance q) = true).
      { apply (Hvalid c q); [apply in_or_app; right; by left|exact Hq]. }
      destruct (F32.ltb (qh_distance q) (fst r)) eqn:Hlt.
      * rewrite Hidx. split; [exact Hvq|]. split.
        -- right. exists c, q. split; [apply in_or_app; right; by left|].
           split; [exact Hq|]. split; [reflexivity|].
           destruct Hfrom as [Hr|(c' & q' & Hin' & Hq' & Hr & Hmax)].
           ++ by rewrite Hr in Hlt.
           ++ rewrite Hr in Hlt. simpl in Hlt.
              apply (ltb_trans _ (qh_distance q') _ Hvq); [|reflexivity|exact Hlt|exact Hmax].
              by apply (Hvalid c' q'); [apply in_or_app; left|].
        -- intros c' q' Hin Hq'. simpl.
           destruct (Hold c' q' Hin Hq') as [Hin' | ->].
           ++ apply (ltb_not_below _ _ (fst r)); [|exact Hvq|exact Hv| |exact Hlt].
              ** by apply (Hvalid c' q').
              ** by apply (Hnear c' q').
           ++ rewrite Hq in Hq'. simplify_eq. apply ltb_irrefl.
      * split; [exact Hv|]. split.
        -- destruct Hfrom as [Hr|(c' & q' & Hin' & Hq' & Hr & Hmax)]; [by left|].
           right. exists c', q'. split; [apply in_or_app; by left|done].
        -- intros c' q' Hin Hq'. destruct (Hold c' q' Hin Hq') as [Hin' | ->].
           ++ by apply (Hnear c' q').
           ++ rewrite Hq in Hq'. by simplify_eq.
    + split; [exact Hv|]. split.
      * destruct Hfrom as [Hr|(c' & q' & Hin' & Hq' & Hr & Hmax)]; [by left|].
        right. exists c', q'. split; [apply in_or_app; by left|done].
      * intros c' q' Hin Hq'. destruct (Hold c' q' Hin Hq') as [Hin' | ->].
        -- by apply (Hnear c' q').
        -- rewrite Hq in Hq'. done.
Qed.

(** X7: when the colliders answer with distances that are valid binary32
    numbers, the hit the narrow phase keeps for a segment is the answer of
    a collider that the ray struck nearer than [FLT_MAX], carries the index
    of the segment, and no struck collider is strictly nearer; a segment has
    no hit exactly when no struck collider is nearer than [FLT_MAX]. *)
Theorem X7_nearest_hit_kept (hitColliders : list Collider) (i : nat)
    (seg : LineSegment3) (ray : Ray) (length : float) :
  (forall c q, In c hitColliders -> rayCast c ray length = Some q ->
               F32.valid (qh_distance q) = true) ->
  segmentRay seg = Some (ray, length) ->
  (forall h, segmentHit hitColliders i seg = Some h ->
     exists c q, In c hitColliders /\ rayCast c ray length = Some q
                 /\ h = mkHitInfo (qh_point q) (qh_normal q) i
                 /\ F32.ltb (qh_distance q) F32.FLT_MAX = true
                 /\ forall c' q', In c' hitColliders -> rayCast c' ray length = Some q' ->
                                  F32.ltb (qh_distance q') (qh_distance q) = false)
  /\ (segmentHit hitColliders i seg = None <->
      forall c q, In c hitColliders -> rayCast c ray length = Some q ->
                  F32.ltb (qh_distance q) F32.FLT_MAX = false).
Proof.
  intros Hvalid Hray. unfold segmentHit. rewrite Hray.
  destruct (nearestHit_inv hitColliders ray length i Hvalid) as (_ & Hfrom & Hnear).
  destruct Hfrom as [Hr|(c & q & Hin & Hq & Hr & Hmax)]; rewrite Hr in *; simpl in *.
  - split; [intros h H; discriminate|]. split; [intros _; exact Hnear|done].
  - rewrite (ltb_neqb _ _ Hmax). split.
    + intros h H. simplify_eq. exists c, q. by repeat split.
    + split; [discriminate|]. intros Hall. rewrite (Hall c q Hin Hq) in Hmax. discriminate.
Qed.

(** *** World mode *)

Lemma particleSegments_length (state : ParticleSystemState Matrix4) (n : nat)
    (particles : ParticleSetData) :
  (n <= length (position particles))%nat -> (n <= length (velocity particles))%nat ->
  length (particleSegments state n particles) = n.
Proof.
  intros Hp Hv. unfold particleSegments.
  rewrite length_zip_with, !length_take. lia.
Qed.

Lemma particleSegments_lookup (state : ParticleSystemState Matrix4) (n i : nat)
    (particles : ParticleSetData) (p v : Vector3) :
  (i < n)%nat -> position particles !! i = Some p -> velocity particles !! i = Some v ->
  particleSegments state n particles !! i = Some (particleSegment state p v).
Proof.
  intros Hi Hp Hv. unfold particleSegments.
  rewrite lookup_zip_with, !lookup_take_lt by lia. by rewrite Hp, Hv.
Qed.

Lemma buildSegments_spec (state : ParticleSystemState Matrix4) (n : nat)
    (particles : ParticleSetData) :
  (n <= length (position particles))%nat -> (n <= length (velocity particles))%nat ->
  exists segments,
    buildSegments state n particles = Some segments
    /\ forall i, (i < n)%nat ->
         buf_read segments i = particleSegments state n particles !! i.
Proof.
  intros Hp Hv. unfold buildSegments.
  destruct (for_loop_inv
    (fun k (segs : buffer LineSegment3) =>
       length segs = n
       /\ forall i p v, (i < k)%nat ->
            position particles !! i = Some p -> velocity particles !! i = Some v ->
            buf_read segs i
            = Some (mkLineSegment3 (Vec.sub p (Vec.scale v (timeStep state))) p))
    (fun i segs =>
       position_i ← position particles !! i;
       velocity_i ← velocity particles !! i;
       let from := Vec.sub position_i (Vec.scale velocity_i (timeStep state)) in
       buf_write segs i (mkLineSegment3 from position_i))
    n 0%nat (bs_stack_alloc n)) as (segs & Hsegs & Hlen & Hinit).
  - split; [apply length_replicate|]. intros i p v Hi. lia.
  - intros k t Hk [Hlen Hinit].
    destruct (lookup_lt_is_Some_2 (position particles) k ltac:(lia)) as [p Hpk].
    destruct (lookup_lt_is_Some_2 (velocity particles) k ltac:(lia)) as [v Hvk].
    rewrite Hpk, Hvk. simpl. unfold buf_write. rewrite store_Some by lia.
    eexists. split; [reflexivity|]. split; [by rewrite length_insert|].
    intros i p' v' Hi Hp' Hv'. destruct (decide (i = k)) as [->|Hne].
    + simplify_eq. apply buf_read_Some. apply list_lookup_insert_eq. lia.
    + unfold buf_read. rewrite list_lookup_insert_ne by lia. apply Hinit; [lia|done..].
  - cbv zeta in Hsegs. rewrite Hsegs. simpl. cbn [Nat.add] in Hinit.
    destruct (worldSpace state) eqn:Hws.
    + exists segs. split; [done|]. intros i Hi.
      destruct (lookup_lt_is_Some_2 (position particles) i ltac:(lia)) as [p Hpi].
      destruct (lookup_lt_is_Some_2 (velocity particles) i ltac:(lia)) as [v Hvi].
      rewrite (particleSegments_lookup state n i particles p v Hi Hpi Hvi).
      rewrite (Hinit i p v Hi Hpi Hvi). unfold particleSegment. by rewrite Hws.
    + destruct (for_loop_inv
        (fun k (t : buffer LineSegment3) =>
           length t = n
           /\ (forall i, (i < k)%nat ->
                 buf_read t i = particleSegments state n particles !! i)
           /\ (forall i, (k <= i)%nat -> t !! i = segs !! i))
        (fun i t =>
           seg ← buf_read t i;
           buf_write t i
             (mkLineSegment3 (multiplyAffine (localToWorld state) (seg_start seg))
                             (multiplyAffine (localToWorld state) (seg_end seg))))
        n 0%nat segs) as (segs' & Hsegs' & Hlen' & Hdone & _).
      * split; [done|]. split; [intros i Hi; lia|done].
      * intros k t Hk (Hlent & Hdone & Hrest).
        destruct (lookup_lt_is_Some_2 (position particles) k ltac:(lia)) as [p Hpk].
        destruct (lookup_lt_is_Some_2 (velocity particles) k ltac:(lia)) as [v Hvk].
        assert (Hread : buf_read t k
                        = Some (mkLineSegment3 (Vec.sub p (Vec.scale v (timeStep state))) p)).
        { rewrite <- (Hinit k p v ltac:(lia) Hpk Hvk). unfold buf_read.
          by rewrite (Hrest k (Nat.le_refl k)). }
        rewrite Hread. simpl. unfold buf_write. rewrite store_Some by lia.
        eexists. split; [reflexivity|]. split; [by rewrite length_insert|]. split.
        -- intros i Hi. destruct (decide (i = k)) as [->|Hne].
           ++ rewrite (particleSegments_lookup state n k particles p v ltac:(lia) Hpk Hvk).
              unfold particleSegment. rewrite Hws.
              apply buf_read_Some. apply list_lookup_insert_eq. lia.
           ++ unfold buf_read. rewrite list_lookup_insert_ne by lia.
              apply Hdone. lia.
        -- intros i Hi. rewrite list_lookup_insert_ne by lia. apply Hrest. lia.
      * exists segs'. split; [done|]. exact Hdone.
Qed.

Lemma hitsToLocal_spec (state : ParticleSystemState Matrix4) (E : list ParticleHitInfo)
    (rest : buffer ParticleHitInfo) :
  hitsToLocal state (length E) ((Some <$> E) ++ rest)
  = Some ((Some <$> (hitToLocal state <$> E)) ++ rest).
Proof.
  unfold hitsToLocal, hitToLocal. destruct (worldSpace state) eqn:Hws.
  { by rewrite list_fmap_id. }
  set (f := fun h => mkHitInfo (multiplyAffine (worldToLocal state) (hit_position h))
                       (multiplyDirection (worldToLocal state) (hit_normal h))
                       (hit_idx h)).
  destruct (for_loop_inv
    (fun k (hs : buffer ParticleHitInfo) =>
       (k <= length E)%nat ->
       hs = (Some <$> (f <$> take k E)) ++ (Some <$> drop k E) ++ rest)
    (fun i hs => h ← buf_read hs i; buf_write hs i (f h))
    (length E) 0%nat ((Some <$> E) ++ rest)) as (hs & Hrun & Hhs).
  - intros _. by rewrite take_0, drop_0.
  - intros k hs Hk Hinv. rewrite (Hinv ltac:(lia)).
    destruct (lookup_lt_is_Some_2 E k ltac:(lia)) as [h Hh].
    assert (Hlen : length (Some <$> (f <$> take k E)) = k).
    { rewrite !length_fmap, length_take. lia. }
    rewrite (drop_S _ _ _ Hh). unfold buf_read.
    rewrite lookup_app_r by lia. rewrite Hlen, Nat.sub_diag. simpl.
    unfold buf_write. rewrite store_Some
      by (rewrite length_app, Hlen; simpl; lia).
    simpl. eexists. split; [reflexivity|]. intros _.
    rewrite insert_app_r_alt by lia. rewrite Hlen, Nat.sub_diag. simpl.
    rewrite (take_S_r _ _ _ Hh), !fmap_app, <- app_assoc. done.
  - transitivity (Some hs); [exact Hrun|].
    cbn [Nat.add] in Hhs. rewrite (Hhs ltac:(lia)).
    by rewrite firstn_all, drop_all.
Qed.

Lemma segmentHit_idx hitColliders (i : nat) (seg : LineSegment3) (h : ParticleHitInfo) :
  segmentHit hitColliders i seg = Some h -> hit_idx h = i.
Proof.
  unfold segmentHit. destruct (segmentRay seg) as [[ray length]|]; [|done].
  destruct (F32.neqb _ _); [|done]. intros H. simplify_eq.
  unfold nearestHit.
  assert (Hgen : forall cs acc, hit_idx (snd (fold_left (nearestStep ray length) cs acc))
                                = hit_idx (snd acc)).
  { induction cs as [|c cs IH]; intros acc; [done|]. simpl. rewrite IH.
    unfold nearestStep. destruct (rayCast c ray length); [|done].
    by destruct (F32.ltb _ _). }
  by rewrite Hgen.
Qed.

Lemma hitToLocal_idx (state : ParticleSystemState Matrix4) (h : ParticleHitInfo) :
  hit_idx (hitToLocal state h) = hit_idx h.
Proof. unfold hitToLocal. by destruct (worldSpace state). Qed.

Lemma worldInv_refl desc state hitColliders (off : nat) (p0 : ParticleSetData) :
  worldInv desc state hitColliders [] off p0 p0.
Proof.
  repeat split; done.
Qed.

Lemma world_response_loop desc (state : ParticleSystemState Matrix4) hitColliders
    (hits : buffer ParticleHitInfo) :
  forall (segs : list LineSegment3) (off k : nat) (p0 : ParticleSetData),
    (forall j, (j < length (emittedHits hitColliders segs off))%nat ->
       buf_read hits (k + j)
       = (hitToLocal state <$> emittedHits hitColliders segs off) !! j) ->
    (off + length segs <= length (position p0))%nat ->
    (off + length segs <= length (velocity p0))%nat ->
    (off + length segs <= length (lifetime p0))%nat ->
    (off + length segs <= length (initialLifetime p0))%nat ->
    exists q,
      for_loop (length (emittedHits hitColliders segs off)) k
        (fun i ps => hitInfo ← buf_read hits i;
                     applyHit desc (hit_idx hitInfo) hitInfo ps) p0 = Some q
      /\ worldInv desc state hitColliders segs off p0 q.
Proof.
  induction segs as [|seg segs IH]; intros off k p0 Hread Hp Hv Hl Hil.
  - exists p0. split; [done|]. apply worldInv_refl.
  - cbn [length] in Hp, Hv, Hl, Hil. cbn [emittedHits] in *.
    destruct (segmentHit hitColliders off seg) as [h|] eqn:Hhit.
    + pose proof (segmentHit_idx _ _ _ _ Hhit) as Hidx.
      cbn [length for_loop].
      pose proof (Hread 0%nat ltac:(simpl; lia)) as H0.
      rewrite Nat.add_0_r in H0. simpl in H0. rewrite H0. simpl.
      rewrite hitToLocal_idx, Hidx.
      destruct (lookup_lt_is_Some_2 (position p0) off ltac:(lia)) as [p Hpo].
      destruct (lookup_lt_is_Some_2 (velocity p0) off ltac:(lia)) as [v Hvo].
      destruct (lookup_lt_is_Some_2 (lifetime p0) off ltac:(lia)) as [l Hlo].
      destruct (lookup_lt_is_Some_2 (initialLifetime p0) off ltac:(lia)) as [il Hilo].
      rewrite (applyHit_Some desc off _ p0 p v l il Hpo Hvo Hlo Hilo). simpl.
      set (p1 := mkParticles _ _ _ _ _ _).
      destruct (IH (S off) (S k) p1) as (q & Hq & Hinv).
      * intros j Hj. specialize (Hread (S j) ltac:(simpl; lia)).
        by replace (S k + j)%nat with (k + S j)%nat by lia.
      * unfold p1. cbn [position]. rewrite length_insert. lia.
      * unfold p1. cbn [velocity]. rewrite length_insert. lia.
      * unfold p1. cbn [lifetime]. rewrite length_insert. lia.
      * unfold p1. cbn [initialLifetime]. lia.
      * exists q. split; [exact Hq|].
        destruct Hinv as (Lp & Lv & Ll & Eil & Es & Ef & Hout & Hin).
        unfold p1 in *. cbn [position velocity lifetime initialLifetime seed frame] in *.
        rewrite length_insert in Lp. rewrite length_insert in Lv.
        rewrite length_insert in Ll.
        split; [exact Lp|]. split; [exact Lv|]. split; [exact Ll|].
        split; [exact Eil|]. split; [exact Es|]. split; [exact Ef|]. split.
        -- intros i Hi. cbn [length] in Hi.
           destruct (Hout i ltac:(lia)) as (Hqp & Hqv & Hql).
           rewrite Hqp, Hqv, Hql. by rewrite !list_lookup_insert_ne by lia.
        -- intros j seg' p' v' l' il' Hseg' Hp' Hv' Hl' Hil'. destruct j as [|j].
           ++ rewrite Nat.add_0_r in *. simpl in Hseg'.
              assert (seg' = seg) as -> by congruence.
              assert (p' = p) as -> by congruence.
              assert (v' = v) as -> by congruence.
              assert (l' = l) as -> by congruence.
              assert (il' = il) as -> by congruence.
              rewrite Hhit.
              destruct (Hout off ltac:(lia)) as (Hqp & Hqv & Hql).
              rewrite Hqp, Hqv, Hql. by rewrite !list_lookup_insert_eq by lia.
           ++ simpl in Hseg'.
              replace (off + S j)%nat with (S off + j)%nat in * by lia.
              apply (Hin j seg' p' v' l' il' Hseg'); try done;
                by rewrite list_lookup_insert_ne by lia.
    + destruct (IH (S off) k p0) as (q & Hq & Hinv); try lia.
      * exact Hread.
      * exists q. split; [exact Hq|].
        destruct Hinv as (Lp & Lv & Ll & Eil & Es & Ef & Hout & Hin).
        split; [exact Lp|]. split; [exact Lv|]. split; [exact Ll|].
        split; [exact Eil|]. split; [exact Es|]. split; [exact Ef|]. split.
        -- intros i Hi. cbn [length] in Hi. apply Hout. lia.
        -- intros j seg' p' v' l' il' Hseg' Hp' Hv' Hl' Hil'. destruct j as [|j].
           ++ rewrite Nat.add_0_r in *. simpl in Hseg'.
              assert (seg' = seg) as -> by congruence.
              rewrite Hhit.
              destruct (Hout off ltac:(lia)) as (Hqp & Hqv & Hql).
              by rewrite Hqp, Hqv, Hql.
           ++ simpl in Hseg'.
              replace (off + S j)%nat with (S off + j)%nat in * by lia.
              by apply (Hin j seg' p' v' l' il' Hseg').
Qed.

Lemma evolveWorld_spec (self : ParticleCollisions) (state : ParticleSystemState Matrix4)
    (n : nat) (particles : ParticleSetData) :
  (n <= length (position particles))%nat -> (n <= length (velocity particles))%nat ->
  (n <= length (lifetime particles))%nat -> (n <= length (initialLifetime particles))%nat ->
  exists q,
    evolveWorld self state n particles = Some q
    /\ worldInv (pc_mDesc self) state
         (overlapped (particleSegments state n particles) (layer (pc_mDesc self)))
         (particleSegments state n particles) 0 particles q.
Proof.
  intros Hp Hv Hl Hil. unfold evolveWorld.
  destruct (buildSegments_spec state n particles Hp Hv) as (segments & Hsegs & Hread).
  rewrite Hsegs. simpl.
  pose proof (particleSegments_length state n particles Hp Hv) as Hlen.
  set (segs := particleSegments state n particles) in *.
  set (cs := overlapped segs (layer (pc_mDesc self))).
  destruct (groupRaycast_emitted segments segs (bs_stack_alloc n) (layer (pc_mDesc self)))
    as [_ Hcast].
  { intros i Hi. apply Hread. lia. }
  { unfold bs_stack_alloc. rewrite length_replicate. lia. }
  rewrite Hlen in Hcast. rewrite Hcast. simpl. fold cs.
  rewrite hitsToLocal_spec. simpl.
  destruct (world_response_loop (pc_mDesc self) state cs
              ((Some <$> (hitToLocal state <$> emittedHits cs segs 0))
               ++ drop (length (emittedHits cs segs 0)) (bs_stack_alloc n))
              segs 0%nat 0%nat particles) as (q & Hq & Hinv); try (simpl; lia).
  - intros j Hj. simpl. unfold buf_read.
    rewrite lookup_app_l by (rewrite !length_fmap; lia).
    rewrite !list_lookup_fmap.
    by destruct (emittedHits cs segs 0 !! j).
  - exists q. split; [exact Hq|exact Hinv].
Qed.

(** X8: in world-geometry mode, on a buffer with a slot for every
    particle, the evolver returns, and every particle is handled by the hit
    of its own segment, from its previous position to its current one:
    when the narrow phase has a hit for that segment among the colliders of
    the broad phase, position and velocity become the response to that hit
    (taken back to the space of the particles) and one
    [lifetimeLoss * initialLifetime[i]] is subtracted from the lifetime;
    when it has none, the particle is left as it was. *)
Theorem X8_world_mode_outcome (self : ParticleCollisions) (random : Random)
    (state : ParticleSystemState Matrix4) (set : ParticleSet) :
  mode (pc_mDesc self) = World_mode ->
  set_wf set ->
  exists set',
    evolve self random state set = Some set'
    /\ forall i p v l il,
         (i < getParticleCount set)%nat ->
         position (getParticles set) !! i = Some p ->
         velocity (getParticles set) !! i = Some v ->
         lifetime (getParticles set) !! i = Some l ->
         initialLifetime (getParticles set) !! i = Some il ->
         match segmentHit
                 (overlapped
                    (particleSegments state (getParticleCount set) (getParticles set))
                    (layer (pc_mDesc self)))
                 i (particleSegment state p v) with
         | Some h =>
             let r := calcCollisionResponse p v (hitToLocal state h) (pc_mDesc self) in
             position (getParticles set') !! i = Some (fst r)
             /\ velocity (getParticles set') !! i = Some (snd r)
             /\ lifetime (getParticles set') !! i
                = Some (F32.sub l (F32.mul (lifetimeLoss (pc_mDesc self)) il))
         | None =>
             position (getParticles set') !! i = Some p
             /\ velocity (getParticles set') !! i = Some v
             /\ lifetime (getParticles set') !! i = Some l
         end.
Proof.
  intros Hmode (Hp & Hv & Hl & Hil & _ & _).
  destruct (evolveWorld_spec self state (getParticleCount set) (getParticles set)
              Hp Hv Hl Hil) as (q & Hq & Hinv).
  exists (mkParticleSet (getParticleCount set) q). split.
  - unfold evolve, ParticleCollisions_evolve. rewrite Hmode. by rewrite Hq.
  - intros i p v l il Hi Hpi Hvi Hli Hili.
    destruct Hinv as (_ & _ & _ & _ & _ & _ & _ & Hin).
    exact (Hin i (particleSegment state p v) p v l il
             (particleSegments_lookup state _ i _ p v Hi Hpi Hvi) Hpi Hvi Hli Hili).
Qed.

(** *** What the collisions evolver never writes *)

Lemma evolvePlanes_spec (self : ParticleCollisions) (state : ParticleSystemState Matrix4)
    (n : nat) (particles : ParticleSetData) :
  worldSpace state = true \/ (length (mCollisionPlanes self) <= n)%nat ->
  (n <= length (position particles))%nat -> (n <= length (velocity particles))%nat ->
  (n <= length (lifetime particles))%nat -> (n <= length (initialLifetime particles))%nat ->
  exists q,
    evolvePlanes self state n particles = Some q
    /\ planesInv (pc_mDesc self) (effectivePlanes self state) particles n q.
Proof.
  intros Hfit Hp Hv Hl Hil.
  destruct (localPlanes_fits Matrix4 multiplyAffinePlane self state n Hfit)
    as (planes & Hplanes & Hread).
  assert (Hlen : length (effectivePlanes self state) = length (mCollisionPlanes self)).
  { unfold effectivePlanes. destruct (worldSpace state); [done|]. by rewrite length_fmap. }
  rewrite <- Hlen in Hread.
  destruct (planes_loop (pc_mDesc self) planes (effectivePlanes self state) n particles
              Hread Hp Hv Hl Hil) as (q & Hq & Hinv).
  exists q. split; [|exact Hinv].
  unfold evolvePlanes. rewrite Hplanes. simpl. rewrite <- Hlen. exact Hq.
Qed.

(** X9: in either mode, on a buffer with a slot for every particle (and,
    in plane mode in local space, with no more planes than particles), the
    evolver returns a set of the same number of particles, and it writes
    nothing but position, velocity and lifetime of the live particles: the
    initial lifetimes, the seeds and the frames are what they were, no
    array changes its length, and the slots from the particle count on are
    untouched. *)
Theorem X9_collisions_footprint (self : ParticleCollisions) (random : Random)
    (state : ParticleSystemState Matrix4) (set : ParticleSet) :
  set_wf set ->
  (mode (pc_mDesc self) = Plane_mode ->
   worldSpace state = true
   \/ (length (mCollisionPlanes self) <= getParticleCount set)%nat) ->
  exists set',
    evolve self random state set = Some set'
    /\ getParticleCount set' = getParticleCount set
    /\ initialLifetime (getParticles set') = initialLifetime (getParticles set)
    /\ seed (getParticles set') = seed (getParticles set)
    /\ frame (getParticles set') = frame (getParticles set)
    /\ length (position (getParticles set')) = length (position (getParticles set))
    /\ length (velocity (getParticles set')) = length (velocity (getParticles set))
    /\ length (lifetime (getParticles set')) = length (lifetime (getParticles set))
    /\ forall i, (getParticleCount set <= i)%nat ->
         position (getParticles set') !! i = position (getParticles set) !! i
         /\ velocity (getParticles set') !! i = velocity (getParticles set) !! i
         /\ lifetime (getParticles set') !! i = lifetime (getParticles set) !! i.
Proof.
  intros (Hp & Hv & Hl & Hil & _ & _) Hfit.
  unfold evolve, ParticleCollisions_evolve.
  destruct (mode (pc_mDesc self)) eqn:Hmode.
  - destruct (evolvePlanes_spec self state _ _ (Hfit eq_refl) Hp Hv Hl Hil)
      as (q & Hq & Lp & Lv & Ll & Eil & Es & Ef & Hrest & _).
    rewrite Hq. eexists. split; [reflexivity|]. simpl.
    split; [done|]. split; [done|]. split; [done|]. split; [done|].
    split; [done|]. split; [done|]. split; [done|]. exact Hrest.
  - destruct (evolveWorld_spec self state _ _ Hp Hv Hl Hil)
      as (q & Hq & Lp & Lv & Ll & Eil & Es & Ef & Hout & _).
    rewrite Hq. eexists. split; [reflexivity|]. simpl.
    split; [done|]. split; [done|]. split; [done|]. split; [done|].
    split; [done|]. split; [done|]. split; [done|].
    intros i Hi. apply Hout. right.
    rewrite particleSegments_length by done. simpl. lia.
Qed.

(** *** Particles at rest *)

Lemma mul_finite_zero (x z : float) :
  F32.is_finite x = true -> F32.is_zero z = true -> F32.is_zero (F32.mul x z) = true.
Proof.
  destruct z as [sz| | |]; try discriminate.
  destruct x as [sx| | |sx m e]; try discriminate; reflexivity.
Qed.

Lemma mul_zero_finite (z x : float) :
  F32.is_zero z = true -> F32.is_finite x = true -> F32.is_zero (F32.mul z x) = true.
Proof.
  destruct z as [sz| | |]; try discriminate.
  destruct x as [sx| | |sx m e]; try discriminate; reflexivity.
Qed.

Lemma add_zeros (a b : float) :
  F32.is_zero a = true -> F32.is_zero b = true -> F32.is_zero (F32.add a b) = true.
Proof.
  destruct a as [[|]| | |]; try discriminate;
    destruct b as [[|]| | |]; try discriminate; reflexivity.
Qed.

Lemma sub_zeros (a b : float) :
  F32.is_zero a = true -> F32.is_zero b = true -> F32.is_zero (F32.sub a b) = true.
Proof.
  destruct a as [[|]| | |]; try discriminate;
    destruct b as [[|]| | |]; try discriminate; reflexivity.
Qed.

Lemma dot_zero_r (a v : Vector3) :
  finiteVector a -> zeroVector v -> F32.is_zero (Vec.dot a v) = true.
Proof.
  intros (Hx & Hy & Hz) (Zx & Zy & Zz). unfold Vec.dot.
  apply add_zeros; [apply add_zeros|]; by apply mul_finite_zero.
Qed.

Lemma dot_zeros (d : Vector3) : zeroVector d -> F32.is_zero (Vec.dot d d) = true.
Proof.
  intros (Zx & Zy & Zz). unfold Vec.dot.
  destruct (vx d) as [sx| | |]; try discriminate.
  destruct (vy d) as [sy| | |]; try discriminate.
  destruct (vz d) as [sz| | |]; try discriminate.
  by destruct sx, sy, sz.
Qed.

Lemma length_zeros (d : Vector3) : zeroVector d -> F32.is_zero (Vec.length d) = true.
Proof.
  intros Hd. pose proof (dot_zeros d Hd) as H. unfold Vec.length.
  destruct (Vec.dot d d) as [s| | |]; try discriminate. reflexivity.
Qed.

Lemma planeQualifies_rest desc (p v : Vector3) (plane : Plane) :
  finiteVector (plane_normal plane) -> zeroVector v ->
  planeQualifies desc p v plane = false.
Proof.
  intros Hn Hv. unfold planeQualifies.
  rewrite (approxEquals_zero _ (dot_zero_r _ _ Hn Hv)). simpl.
  by rewrite andb_false_r.
Qed.

(** X10: a particle at rest passes no plane.  In plane mode, on a buffer
    with a slot for every particle (and, in local space, with no more
    planes than particles, so that the transformed planes fit their scratch
    storage), when the normals of the planes the scan reads are finite, a
    particle whose velocity is zero in every component is left as it was,
    wherever it is: position, velocity and lifetime keep their values. *)
Theorem X10_resting_particle_passes_no_plane (self : ParticleCollisions) (random : Random)
    (state : ParticleSystemState Matrix4) (set : ParticleSet)
    (i : nat) (p v : Vector3) (l : float) :
  mode (pc_mDesc self) = Plane_mode ->
  set_wf set ->
  worldSpace state = true
    \/ (length (mCollisionPlanes self) <= getParticleCount set)%nat ->
  (forall j plane, effectivePlanes self state !! j = Some plane ->
                   finiteVector (plane_normal plane)) ->
  (i < getParticleCount set)%nat ->
  position (getParticles set) !! i = Some p ->
  velocity (getParticles set) !! i = Some v ->
  lifetime (getParticles set) !! i = Some l ->
  zeroVector v ->
  exists set',
    evolve self random state set = Some set'
    /\ position (getParticles set') !! i = Some p
    /\ velocity (getParticles set') !! i = Some v
    /\ lifetime (getParticles set') !! i = Some l.
Proof.
  intros Hmode (Hp & Hv & Hl & Hil & _ & _) Hfit Hfin Hi Hpi Hvi Hli Hrest.
  destruct (evolvePlanes_spec self state _ _ Hfit Hp Hv Hl Hil)
    as (q & Hq & _ & _ & _ & _ & _ & _ & _ & Hdone).
  exists (mkParticleSet (getParticleCount set) q). split.
  - unfold evolve, ParticleCollisions_evolve. rewrite Hmode. by rewrite Hq.
  - destruct (lookup_lt_is_Some_2 (initialLifetime (getParticles set)) i ltac:(lia))
      as [il Hili].
    specialize (Hdone i Hi p v l il Hpi Hvi Hli Hili).
    rewrite find_nowhere in Hdone; [exact Hdone|].
    intros j plane Hj. apply planeQualifies_rest; [|exact Hrest].
    by apply (Hfin j).
Qed.

Lemma rest_component (x w t : float) :
  F32.is_finite x = true -> F32.is_zero w = true -> F32.is_finite t = true ->
  F32.is_zero (F32.sub x (F32.sub x (F32.mul w t))) = true.
Proof.
  intros Hx Hw Ht. pose proof (mul_zero_finite w t Hw Ht) as Hz.
  destruct (F32.mul w t) as [sz| | |]; try discriminate.
  destruct x as [sx| | |sx m e]; try discriminate.
  - by destruct sx, sz.
  - change (F32.sub (S754_finite sx m e) (S754_zero sz)) with (S754_finite sx m e).
    by rewrite sub_self.
Qed.

Lemma segmentRay_rest (state : ParticleSystemState Matrix4) (p v : Vector3) :
  worldSpace state = true -> finiteVector p -> zeroVector v ->
  F32.is_finite (timeStep state) = true ->
  segmentRay (particleSegment state p v) = None.
Proof.
  intros Hws (Hx & Hy & Hz) (Zx & Zy & Zz) Ht.
  apply segmentRay_skips. apply approxEquals_zero. apply length_zeros.
  unfold particleSegment. rewrite Hws. simpl.
  repeat split; simpl; by apply rest_component.
Qed.

(** X11: a particle at rest is never cast.  In world-geometry mode with
    the particles in world space, for a finite time step, a particle at a
    finite position whose velocity is zero in every component has a segment
    of length zero, which the batcher skips: the particle is left as it
    was, whatever the colliders answer. *)
Theorem X11_resting_particle_is_not_cast (self : ParticleCollisions) (random : Random)
    (state : ParticleSystemState Matrix4) (set : ParticleSet)
    (i : nat) (p v : Vector3) (l : float) :
  mode (pc_mDesc self) = World_mode ->
  set_wf set ->
  worldSpace state = true ->
  F32.is_finite (timeStep state) = true ->
  (i < getParticleCount set)%nat ->
  position (getParticles set) !! i = Some p ->
  velocity (getParticles set) !! i = Some v ->
  lifetime (getParticles set) !! i = Some l ->
  finiteVector p -> zeroVector v ->
  segmentRay (particleSegment state p v) = None
  /\ exists set',
       evolve self random state set = Some set'
       /\ position (getParticles set') !! i = Some p
       /\ velocity (getParticles set') !! i = Some v
       /\ lifetime (getParticles set') !! i = Some l.
Proof.
  intros Hmode (Hp & Hv & Hl & Hil & _ & _) Hws Ht Hi Hpi Hvi Hli Hfin Hrest.
  pose proof (segmentRay_rest state p v Hws Hfin Hrest Ht) as Hray.
  split; [exact Hray|].
  destruct (evolveWorld_spec self state _ _ Hp Hv Hl Hil)
    as (q & Hq & _ & _ & _ & _ & _ & _ & _ & Hin).
  exists (mkParticleSet (getParticleCount set) q). split.
  - unfold evolve, ParticleCollisions_evolve. rewrite Hmode. by rewrite Hq.
  - destruct (lookup_lt_is_Some_2 (initialLifetime (getParticles set)) i ltac:(lia))
      as [il Hili].
    pose proof (Hin i (particleSegment state p v) p v l il
                  (particleSegments_lookup state _ i _ p v Hi Hpi Hvi)
                  Hpi Hvi Hli Hili) as Hout.
    cbn [Nat.add] in Hout. unfold segmentHit in Hout. by rewrite Hray in Hout.
Qed.

End CollisionFurther.

(** ** The response with full dampening *)

Lemma dot_zero_l (z a : Vector3) :
  zeroVector z -> finiteVector a -> F32.is_zero (Vec.dot z a) = true.
Proof.
  intros (Zx & Zy & Zz) (Hx & Hy & Hz). unfold Vec.dot.
  apply add_zeros; [apply add_zeros|]; by apply mul_zero_finite.
Qed.

Lemma scale_by_zero (a : Vector3) (z : float) :
  finiteVector a -> F32.is_zero z = true -> zeroVector (Vec.scale a z).
Proof.
  intros (Hx & Hy & Hz) Hzero. repeat split; simpl; by apply mul_finite_zero.
Qed.

Lemma scale_zeros (z : Vector3) (k : float) :
  zeroVector z -> F32.is_finite k = true -> zeroVector (Vec.scale z k).
Proof.
  intros (Zx & Zy & Zz) Hk. repeat split; simpl; by apply mul_zero_finite.
Qed.

Lemma sub_zeroVectors (a b : Vector3) :
  zeroVector a -> zeroVector b -> zeroVector (Vec.sub a b).
Proof.
  intros (Ax & Ay & Az) (Bx & By & Bz). repeat split; simpl; by apply sub_zeros.
Qed.

Lemma add_finite_zero (x z : float) :
  F32.is_finite x = true -> F32.is_zero z = true -> F32.eqb (F32.add x z) x = true.
Proof.
  destruct z as [sz| | |]; try discriminate.
  destruct x as [sx| | |sx m e]; try discriminate; intros _ _.
  - by destruct sx, sz.
  - change (F32.add (S754_finite sx m e) (S754_zero sz)) with (S754_finite sx m e).
    unfold F32.eqb, SFeqb. destruct sx; simpl;
      by rewrite Z.compare_refl, Pos.compare_cont_refl.
Qed.

(** X12: full dampening stops the particle at the hit.  With a dampening
    of exactly 1 the dampen factor is 0, so that, when the normal and the
    hit position are finite, the two reflected vectors do not overflow and
    [1 - restitution] is finite, the response has a velocity that is zero
    in every component and a position that equals the hit position in
    every component, whatever position and velocity the particle had. *)
Theorem X12_full_dampening_stops_at_hit (position velocity : Vector3)
    (hitInfo : ParticleHitInfo) (desc : PARTICLE_COLLISONS_DESC) :
  dampening desc = F32.one ->
  F32.is_finite (F32.sub F32.one (restitution desc)) = true ->
  finiteVector (hit_position hitInfo) ->
  finiteVector (hit_normal hitInfo) ->
  finiteVector (Vec.reflect (Vec.sub position (hit_position hitInfo)) (hit_normal hitInfo)) ->
  finiteVector (Vec.reflect velocity (hit_normal hitInfo)) ->
  zeroVector (snd (calcCollisionResponse position velocity hitInfo desc))
  /\ F32.eqb (vx (fst (calcCollisionResponse position velocity hitInfo desc)))
             (vx (hit_position hitInfo)) = true
  /\ F32.eqb (vy (fst (calcCollisionResponse position velocity hitInfo desc)))
             (vy (hit_position hitInfo)) = true
  /\ F32.eqb (vz (fst (calcCollisionResponse position velocity hitInfo desc)))
             (vz (hit_position hitInfo)) = true.
Proof.
  intros Hd Hr Hp Hn Hrp Hrv. unfold calcCollisionResponse. rewrite Hd.
  change (F32.sub F32.one F32.one) with F32.zero.
  set (n := hit_normal hitInfo) in *.
  set (k := F32.sub F32.one (restitution desc)) in *.
  assert (Hz : F32.is_zero F32.zero = true) by reflexivity.
  assert (Zp : zeroVector (Vec.scale (Vec.reflect (Vec.sub position (hit_position hitInfo)) n)
                             F32.zero)) by (by apply scale_by_zero).
  assert (Zv : zeroVector (Vec.scale (Vec.reflect velocity n) F32.zero))
    by (by apply scale_by_zero).
  set (rp := Vec.scale (Vec.reflect (Vec.sub position (hit_position hitInfo)) n) F32.zero) in *.
  set (rv := Vec.scale (Vec.reflect velocity n) F32.zero) in *.
  assert (Zp' : zeroVector (Vec.sub rp (Vec.scale (Vec.scale n (Vec.dot rp n)) k))).
  { apply sub_zeroVectors; [done|]. apply scale_zeros; [|done].
    apply scale_by_zero; [done|]. by apply dot_zero_l. }
  assert (Zv' : zeroVector (Vec.sub rv (Vec.scale (Vec.scale n (Vec.dot rv n)) k))).
  { apply sub_zeroVectors; [done|]. apply scale_zeros; [|done].
    apply scale_by_zero; [done|]. by apply dot_zero_l. }
  cbn [fst snd]. split; [exact Zv'|].
  destruct Hp as (Px & Py & Pz). destruct Zp' as (Zx & Zy & Zz).
  unfold Vec.add. cbn [vx vy vz].
  split; [by apply add_finite_zero|]. split; by apply add_finite_zero.
Qed.

(** ** Concrete runs *)

Lemma twoParticles_wf : set_wf twoParticles.
Proof. unfold set_wf; simpl; lia. Defined.



(** Outside the invariant of the buffer: with a valid grid of 8 frames
    and no row randomization, the particle whose lifetime and initial
    lifetime are both zero gets the frame NaN. *)
Example frame_outside_invariant :
  validAnimation (sheetAnimation false) = Some sheetGrid
  /\ exists set' f,
       ParticleTextureAnimation_evolve unit fixedRandom_new fixedRandom_getRange unit
         (sheetAnimation false) tt worldState twoParticles = Some set'
       /\ frameRange unit fixedRandom_new fixedRandom_getRange
            (ta_mDesc (sheetAnimation false)) sheetGrid (getParticles twoParticles) 1
          = Some (0, 8)
       /\ frame (getParticles set') !! 1%nat = Some f
       /\ ~ (F32.leb (F32.of_Z 0) f = true /\ F32.leb f (F32.of_Z (0 + 8 - 1)) = true).
Proof.
  split; [reflexivity|]. eexists. exists S754_nan.
  split; [vm_compute; reflexivity|]. split; [reflexivity|]. split; [reflexivity|].
  intros [H _]. vm_compute in H. discriminate H.
Qed.

Lemma C5_fallback_zero_frames_witness :
  exists set',
    ParticleTextureAnimation_evolve unit fixedRandom_new fixedRandom_getRange unit
      bareAnimation tt worldState twoParticles = Some set'
    /\ getParticleCount set' = getParticleCount twoParticles
    /\ forall i, (i < getParticleCount twoParticles)%nat ->
                 frame (getParticles set') !! i = Some F32.zero.
Proof.
  apply (C5_fallback_zero_frames unit fixedRandom_new fixedRandom_getRange unit
           bareAnimation tt worldState twoParticles).
  - left. reflexivity.
  - simpl. lia.
Defined.

Lemma C8_row_determinism_witness :
  frameRange unit fixedRandom_new fixedRandom_getRange (mkTextureAnimationDesc true 3)
    sheetGrid (getParticles twoParticles) 0
  = frameRange unit fixedRandom_new fixedRandom_getRange (mkTextureAnimationDesc true 1)
      sheetGrid (set_frame (getParticles twoParticles) []) 0.
Proof.
  apply (C8_row_determinism unit fixedRandom_new fixedRandom_getRange unit sheetGrid
           (mkTextureAnimationDesc true 1) (mkTextureAnimationDesc true 3)
           (set_frame (getParticles twoParticles) []) (getParticles twoParticles)
           0%nat 0%nat 7); reflexivity.
Defined.

Lemma C9_only_frame_written_witness :
  exists set',
    ParticleTextureAnimation_evolve unit fixedRandom_new fixedRandom_getRange unit
      (sheetAnimation true) tt worldState twoParticles = Some set'
    /\ getParticleCount set' = getParticleCount twoParticles
    /\ position (getParticles set') = position (getParticles twoParticles)
    /\ velocity (getParticles set') = velocity (getParticles twoParticles)
    /\ lifetime (getParticles set') = lifetime (getParticles twoParticles)
    /\ initialLifetime (getParticles set') = initialLifetime (getParticles twoParticles)
    /\ seed (getParticles set') = seed (getParticles twoParticles).
Proof.
  apply (C9_only_frame_written unit fixedRandom_new fixedRandom_getRange unit
           (sheetAnimation true) tt worldState twoParticles).
  exact twoParticles_wf.
Defined.

Lemma C2_scratch_sized_by_particle_count_witness :
  localPlanes unit unitTransformPlane
    (planeCollisions [groundPlane; farPlane; groundPlane]) localState 2 = None
  /\ ParticleCollisions_evolve unit unit unitTransform unitTransform unitTransformPlane
       (list Vector3) [] mergePoints unit tt PhysicsQueryHit emptyWorld cannedRayCast
       (planeCollisions [groundPlane; farPlane; groundPlane]) tt localState twoParticles
     = None.
Proof.
  apply (C2_scratch_sized_by_particle_count unit unit unitTransform unitTransform
           unitTransformPlane (list Vector3) [] mergePoints unit tt PhysicsQueryHit
           emptyWorld cannedRayCast
           (planeCollisions [groundPlane; farPlane; groundPlane]) tt localState twoParticles).
  - reflexivity.
  - reflexivity.
  - simpl. lia.
Defined.


Lemma C6_no_colliders_no_change_witness :
  ParticleCollisions_evolve unit unit unitTransform unitTransform unitTransformPlane
    (list Vector3) [] mergePoints unit tt PhysicsQueryHit emptyWorld cannedRayCast
    worldCollisions tt localState twoParticles
  = Some twoParticles.
Proof.
  apply (C6_no_colliders_no_change unit unit unitTransform unitTransform unitTransformPlane
           (list Vector3) [] mergePoints unit tt PhysicsQueryHit emptyWorld cannedRayCast
           worldCollisions tt localState twoParticles).
  - reflexivity.
  - exact twoParticles_wf.
  - intros segments bounds _ _. reflexivity.
Defined.

Lemma twoSegments_readable :
  forall i, (i < 2)%nat -> is_Some (buf_read twoSegments i).
Proof.
  intros i Hi. destruct i as [|[|i]]; [eexists; reflexivity|eexists; reflexivity|lia].
Defined.

Lemma C7_degenerate_segment_skipped_witness :
  exists numHits hits',
    groupRaycast (list Vector3) [] mergePoints unit tt PhysicsQueryHit groundWorld
      cannedRayCast twoSegments (bs_stack_alloc 2) 2 0 = Some (numHits, hits')
    /\ forall j h, (j < numHits)%nat -> buf_read hits' j = Some h -> hit_idx h <> 1%nat.
Proof.
  destruct (C7_degenerate_segment_skipped (list Vector3) [] mergePoints unit tt
              PhysicsQueryHit groundWorld cannedRayCast twoSegments (bs_stack_alloc 2) 2 0)
    as [(numHits & hits' & Hrun & Hskip) _];
    [exact twoSegments_readable|simpl; lia|].
  exists numHits, hits'. split; [exact Hrun|].
  destruct (Hskip 1%nat (mkLineSegment3 (v3 5 5 5) (v3 5 5 5))) as [_ Hnone];
    [reflexivity|vm_compute; reflexivity|exact Hnone].
Defined.

Lemma C10_hits_dense_and_in_bounds_witness :
  exists numHits hits',
    groupRaycast (list Vector3) [] mergePoints unit tt PhysicsQueryHit groundWorld
      cannedRayCast twoSegments (bs_stack_alloc 2) 2 0 = Some (numHits, hits')
    /\ (numHits <= 2)%nat /\ length hits' = 2%nat.
Proof.
  destruct (C10_hits_dense_and_in_bounds (list Vector3) [] mergePoints unit tt
              PhysicsQueryHit groundWorld cannedRayCast twoSegments (bs_stack_alloc 2) 2 0)
    as (numHits & hits' & hitColliders & Hrun & Hle & Hlen & _);
    [exact twoSegments_readable|simpl; lia|].
  exists numHits, hits'. split; [exact Hrun|]. split; [exact Hle|exact Hlen].
Defined.

Example groupRaycast_twoSegments :
  groupRaycast (list Vector3) [] mergePoints unit tt PhysicsQueryHit groundWorld
    cannedRayCast twoSegments (bs_stack_alloc 2) 2 0
  = Some (1%nat, [Some (mkHitInfo (v3 0 0 0) (v3 0 1 0) 0); None]).
Proof. vm_compute. reflexivity. Qed.

(** ** Concrete runs of the further properties *)

Lemma freshParticles_wf : set_wf freshParticles.
Proof. unfold set_wf; simpl; lia. Defined.

Lemma X1_fresh_particle_first_frame_witness :
  exists set' frameOffset numFrames,
    ParticleTextureAnimation_evolve unit fixedRandom_new fixedRandom_getRange unit
      (sheetAnimation true) tt worldState freshParticles = Some set'
    /\ frameRange unit fixedRandom_new fixedRandom_getRange
         (ta_mDesc (sheetAnimation true)) sheetGrid (getParticles freshParticles) 0
       = Some (frameOffset, numFrames)
    /\ frame (getParticles set') !! 0%nat = Some (F32.of_Z frameOffset).
Proof.
  apply (X1_fresh_particle_first_frame unit fixedRandom_new fixedRandom_getRange unit
           (sheetAnimation true) tt worldState freshParticles sheetGrid 0%nat F32.one).
  - reflexivity.
  - exact freshParticles_wf.
  - unfold gridInRange, UINT32_MOD. simpl. lia.
  - unfold UINT32_MOD. simpl. lia.
  - simpl. lia.
  - reflexivity.
  - reflexivity.
  - reflexivity.
  - reflexivity.
Defined.

Lemma X2_animation_idempotent_witness :
  exists set',
    ParticleTextureAnimation_evolve unit fixedRandom_new fixedRandom_getRange unit
      (sheetAnimation true) tt worldState twoParticles = Some set'
    /\ ParticleTextureAnimation_evolve unit fixedRandom_new fixedRandom_getRange unit
         (sheetAnimation true) tt localState set' = Some set'.
Proof.
  apply (X2_animation_idempotent unit fixedRandom_new fixedRandom_getRange unit
           (sheetAnimation true) tt tt worldState localState twoParticles).
  exact twoParticles_wf.
Defined.

Lemma X3_row_inside_sheet_witness :
  4 = numColumns sheetGrid
  /\ exists row, 0 <= row < numRows sheetGrid
                 /\ 0 = row * numColumns sheetGrid
                 /\ 0 + 4 <= numRows sheetGrid * numColumns sheetGrid.
Proof.
  apply (X3_row_inside_sheet unit fixedRandom_new fixedRandom_getRange
           (mkTextureAnimationDesc true 1) sheetGrid (getParticles twoParticles) 0%nat 0 4).
  - intros r lo hi Hlt. unfold fixedRandom_getRange. lia.
  - reflexivity.
  - reflexivity.
  - unfold UINT32_MOD. simpl. lia.
  - reflexivity.
Defined.

Lemma twoSegments_listed :
  forall i, (i < length twoSegmentList)%nat -> buf_read twoSegments i = twoSegmentList !! i.
Proof.
  intros i Hi. destruct i as [|[|i]]; [reflexivity|reflexivity|simpl in Hi; lia].
Defined.

Lemma X6_groupRaycast_compacts_witness :
  groupRaycast (list Vector3) [] mergePoints unit tt PhysicsQueryHit groundWorld
    cannedRayCast twoSegments (bs_stack_alloc 2) (length twoSegmentList) 0
  = Some (1%nat, [Some (mkHitInfo (v3 0 0 0) (v3 0 1 0) 0); None]).
Proof.
  rewrite (X6_groupRaycast_compacts (list Vector3) [] mergePoints unit tt PhysicsQueryHit
             groundWorld cannedRayCast twoSegments twoSegmentList (bs_stack_alloc 2) 0).
  - vm_compute. reflexivity.
  - exact twoSegments_listed.
  - simpl. lia.
Defined.

Lemma X7_nearest_hit_kept_witness :
  segmentHit PhysicsQueryHit cannedRayCast [groundHit] 0
    (mkLineSegment3 (v3 0 1 0) (v3 0 (-1) 0)) = None
  <-> forall c q, In c [groundHit] ->
        cannedRayCast c (mkRay (v3 0 1 0) (v3 0 (-1) 0)) F32.two = Some q ->
        F32.ltb (qh_distance q) F32.FLT_MAX = false.
Proof.
  apply (X7_nearest_hit_kept PhysicsQueryHit cannedRayCast [groundHit] 0%nat
           (mkLineSegment3 (v3 0 1 0) (v3 0 (-1) 0))
           (mkRay (v3 0 1 0) (v3 0 (-1) 0)) F32.two).
  - intros c q [<-|[]] Hq. injection Hq as <-. reflexivity.
  - vm_compute. reflexivity.
Defined.

Lemma X8_world_mode_outcome_witness :
  exists set',
    ParticleCollisions_evolve unit unit unitTransform unitTransform unitTransformPlane
      (list Vector3) [] mergePoints unit tt PhysicsQueryHit groundWorld cannedRayCast
      worldCollisions tt worldState twoParticles = Some set'
    /\ position (getParticles set') !! 0%nat = Some (v3 0 1 0)
    /\ velocity (getParticles set') !! 0%nat = Some (v3 0 2 0)
    /\ lifetime (getParticles set') !! 0%nat = Some F32.zero.
Proof.
  destruct (X8_world_mode_outcome unit unit unitTransform unitTransform unitTransformPlane
              (list Vector3) [] mergePoints unit tt PhysicsQueryHit groundWorld
              cannedRayCast worldCollisions tt worldState twoParticles)
    as (set' & Hrun & Hall); [reflexivity|exact twoParticles_wf|].
  exists set'. split; [exact Hrun|].
  pose proof (Hall 0%nat (v3 0 (-1) 0) (v3 0 (-2) 0) half F32.one) as Hout.
  vm_compute in Hout.
  apply Hout; [lia|reflexivity|reflexivity|reflexivity|reflexivity].
Defined.

Lemma X9_collisions_footprint_witness :
  exists set',
    ParticleCollisions_evolve unit unit unitTransform unitTransform unitTransformPlane
      (list Vector3) [] mergePoints unit tt PhysicsQueryHit groundWorld cannedRayCast
      (planeCollisions [groundPlane]) tt worldState twoParticles = Some set'
    /\ getParticleCount set' = getParticleCount twoParticles
    /\ initialLifetime (getParticles set') = initialLifetime (getParticles twoParticles)
    /\ seed (getParticles set') = seed (getParticles twoParticles)
    /\ frame (getParticles set') = frame (getParticles twoParticles).
Proof.
  destruct (X9_collisions_footprint unit unit unitTransform unitTransform unitTransformPlane
              (list Vector3) [] mergePoints unit tt PhysicsQueryHit groundWorld
              cannedRayCast (planeCollisions [groundPlane]) tt worldState twoParticles)
    as (set' & Hrun & Hn & Hil & Hs & Hf & _);
    [exact twoParticles_wf|intros _; left; reflexivity|].
  exists set'. split; [exact Hrun|]. split; [exact Hn|]. split; [exact Hil|].
  split; [exact Hs|exact Hf].
Defined.

Lemma X10_resting_particle_passes_no_plane_witness :
  exists set',
    ParticleCollisions_evolve unit unit unitTransform unitTransform unitTransformPlane
      (list Vector3) [] mergePoints unit tt PhysicsQueryHit groundWorld cannedRayCast
      (planeCollisions [groundPlane]) tt worldState twoParticles = Some set'
    /\ position (getParticles set') !! 1%nat = Some (v3 5 5 5)
    /\ velocity (getParticles set') !! 1%nat = Some (v3 0 0 0)
    /\ lifetime (getParticles set') !! 1%nat = Some F32.zero.
Proof.
  apply (X10_resting_particle_passes_no_plane unit unit unitTransform unitTransform
           unitTransformPlane (list Vector3) [] mergePoints unit tt PhysicsQueryHit
           groundWorld cannedRayCast (planeCollisions [groundPlane]) tt worldState
           twoParticles 1%nat (v3 5 5 5) (v3 0 0 0) F32.zero).
  - reflexivity.
  - exact twoParticles_wf.
  - left. reflexivity.
  - intros j plane Hj. destruct j as [|j]; simpl in Hj.
    + injection Hj as <-. repeat split; reflexivity.
    + destruct j; discriminate Hj.
  - simpl. lia.
  - reflexivity.
  - reflexivity.
  - reflexivity.
  - repeat split; reflexivity.
Defined.

Lemma X11_resting_particle_is_not_cast_witness :
  segmentRay (particleSegment unit unitTransform worldState (v3 5 5 5) (v3 0 0 0)) = None
  /\ exists set',
       ParticleCollisions_evolve unit unit unitTransform unitTransform unitTransformPlane
         (list Vector3) [] mergePoints unit tt PhysicsQueryHit groundWorld cannedRayCast
         worldCollisions tt worldState twoParticles = Some set'
       /\ position (getParticles set') !! 1%nat = Some (v3 5 5 5)
       /\ velocity (getParticles set') !! 1%nat = Some (v3 0 0 0)
       /\ lifetime (getParticles set') !! 1%nat = Some F32.zero.
Proof.
  apply (X11_resting_particle_is_not_cast unit unit unitTransform unitTransform
           unitTransformPlane (list Vector3) [] mergePoints unit tt PhysicsQueryHit
           groundWorld cannedRayCast worldCollisions tt worldState
           twoParticles 1%nat (v3 5 5 5) (v3 0 0 0) F32.zero).
  - reflexivity.
  - exact twoParticles_wf.
  - reflexivity.
  - reflexivity.
  - simpl. lia.
  - reflexivity.
  - reflexivity.
  - reflexivity.
  - repeat split; reflexivity.
  - repeat split; reflexivity.
Defined.

Lemma X12_full_dampening_stops_at_hit_witness :
  zeroVector (snd (calcCollisionResponse (v3 0 (-1) 0) (v3 0 (-2) 0)
                     (mkHitInfo (v3 0 0 0) (v3 0 1 0) 0) (responseDesc 1 0)))
  /\ F32.eqb (vx (fst (calcCollisionResponse (v3 0 (-1) 0) (v3 0 (-2) 0)
                         (mkHitInfo (v3 0 0 0) (v3 0 1 0) 0) (responseDesc 1 0))))
             (vx (v3 0 0 0)) = true
  /\ F32.eqb (vy (fst (calcCollisionResponse (v3 0 (-1) 0) (v3 0 (-2) 0)
                         (mkHitInfo (v3 0 0 0) (v3 0 1 0) 0) (responseDesc 1 0))))
             (vy (v3 0 0 0)) = true
  /\ F32.eqb (vz (fst (calcCollisionResponse (v3 0 (-1) 0) (v3 0 (-2) 0)
                         (mkHitInfo (v3 0 0 0) (v3 0 1 0) 0) (responseDesc 1 0))))
             (vz (v3 0 0 0)) = true.
Proof.
  apply (X12_full_dampening_stops_at_hit (v3 0 (-1) 0) (v3 0 (-2) 0)
           (mkHitInfo (v3 0 0 0) (v3 0 1 0) 0) (responseDesc 1 0)).
  - reflexivity.
  - reflexivity.
  - repeat split; reflexivity.
  - repeat split; reflexivity.
  - repeat split; vm_compute; reflexivity.
  - repeat split; vm_compute; reflexivity.
Defined.
